(** * smart-serialize-js: a shallow embedding of [smartSerialize]

    The development follows the latest revision of the serializer
    (the one with [measureSize], [addSize], [render], [escape],
    [iterateStack] and the callback mode).  The JavaScript closure is
    turned into explicit state passing: the mutable variables [stack],
    [seen], [size], [sizeLimitReached] and [output] are the fields of
    one record, and the value graph that the caller hands in is a
    store of objects addressed by location, so that two references to
    one instance are the same location.

    The values are those of the data model of the specification
    ([null], booleans, numbers, strings, functions, dates, errors,
    patterns, arrays and plain objects) and the two that no branch of
    the code names and the last [else] takes: [undefined], which is
    also what [value[i]] is at the hole of a sparse array, and
    BigInts.

    What the model leaves out.  Symbols, on which [str += value]
    throws, and boxed primitives are not modelled.  A string is a
    string of 8-bit characters and its length is their number.  The
    counter [size] and the limits are integers (every amount the code
    adds is one), so the rounding of doubles is left out.
    [toISOString()] and [toString()] are taken to return; what they
    return is part of the input. *)

From Stdlib Require Import ZArith String Ascii List Lia.
From stdpp Require Import base gmap strings list pretty.

Open Scope string_scope.
Open Scope list_scope.

(** ** Values *)

(** A location is the identity of an object: what the [WeakSet] compares. *)
Definition loc := nat.

(** What a variable can hold.  A number is kept by the text that
    [String(value)] gives it, the only observation the serializer makes
    of a number, and so is a BigInt; a function by its [name];
    everything of type ['object'] except [null] is a reference into
    the store.  [Undef] is [undefined]. *)
Inductive value :=
| Null
| Bool (b : bool)
| Number (text : string)
| Str (s : string)
| Function (name : string)
| Ref (l : loc)
| Undef
| BigInt (text : string).

(** The objects of the store.  A mapping lists its own enumerable keys
    in [Object.keys] order, each with the value [value[k]]; a date, an
    error and a pattern carry the text of [toISOString()] and
    [toString()], which the host computes. *)
Inductive object :=
| Sequence (elems : list value)
| Mapping (props : list (string * value))
| Date (iso : string)
| ErrorLike (str : string)
| Pattern (str : string).

(** [maxDepth] and [maxSize]: an integer or [Infinity] (the default). *)
Inductive limit :=
| Finite (n : Z)
| Infinity.

(** The six symbols that stand for brackets and braces on the stack. *)
Inductive enclosure :=
| LEFT_BRACKET
| RIGHT_BRACKET
| BRACKETS
| LEFT_BRACE
| RIGHT_BRACE
| BRACES.

#[global] Instance enclosure_eq_dec : EqDecision enclosure.
Proof. solve_decision. Defined.

(** The second slot of a stack entry: a value of the input or a symbol. *)
Inductive node :=
| Val (v : value)
| Enc (e : enclosure).

(** A stack entry [[key, value, index, depth]].  [None] stands for the
    [null] and [undefined] that the code puts in the key and index
    slots; both are falsy and nothing else is asked of them. *)
Record frame := Frame {
  key : option string;
  payload : node;
  index : option nat;
  depth : nat
}.

(** What [render] receives as its [value]: a symbol, a string, or one of
    [null], a boolean, a number, [undefined] and a BigInt, which
    [str += value] turns to text. *)
Inductive token :=
| TEnc (e : enclosure)
| TStr (s : string)
| TNull
| TBool (b : bool)
| TNum (text : string)
| TUndef
| TBig (text : string).

(** The counter [size].  It starts as the number 0; [size += n] keeps it
    a number, and [size += value.toString()] makes it a string. *)
Inductive counter :=
| CNum (n : Z)
| CStr (s : string).

(** The mutable variables of one call.  [rendered] is a history
    variable: the arguments of every call of [render], latest first;
    the code keeps only [output], their concatenated text. *)
Record state := State {
  stack : list frame;
  seen : gset loc;
  size : counter;
  sizeLimitReached : bool;
  output : string;
  rendered : list (option string * token * option nat)
}.

(** ** Rendering and escaping *)

Definition quote : string := String (ascii_of_nat 34) EmptyString.
Definition backslash : string := String (ascii_of_nat 92) EmptyString.

Definition getEnclosure (e : enclosure) : string :=
  match e with
  | LEFT_BRACKET => "["
  | RIGHT_BRACKET => "]"
  | BRACKETS => "[]"
  | LEFT_BRACE => "{"
  | RIGHT_BRACE => "}"
  | BRACES => "{}"
  end.

(** [/[\x00-\x1f\x22\x5c]/]: does the character match? *)
Definition ESCAPE_REGEXP (a : ascii) : bool :=
  let c := nat_of_ascii a in
  (c <=? 31)%nat || (c =? 34)%nat || (c =? 92)%nat.

(** The object literal of the replacer, looked up at [a]. *)
Definition escape_table (a : ascii) : option string :=
  let c := nat_of_ascii a in
  if (c =? 8)%nat then Some (backslash +:+ "b")
  else if (c =? 9)%nat then Some (backslash +:+ "t")
  else if (c =? 10)%nat then Some (backslash +:+ "n")
  else if (c =? 12)%nat then Some (backslash +:+ "f")
  else if (c =? 13)%nat then Some (backslash +:+ "r")
  else if (c =? 34)%nat then Some (backslash +:+ quote)
  else if (c =? 92)%nat then Some (backslash +:+ backslash)
  else None.

Definition hex_digit (n : nat) : ascii :=
  if (n <? 10)%nat then ascii_of_nat (48 + n) else ascii_of_nat (87 + n).

(** [n.toString(16)], with [fuel] at least the number of digits. *)
Fixpoint toString16_go (fuel n : nat) (acc : string) : string :=
  match fuel with
  | O => acc
  | S fuel' =>
      let acc' := String (hex_digit (n mod 16)) acc in
      if (n / 16 =? 0)%nat then acc' else toString16_go fuel' (n / 16) acc'
  end.

Definition toString16 (n : nat) : string := toString16_go (S n) n "".

(** [s.slice(-k)]: the last [k] characters. *)
Definition slice_last (k : nat) (s : string) : string :=
  substring (String.length s - k) k s.

(** The function handed to [replaceAll]. *)
Definition replacer (a : ascii) : string :=
  match escape_table a with
  | Some c => c
  | None => backslash +:+ "u" +:+ slice_last 4 ("0000" +:+ toString16 (nat_of_ascii a))
  end.

(** [ESCAPE_REGEXP.test(value)] from index 0. *)
Fixpoint test (value : string) : bool :=
  match value with
  | EmptyString => false
  | String a rest => ESCAPE_REGEXP a || test rest
  end.

(** [value.replaceAll(ESCAPE_REGEXP, replacer)]. *)
Fixpoint replaceAll (value : string) : string :=
  match value with
  | EmptyString => EmptyString
  | String a rest =>
      (if ESCAPE_REGEXP a then replacer a else String a EmptyString) +:+ replaceAll rest
  end.

Definition escape (value : string) : string :=
  if test value then replaceAll value else value.

(** Truthiness of the index and key slots. *)
Definition truthy_index (index : option nat) : bool :=
  match index with
  | Some (S _) => true
  | _ => false
  end.

Definition truthy_key (key : option string) : bool :=
  match key with
  | Some (String _ _) => true
  | _ => false
  end.

Definition token_text (t : token) : string :=
  match t with
  | TEnc e => getEnclosure e
  | TStr s => quote +:+ escape s +:+ quote
  | TNull => "null"
  | TBool true => "true"
  | TBool false => "false"
  | TNum text => text
  | TUndef => "undefined"
  | TBig text => text
  end.

(** The local [str] of [render] when it is prepended to [output]. *)
Definition fragment (key : option string) (t : token) (index : option nat) : string :=
  (if truthy_index index then "," else "")
  +:+ (if truthy_key key then quote +:+ default "" key +:+ quote +:+ ":" else "")
  +:+ token_text t.

Definition render (key : option string) (t : token) (index : option nat)
    (st : state) : state :=
  State (stack st) (seen st) (size st) (sizeLimitReached st)
        (fragment key t index +:+ output st)
        ((key, t, index) :: rendered st).


(** ** The closure of one call *)

(** What the inner functions of [smartSerialize] close over: the
    parameters [maxDepth] and [maxSize], the store that the argument
    [object] points into, and the host's [ToNumber(s) > n], which is
    what [size > maxSize] comes to once [size] is a string and
    [maxSize] is finite. *)
Class closure := Closure {
  heap : gmap loc object;
  maxDepth : limit;
  maxSize : limit;
  ToNumber_gt : string -> Z -> bool
}.

Section smartSerialize.

Context {c : closure}.

(** [size += n] for a number [n]. *)
Definition add_number (x : counter) (n : Z) : counter :=
  match x with
  | CNum m => CNum (m + n)
  | CStr s => CStr (s +:+ pretty n)
  end.

(** [size += s] for a string [s]. *)
Definition add_string (x : counter) (s : string) : counter :=
  match x with
  | CNum m => CStr (pretty m +:+ s)
  | CStr s0 => CStr (s0 +:+ s)
  end.

(** [size > maxSize]. *)
Definition exceeds (x : counter) : bool :=
  match maxSize, x with
  | Infinity, _ => false
  | Finite m, CNum n => (m <? n)%Z
  | Finite m, CStr s => ToNumber_gt s m
  end.

(** [depth < maxDepth]. *)
Definition below (depth : nat) : bool :=
  match maxDepth with
  | Infinity => true
  | Finite m => (Z.of_nat depth <? m)%Z
  end.

(** The new value of [size], and [if (size > maxSize) sizeLimitReached = true]. *)
Definition set_size (x : counter) (st : state) : state :=
  State (stack st) (seen st) x (sizeLimitReached st || exceeds x)
        (output st) (rendered st).

Definition measureSize (v : value) (st : state) : state :=
  let x := size st in
  set_size
    match v with
    | Null | Bool true => add_number x 4
    | Bool false => add_number x 5
    | Str s => add_number x (Z.of_nat (String.length s) + 2)
    | Number text => add_number x (Z.of_nat (String.length text))
    | Ref l =>
        match heap !! l with
        | Some (Date _) => add_number x 26
        | Some (ErrorLike s) | Some (Pattern s) => add_string x s
        | _ => x
        end
    | Function name => add_number x (13 + Z.of_nat (String.length name))
    | Undef | BigInt _ => x
    end st.

Definition addSize (strLength : Z) (st : state) : state :=
  set_size (add_number (size st) strLength) st.

(** [stack.pop()] has taken the top; [stack.push(f)] puts a new one. *)
Definition set_stack (s : list frame) (st : state) : state :=
  State s (seen st) (size st) (sizeLimitReached st) (output st) (rendered st).

Definition push (f : frame) (st : state) : state :=
  set_stack (f :: stack st) st.

(** [seen.add(value)]. *)
Definition seen_add (l : loc) (st : state) : state :=
  State (stack st) ({[l]} ∪ seen st) (size st) (sizeLimitReached st)
        (output st) (rendered st).

(** The [for] loop over [value[i]], from index [i] on. *)
Fixpoint push_elements (elems : list value) (i depth : nat) (st : state) : state :=
  match elems with
  | [] => st
  | v :: elems' =>
      let st1 := measureSize v st in
      let st2 :=
        if sizeLimitReached st1 then st1
        else push (Frame None (Val v) (Some i) (S depth)) st1 in
      push_elements elems' (S i) depth st2
  end.

(** [keys.forEach((k, i) => ...)], from index [i] on. *)
Fixpoint push_props (props : list (string * value)) (i depth : nat) (st : state) : state :=
  match props with
  | [] => st
  | (k, v) :: props' =>
      let st1 := addSize (Z.of_nat (String.length k) + 3) st in
      let st2 := if sizeLimitReached st1 then st1 else measureSize v st1 in
      let st3 :=
        if sizeLimitReached st2 then st2
        else push (Frame (Some k) (Val v) (Some i) (S depth)) st2 in
      push_props props' (S i) depth st3
  end.

(** The branch [value !== null && typeof value === 'object'], after
    [seen.add(value)]. *)
Definition visit (key : option string) (o : object) (index : option nat)
    (depth : nat) (st : state) : state :=
  match o with
  | Sequence elems =>
      let st := addSize 2 st in
      if negb (sizeLimitReached st) && below depth then
        push (Frame None (Enc RIGHT_BRACKET) None depth)
          (push_elements elems 0 depth
             (push (Frame key (Enc LEFT_BRACKET) index depth) st))
      else render key (TEnc BRACKETS) index st
  | Date iso => render key (TStr iso) index st
  | ErrorLike s | Pattern s => render key (TStr s) index st
  | Mapping [] => st
  | Mapping props =>
      let st := addSize 2 st in
      if negb (sizeLimitReached st) && below depth then
        push (Frame None (Enc RIGHT_BRACE) None depth)
          (push_props props 0 depth
             (push (Frame key (Enc LEFT_BRACE) index depth) st))
      else render key (TEnc BRACES) index st
  end.

(** The last [else] of [iterateStack]. *)
Definition leaf (key : option string) (t : token) (index : option nat)
    (st : state) : state :=
  let st := render key t index st in
  if truthy_index index then addSize 1 st else st.

(** [value.name || '(anonymous)']. *)
Definition name_or_anonymous (name : string) : string :=
  match name with
  | EmptyString => "(anonymous)"
  | _ => name
  end.

(** One call of [iterateStack].  [None]: there is no frame to pop (the
    destructuring of [undefined] throws), or the frame holds a reference
    to no object of the store, which no JavaScript value is. *)
Definition iterateStack (st : state) : option state :=
  match stack st with
  | [] => None
  | Frame key value index depth :: rest =>
      let st := set_stack rest st in
      match value with
      | Val (Ref l) =>
          if decide (l ∈ seen st) then
            let st := addSize 20 st in
            Some (if sizeLimitReached st then st
                  else render key (TStr "[circular reference]") index st)
          else
            match heap !! l with
            | Some o => Some (visit key o index depth (seen_add l st))
            | None => None
            end
      | Val (Function name) =>
          Some (render key (TStr ("[function " +:+ name_or_anonymous name +:+ "]")) index st)
      | Val Null => Some (leaf key TNull index st)
      | Val (Bool b) => Some (leaf key (TBool b) index st)
      | Val (Number text) => Some (leaf key (TNum text) index st)
      | Val (Str s) => Some (leaf key (TStr s) index st)
      | Val Undef => Some (leaf key TUndef index st)
      | Val (BigInt text) => Some (leaf key (TBig text) index st)
      | Enc e => Some (leaf key (TEnc e) index st)
      end
  end.

(** [const stack = [[null, object, undefined, 0]]] and the other initial
    values. *)
Definition initial (object : value) : state :=
  State [Frame None (Val object) None 0] ∅ (CNum 0) false "" [].

(** [while (stack.length) iterateStack()], at most [fuel] rounds. *)
Fixpoint run (fuel : nat) (st : state) : option state :=
  match stack st with
  | [] => Some st
  | _ :: _ =>
      match fuel with
      | O => None
      | S fuel' =>
          match iterateStack st with
          | Some st' => run fuel' st'
          | None => None
          end
      end
  end.

(** Frames that visiting an object can push. *)
Definition weight (o : object) : nat :=
  match o with
  | Sequence elems => 2 + length elems
  | Mapping props => 2 + length props
  | _ => 0
  end.

(** The frames that the objects of [m] not yet in [s] can still push. *)
Definition pending_in (m : gmap loc object) (s : gset loc) : nat :=
  map_fold (fun l o n => if decide (l ∈ s) then n else weight o + n) 0 m.

Definition pending (s : gset loc) : nat := pending_in heap s.

(** A bound on the rounds left. *)
Definition rounds (st : state) : nat :=
  length (stack st) + pending (seen st).

(** The input is a JavaScript value when every reference, of the
    argument and inside the store, leads to an object of the store. *)
Definition closed_value (v : value) : bool :=
  match v with
  | Ref l => match heap !! l with Some _ => true | None => false end
  | _ => true
  end.

Definition closed_object (o : object) : bool :=
  match o with
  | Sequence elems => forallb closed_value elems
  | Mapping props => forallb (fun p => closed_value p.2) props
  | _ => true
  end.

Definition closed (object : value) : bool :=
  closed_value object
  && bool_decide (map_Forall (fun _ o => closed_object o = true) heap).

(** What a call returns. *)
Inductive result :=
| Undefined
| Text (s : string).

(** The call without a callback: the loop runs until the stack is
    empty, then [return output].  The fuel is the bound on the rounds;
    [None] is the answer for a store with a reference to nothing. *)
Definition smartSerialize (object : value) : option result :=
  match run (rounds (initial object)) (initial object) with
  | Some st => Some (Text (output st))
  | None => None
  end.

(** *** The callback mode *)

Definition BATCH_SIZE : nat := 100 * 100.

(** [while (stack.length && i < BATCH_SIZE)], with [n = BATCH_SIZE - i]. *)
Fixpoint batch (n : nat) (st : state) : option state :=
  match stack st, n with
  | [], _ => Some st
  | _ :: _, O => Some st
  | _ :: _, S n' =>
      match iterateStack st with
      | Some st' => batch n' st'
      | None => None
      end
  end.

(** What one run of [callbackStack] ends with: [setTimeout(callbackStack)]
    or [callback(output)]. *)
Inductive effect :=
| SetTimeout
| Callback (arg : string).

Definition callbackStack (st : state) : option (state * effect) :=
  match batch BATCH_SIZE st with
  | Some st' =>
      Some (st', match stack st' with
                 | [] => Callback (output st')
                 | _ :: _ => SetTimeout
                 end)
  | None => None
  end.

(** The call with a callback: [callbackStack()] once, then the
    [return output] that both modes share.  The triple is the value
    returned, what the first [callbackStack] ended with, and the state
    the timer will find. *)
Definition smartSerialize_callback (object : value) : option (result * effect * state) :=
  match callbackStack (initial object) with
  | Some (st, e) => Some (Text (output st), e, st)
  | None => None
  end.

(** The timers that follow, at most [fuel] of them, and the argument
    of the call of [callback] that ends them. *)
Fixpoint timers (fuel : nat) (e : effect) (st : state) : option string :=
  match e with
  | Callback arg => Some arg
  | SetTimeout =>
      match fuel with
      | O => None
      | S fuel' =>
          match callbackStack st with
          | Some (st', e') => timers fuel' e' st'
          | None => None
          end
      end
  end.

End smartSerialize.

(** ** The escaping rule in the words of the specification

    The seven named characters go to their two-character sequences, any
    other control character (0x00 to 0x1F) to a four-hex-digit escape
    [\u00XX], and every other character stays as it is. *)

(** The letter that follows the backslash, for the seven named characters. *)
Definition two_character_escape (a : ascii) : option ascii :=
  match nat_of_ascii a with
  | 8 => Some "b"%char     (* backspace *)
  | 9 => Some "t"%char     (* tab *)
  | 10 => Some "n"%char    (* line feed *)
  | 12 => Some "f"%char    (* form feed *)
  | 13 => Some "r"%char    (* carriage return *)
  | 34 => Some a           (* double-quote *)
  | 92 => Some a           (* backslash *)
  | _ => None
  end.

Definition is_control (a : ascii) : bool := (nat_of_ascii a <? 32)%nat.

Definition u00XX (a : ascii) : string :=
  backslash +:+ "u00"
  +:+ String (hex_digit (nat_of_ascii a / 16))
        (String (hex_digit (nat_of_ascii a mod 16)) EmptyString).

Definition escaped_character (a : ascii) : string :=
  match two_character_escape a with
  | Some c => backslash +:+ String c EmptyString
  | None => if is_control a then u00XX a else String a EmptyString
  end.

Fixpoint escaped (s : string) : string :=
  match s with
  | EmptyString => EmptyString
  | String a rest => escaped_character a +:+ escaped rest
  end.

(** ** Vocabulary of the properties *)

(** The counter has not decreased: a counter that is a number came
    from a number that was not larger.  Nothing is said of a counter
    that has become a string. *)
Definition grows (c1 c2 : counter) : Prop :=
  match c2 with
  | CNum b => exists a, c1 = CNum a /\ (a <= b)%Z
  | CStr _ => True
  end.

(** [st'] is [st] after frames [fs] were pushed and sizes charged:
    nothing was rendered and nothing entered [seen]. *)
Definition pushed (fs : list frame) (st st' : state) : Prop :=
  stack st' = fs ++ stack st
  /\ seen st' = seen st
  /\ output st' = output st
  /\ rendered st' = rendered st
  /\ (sizeLimitReached st = true -> sizeLimitReached st' = true /\ fs = [])
  /\ grows (size st) (size st').

(** The frame of a child, as the two loops push it. *)
Definition is_child_of (values : list value) (f : frame) : Prop :=
  exists v, In v values /\ payload f = Val v.

(** Every reference on the stack leads to an object of the store. *)
Definition closed_frame {c : closure} (f : frame) : bool :=
  match payload f with
  | Val v => closed_value v
  | Enc _ => true
  end.

Definition closed_heap {c : closure} : Prop :=
  map_Forall (fun _ o => closed_object o = true) heap.

(** The values an object holds. *)
Definition children (o : object) : list value :=
  match o with
  | Sequence elems => elems
  | Mapping props => map snd props
  | _ => []
  end.

(** [n] calls of [iterateStack] in a row. *)
Fixpoint steps {c : closure} (n : nat) (st : state) : option state :=
  match n with
  | O => Some st
  | S n' =>
      match iterateStack st with
      | Some st' => steps n' st'
      | None => None
      end
  end.

(** How often the symbol [e] was rendered, and how often it waits on the stack. *)
Definition is_enclosure (e : enclosure) (n : node) : bool :=
  match n with
  | Enc e' => bool_decide (e = e')
  | Val _ => false
  end.

Definition is_enclosure_token (e : enclosure) (t : token) : bool :=
  match t with
  | TEnc e' => bool_decide (e = e')
  | _ => false
  end.

Definition frames_of (e : enclosure) (fs : list frame) : nat :=
  length (List.filter (fun f => is_enclosure e (payload f)) fs).

Definition tokens_of (e : enclosure) (rs : list (option string * token * option nat)) : nat :=
  length (List.filter (fun r => is_enclosure_token e r.1.2) rs).

Definition emitted (e : enclosure) (st : state) : nat := tokens_of e (rendered st).

Definition waiting (e : enclosure) (st : state) : nat := frames_of e (stack st).

(** Every symbol pushed is rendered when it is popped: the sum stays. *)
Definition total (e : enclosure) (st : state) : nat := emitted e st + waiting e st.

(** As many opening as closing symbols, rendered or waiting. *)
Definition balanced (st : state) : Prop :=
  total LEFT_BRACKET st = total RIGHT_BRACKET st
  /\ total LEFT_BRACE st = total RIGHT_BRACE st.

(** The symbols that open and close an object. *)
Definition opening (o : object) : enclosure :=
  match o with
  | Sequence _ => LEFT_BRACKET
  | _ => LEFT_BRACE
  end.

Definition closing (o : object) : enclosure :=
  match o with
  | Sequence _ => RIGHT_BRACKET
  | _ => RIGHT_BRACE
  end.

(** The token of a frame that the last [else] renders. *)
Definition token_of (p : node) : option token :=
  match p with
  | Val Null => Some TNull
  | Val (Bool b) => Some (TBool b)
  | Val (Number text) => Some (TNum text)
  | Val (Str s) => Some (TStr s)
  | Val Undef => Some TUndef
  | Val (BigInt text) => Some (TBig text)
  | Enc e => Some (TEnc e)
  | Val (Function _) | Val (Ref _) => None
  end.

(** The text of the history: what [output] holds. *)
Fixpoint rendered_text (rs : list (option string * token * option nat)) : string :=
  match rs with
  | [] => EmptyString
  | (key, t, index) :: rs' => fragment key t index +:+ rendered_text rs'
  end.

(** The token rendered for a reference that [seen] already has. *)
Definition circular_reference : token := TStr "[circular reference]".

(** The token rendered for a function. *)
Definition function_token (name : string) : token :=
  TStr ("[function " +:+ name_or_anonymous name +:+ "]").

(** The text of a date, an error or a pattern. *)
Definition string_form (o : object) : option string :=
  match o with
  | Date s | ErrorLike s | Pattern s => Some s
  | Sequence _ | Mapping _ => None
  end.

(** The empty form of a container with something to collapse. *)
Definition empty_form (o : object) : option enclosure :=
  match o with
  | Sequence _ => Some BRACKETS
  | Mapping (_ :: _) => Some BRACES
  | _ => None
  end.

(** ** Inputs of the repository's tests and examples *)

(** The answer of the host when the text of [size] is no numeric
    literal: [ToNumber] gives [NaN] and every comparison is false.  No
    input below ever compares a text that is one. *)
Definition not_numeric (s : string) (n : Z) : bool := false.

(** Expected outputs are written with an apostrophe where the text has
    a double quote. *)
Fixpoint dq (s : string) : string :=
  match s with
  | EmptyString => EmptyString
  | String a rest =>
      String (if Ascii.eqb a "'" then ascii_of_nat 34 else a) (dq rest)
  end.

(** The state in which [measureSize] is called with [size] at 2. *)
Definition size_is_two : state := State [] ∅ (CNum 2) false "" [].

(** [{ foo: { bar: { baz: 'qux' } } }], the root at location 1. *)
Definition nested_object : gmap loc object :=
  list_to_map
    [ (1, Mapping [("foo", Ref 2)]);
      (2, Mapping [("bar", Ref 3)]);
      (3, Mapping [("baz", Str "qux")]) ].

(** [const obj = { foo: {} }; obj.foo.bar = obj], the root at location 1. *)
Definition circular_object : gmap loc object :=
  list_to_map
    [ (1, Mapping [("foo", Ref 2)]);
      (2, Mapping [("bar", Ref 1)]) ].

(** [const x = []; [x, x]]: one array referred to twice, no cycle. *)
Definition shared_array : gmap loc object :=
  list_to_map
    [ (1, Sequence [Ref 2; Ref 2]);
      (2, Sequence []) ].

(** [const d = new Date('2022-01-01T00:00:00.000Z'); [d, d]]. *)
Definition shared_date : gmap loc object :=
  list_to_map
    [ (1, Sequence [Ref 2; Ref 2]);
      (2, Date "2022-01-01T00:00:00.000Z") ].

(** [[{}, 'aaaaaaaaaa']]. *)
Definition empty_then_long : gmap loc object :=
  list_to_map
    [ (1, Sequence [Ref 2; Str "aaaaaaaaaa"]);
      (2, Mapping []) ].

(** [[1, 2, 3]]. *)
Definition one_two_three : gmap loc object :=
  list_to_map [ (1, Sequence [Number "1"; Number "2"; Number "3"]) ].

(** [new Error('x')], whose [toString()] is ['Error: x']. *)
Definition an_error : gmap loc object :=
  list_to_map [ (1, ErrorLike "Error: x") ].

(** [{ a: {} }] and [{ b: {} }]. *)
Definition a_empty : gmap loc object :=
  list_to_map [ (1, Mapping [("a", Ref 2)]); (2, Mapping []) ].

Definition b_empty : gmap loc object :=
  list_to_map [ (1, Mapping [("b", Ref 2)]); (2, Mapping []) ].

(** The nodes of [oddNodes] in the examples, but for the reference to
    itself: a date, an error, two functions, a pattern and three
    strings. *)
Definition odd_nodes : gmap loc object :=
  list_to_map
    [ (1, Sequence [Ref 2; Ref 3; Function ""; Function "foo"; Ref 4;
                    Str ("line1" +:+ String (ascii_of_nat 10) "line2");
                    Str (String (ascii_of_nat 9) ""); Str "["]);
      (2, Date "2022-01-01T00:00:00.000Z");
      (3, ErrorLike ("Error: " +:+ quote +:+ "hello" +:+ quote));
      (4, Pattern "/[a-z]+/gi") ].

(** The calls the examples make. *)
Definition unlimited (h : gmap loc object) : closure :=
  Closure h Infinity Infinity not_numeric.

Definition depth_two : closure := Closure nested_object (Finite 2) Infinity not_numeric.

Definition size_five : closure := Closure empty_then_long Infinity (Finite 5) not_numeric.

Definition size_ten : closure := Closure shared_array Infinity (Finite 10) not_numeric.

(** The variables of a call after [n] rounds. *)
Definition after (c : closure) (n : nat) (object : value) : state :=
  default (initial object) (@steps c n (initial object)).

(** A key with a double quote, a backslash and a tab in it. *)
Definition odd_key : string :=
  "a" +:+ quote +:+ backslash +:+ String (ascii_of_nat 9) "b".

(** ** A JSON parser

    The reader that the round-trip property speaks of is no part of
    the repository.  It is modelled here after the JSON grammar
    (RFC 8259): white space, the literals [null], [true] and [false],
    numbers, strings with their escapes, arrays and objects.  A number
    is kept by its text, as numbers of the input are; a string is a
    string of 8-bit characters, so an escape above [ÿ] has no
    reading. *)

#[warnings="-register-all"]
Inductive json :=
| JNull
| JBool (b : bool)
| JNumber (text : string)
| JString (s : string)
| JArray (elems : list json)
| JObject (members : list (string * json)).

Definition code (a : ascii) : nat := nat_of_ascii a.

Definition is_space (a : ascii) : bool :=
  (code a =? 32)%nat || (code a =? 9)%nat || (code a =? 10)%nat || (code a =? 13)%nat.

Definition is_digit (a : ascii) : bool := (48 <=? code a)%nat && (code a <=? 57)%nat.

Fixpoint skip_space (s : string) : string :=
  match s with
  | String a rest => if is_space a then skip_space rest else s
  | EmptyString => s
  end.

(** [s] without the prefix [p], if it starts with it. *)
Fixpoint after_prefix (p s : string) : option string :=
  match p, s with
  | EmptyString, _ => Some s
  | String a p', String b s' => if Ascii.eqb a b then after_prefix p' s' else None
  | String _ _, EmptyString => None
  end.

(** *** Numbers *)

Fixpoint skip_digits (s : string) : string :=
  match s with
  | String a rest => if is_digit a then skip_digits rest else s
  | EmptyString => s
  end.

(** One digit at least, then all that follow. *)
Definition digits1 (s : string) : option string :=
  match s with
  | String a rest => if is_digit a then Some (skip_digits rest) else None
  | EmptyString => None
  end.

Definition minus_opt (s : string) : string :=
  match s with
  | String a rest => if (code a =? 45)%nat then rest else s
  | EmptyString => s
  end.

Definition sign_opt (s : string) : string :=
  match s with
  | String a rest => if (code a =? 43)%nat || (code a =? 45)%nat then rest else s
  | EmptyString => s
  end.

(** [int = zero / ( digit1-9 *DIGIT )]. *)
Definition int_part (s : string) : option string :=
  match s with
  | String a rest => if (code a =? 48)%nat then Some rest else digits1 s
  | EmptyString => None
  end.

(** [[ frac ]], with [frac = decimal-point 1*DIGIT]. *)
Definition frac_opt (s : string) : option string :=
  match s with
  | String a rest => if (code a =? 46)%nat then digits1 rest else Some s
  | EmptyString => Some s
  end.

(** [[ exp ]], with [exp = e [ minus / plus ] 1*DIGIT]. *)
Definition exp_opt (s : string) : option string :=
  match s with
  | String a rest =>
      if (code a =? 101)%nat || (code a =? 69)%nat then digits1 (sign_opt rest)
      else Some s
  | EmptyString => Some s
  end.

(** [number = [ minus ] int [ frac ] [ exp ]], the whole of [s]. *)
Definition json_number (s : string) : bool :=
  match int_part (minus_opt s) with
  | Some r1 =>
      match frac_opt r1 with
      | Some r2 =>
          match exp_opt r2 with
          | Some EmptyString => true
          | _ => false
          end
      | None => false
      end
  | None => false
  end.

(** The characters a number is made of. *)
Definition is_number_char (a : ascii) : bool :=
  is_digit a
  || (code a =? 43)%nat || (code a =? 45)%nat || (code a =? 46)%nat
  || (code a =? 101)%nat || (code a =? 69)%nat.

(** The longest prefix of number characters, and what follows it. *)
Fixpoint number_span (s : string) : string * string :=
  match s with
  | String a rest =>
      if is_number_char a
      then let '(n, r) := number_span rest in (String a n, r)
      else (EmptyString, s)
  | EmptyString => (EmptyString, EmptyString)
  end.

(** *** Strings *)

Definition unhex (a : ascii) : option nat :=
  let n := code a in
  if (48 <=? n)%nat && (n <=? 57)%nat then Some (n - 48)
  else if (97 <=? n)%nat && (n <=? 102)%nat then Some (n - 87)
  else if (65 <=? n)%nat && (n <=? 70)%nat then Some (n - 55)
  else None.

(** The character of [\uXXXX], for the four digits. *)
Definition unicode_escape (h1 h2 h3 h4 : ascii) : option ascii :=
  match unhex h1, unhex h2, unhex h3, unhex h4 with
  | Some 0, Some 0, Some d3, Some d4 => Some (ascii_of_nat (16 * d3 + d4))
  | _, _, _, _ => None
  end.

(** The character of a two-character escape, for its second character. *)
Definition simple_escape (a : ascii) : option ascii :=
  match code a with
  | 34 => Some a                    (* quotation mark *)
  | 92 => Some a                    (* reverse solidus *)
  | 47 => Some a                    (* solidus *)
  | 98 => Some (ascii_of_nat 8)     (* b *)
  | 102 => Some (ascii_of_nat 12)   (* f *)
  | 110 => Some (ascii_of_nat 10)   (* n *)
  | 114 => Some (ascii_of_nat 13)   (* r *)
  | 116 => Some (ascii_of_nat 9)    (* t *)
  | _ => None
  end.

(** The characters of a string after its opening quote, up to the
    closing one, and what follows. *)
Fixpoint parse_chars (s : string) : option (string * string) :=
  match s with
  | EmptyString => None
  | String a rest =>
      if (code a =? 34)%nat then Some (EmptyString, rest)
      else if (code a =? 92)%nat then
        match rest with
        | String e rest1 =>
            if (code e =? 117)%nat then
              match rest1 with
              | String h1 (String h2 (String h3 (String h4 rest2))) =>
                  match unicode_escape h1 h2 h3 h4, parse_chars rest2 with
                  | Some b, Some (str, r) => Some (String b str, r)
                  | _, _ => None
                  end
              | _ => None
              end
            else
              match simple_escape e, parse_chars rest1 with
              | Some b, Some (str, r) => Some (String b str, r)
              | _, _ => None
              end
        | EmptyString => None
        end
      else if (code a <? 32)%nat then None
      else
        match parse_chars rest with
        | Some (str, r) => Some (String a str, r)
        | None => None
        end
  end.

(** *** Values *)

(** What follows the character of code [n], if [s] starts with it. *)
Definition starts_with (n : nat) (s : string) : option string :=
  match s with
  | String a rest => if (code a =? n)%nat then Some rest else None
  | EmptyString => None
  end.

(** The elements that follow the first one, up to the closing bracket:
    [*( value-separator value ) end-array]. *)
Fixpoint parse_elements (value : string -> option (json * string)) (n : nat)
    (s : string) : option (list json * string) :=
  match n with
  | O => None
  | S n' =>
      match starts_with 93 (skip_space s), starts_with 44 (skip_space s) with
      | Some rest, _ => Some ([], rest)
      | None, Some rest =>
          match value rest with
          | Some (v, rest1) =>
              match parse_elements value n' rest1 with
              | Some (vs, rest2) => Some (v :: vs, rest2)
              | None => None
              end
          | None => None
          end
      | None, None => None
      end
  end.

(** [member = string name-separator value]. *)
Definition parse_member (value : string -> option (json * string)) (s : string)
    : option ((string * json) * string) :=
  match starts_with 34 (skip_space s) with
  | Some rest =>
      match parse_chars rest with
      | Some (k, rest1) =>
          match starts_with 58 (skip_space rest1) with
          | Some rest2 =>
              match value rest2 with
              | Some (v, rest3) => Some ((k, v), rest3)
              | None => None
              end
          | None => None
          end
      | None => None
      end
  | None => None
  end.

(** [*( value-separator member ) end-object]. *)
Fixpoint parse_members (value : string -> option (json * string)) (n : nat)
    (s : string) : option (list (string * json) * string) :=
  match n with
  | O => None
  | S n' =>
      match starts_with 125 (skip_space s), starts_with 44 (skip_space s) with
      | Some rest, _ => Some ([], rest)
      | None, Some rest =>
          match parse_member value rest with
          | Some (m, rest1) =>
              match parse_members value n' rest1 with
              | Some (ms, rest2) => Some (m :: ms, rest2)
              | None => None
              end
          | None => None
          end
      | None, None => None
      end
  end.

(** A literal or a number. *)
Definition parse_scalar (s : string) : option (json * string) :=
  match after_prefix "null" s, after_prefix "true" s, after_prefix "false" s with
  | Some rest, _, _ => Some (JNull, rest)
  | None, Some rest, _ => Some (JBool true, rest)
  | None, None, Some rest => Some (JBool false, rest)
  | None, None, None =>
      let '(n, rest) := number_span s in
      if json_number n then Some (JNumber n, rest) else None
  end.

(** A value and what follows it; [fuel] bounds the nesting. *)
Fixpoint parse_value (fuel : nat) (s : string) : option (json * string) :=
  match fuel with
  | O => None
  | S fuel' =>
      let s' := skip_space s in
      match starts_with 91 s', starts_with 123 s', starts_with 34 s' with
      | Some rest, _, _ =>                                  (* begin-array *)
          match starts_with 93 (skip_space rest) with
          | Some rest1 => Some (JArray [], rest1)
          | None =>
              match parse_value fuel' rest with
              | Some (v, rest1) =>
                  match parse_elements (parse_value fuel') (String.length rest1) rest1 with
                  | Some (vs, rest2) => Some (JArray (v :: vs), rest2)
                  | None => None
                  end
              | None => None
              end
          end
      | None, Some rest, _ =>                               (* begin-object *)
          match starts_with 125 (skip_space rest) with
          | Some rest1 => Some (JObject [], rest1)
          | None =>
              match parse_member (parse_value fuel') rest with
              | Some (m, rest1) =>
                  match parse_members (parse_value fuel') (String.length rest1) rest1 with
                  | Some (ms, rest2) => Some (JObject (m :: ms), rest2)
                  | None => None
                  end
              | None => None
              end
          end
      | None, None, Some rest =>                            (* quotation mark *)
          match parse_chars rest with
          | Some (str, rest1) => Some (JString str, rest1)
          | None => None
          end
      | None, None, None => parse_scalar s'
      end
  end.

(** A JSON text: one value, white space around it, nothing else. *)
Definition JSON_parse (s : string) : option json :=
  match parse_value (S (String.length s)) s with
  | Some (v, rest) =>
      match skip_space rest with
      | EmptyString => Some v
      | String _ _ => None
      end
  | None => None
  end.

(** ** Inputs without sharing, read as trees *)

(** The unfolding of an input in which no object is reached twice.  An
    object keeps its location; a date, an error and a pattern are kept
    by their text.  The leaves are those of the data model of the
    specification: an input that holds an [undefined] or a BigInt
    unfolds to no tree. *)
#[warnings="-register-all"]
Inductive tree :=
| ANull
| ABool (b : bool)
| ANumber (text : string)
| AString (s : string)
| AFunction (name : string)
| AText (l : loc) (s : string)
| ASequence (l : loc) (elems : list tree)
| AMapping (l : loc) (props : list (string * tree)).

(** [t] is what [v] unfolds to in the store. *)
#[warnings="-register-all"]
Inductive unfolds {c : closure} : value -> tree -> Prop :=
| unfolds_null : unfolds Null ANull
| unfolds_bool b : unfolds (Bool b) (ABool b)
| unfolds_number text : unfolds (Number text) (ANumber text)
| unfolds_string s : unfolds (Str s) (AString s)
| unfolds_function name : unfolds (Function name) (AFunction name)
| unfolds_text l o s :
    heap !! l = Some o -> string_form o = Some s -> unfolds (Ref l) (AText l s)
| unfolds_sequence l vs ts :
    heap !! l = Some (Sequence vs) ->
    Forall2 unfolds vs ts ->
    unfolds (Ref l) (ASequence l ts)
| unfolds_mapping l ps ts :
    heap !! l = Some (Mapping ps) ->
    Forall2 (fun p q => p.1 = q.1 /\ unfolds p.2 q.2) ps ts ->
    unfolds (Ref l) (AMapping l ts).

(** The locations of a tree, each as often as it occurs. *)
Fixpoint locs (t : tree) : list loc :=
  match t with
  | ANull | ABool _ | ANumber _ | AString _ | AFunction _ => []
  | AText l _ => [l]
  | ASequence l ts => l :: flat_map locs ts
  | AMapping l ps => l :: flat_map (fun p => locs p.2) ps
  end.

(** A key that [render] writes and that needs no escape. *)
Definition plain_key (k : string) : bool :=
  match k with
  | EmptyString => false
  | String _ _ => negb (test k)
  end.

(** The inputs that read back: every number is a JSON number, every
    mapping has a key, and every key is plain. *)
Fixpoint readable (t : tree) : bool :=
  match t with
  | ANumber text => json_number text
  | ASequence _ ts => forallb readable ts
  | AMapping _ ps =>
      match ps with [] => false | _ :: _ => true end
      && forallb (fun p => plain_key p.1 && readable p.2) ps
  | _ => true
  end.

(** The value that an input is expected to read back as: the input
    itself, but for the dates, errors, patterns and functions, which
    are the strings that stand for them. *)
Fixpoint json_of (t : tree) : json :=
  match t with
  | ANull => JNull
  | ABool b => JBool b
  | ANumber text => JNumber text
  | AString s => JString s
  | AFunction name => JString ("[function " +:+ name_or_anonymous name +:+ "]")
  | AText _ s => JString s
  | ASequence _ ts => JArray (map json_of ts)
  | AMapping _ ps => JObject (map (fun p => (p.1, json_of p.2)) ps)
  end.

(** The text of a tree: what the rounds of its frames prepend to [output]. *)
Definition comma (index : option nat) : string :=
  if truthy_index index then "," else "".

Definition key_prefix (key : option string) : string :=
  if truthy_key key then quote +:+ default "" key +:+ quote +:+ ":" else "".

Fixpoint value_text (t : tree) : string :=
  match t with
  | ANull => "null"
  | ABool true => "true"
  | ABool false => "false"
  | ANumber text => text
  | AString s => quote +:+ escape s +:+ quote
  | AFunction name => quote +:+ escape ("[function " +:+ name_or_anonymous name +:+ "]") +:+ quote
  | AText _ s => quote +:+ escape s +:+ quote
  | ASequence _ ts =>
      "[" +:+ (fix elements (ts : list tree) (i : nat) : string :=
                 match ts with
                 | [] => "]"
                 | t :: ts' =>
                     comma (Some i) +:+ value_text t +:+ elements ts' (S i)
                 end) ts 0
  | AMapping _ ps =>
      "{" +:+ (fix members (ps : list (string * tree)) (i : nat) : string :=
                 match ps with
                 | [] => "}"
                 | (k, t) :: ps' =>
                     comma (Some i) +:+ key_prefix (Some k) +:+ value_text t
                     +:+ members ps' (S i)
                 end) ps 0
  end.

Definition entry_text (key : option string) (t : tree) (index : option nat) : string :=
  comma index +:+ key_prefix key +:+ value_text t.

Fixpoint elements_text (ts : list tree) (i : nat) : string :=
  match ts with
  | [] => EmptyString
  | t :: ts' => entry_text None t (Some i) +:+ elements_text ts' (S i)
  end.

Fixpoint members_text (ps : list (string * tree)) (i : nat) : string :=
  match ps with
  | [] => EmptyString
  | (k, t) :: ps' => entry_text (Some k) t (Some i) +:+ members_text ps' (S i)
  end.

(** The frames that the two loops push when no limit is reached. *)
Fixpoint element_frames (vs : list value) (i d : nat) : list frame :=
  match vs with
  | [] => []
  | v :: vs' => Frame None (Val v) (Some i) (S d) :: element_frames vs' (S i) d
  end.

Fixpoint member_frames (ps : list (string * value)) (i d : nat) : list frame :=
  match ps with
  | [] => []
  | (k, v) :: ps' => Frame (Some k) (Val v) (Some i) (S d) :: member_frames ps' (S i) d
  end.

(** Nesting of a tree. *)
Fixpoint height (t : tree) : nat :=
  match t with
  | ASequence _ ts => S (list_max (map height ts))
  | AMapping _ ps => S (list_max (map (fun p => height p.2) ps))
  | _ => 0
  end.

(** The loop gets from [st] to [st'] in some rounds. *)
Definition runs_to {c : closure} (st st' : state) : Prop :=
  exists n, forall fuel, run (n + fuel) st = run fuel st'.

(** The rounds from [st] to [st'] took the stack down to [rest],
    put [text] in front of [output], added the locations [ls] to
    [seen], and reached no limit. *)
Definition prepends {c : closure} (text : string) (ls : list loc) (rest : list frame)
    (st st' : state) : Prop :=
  runs_to st st'
  /\ stack st' = rest
  /\ output st' = text +:+ output st
  /\ (forall x, x ∈ seen st' <-> x ∈ ls \/ x ∈ seen st)
  /\ sizeLimitReached st' = false.

(** The frame of [v] is on top, none of the locations of [t] is in
    [seen], and no limit is reached. *)
Definition ready {c : closure} (key : option string) (v : value) (index : option nat)
    (d : nat) (rest : list frame) (t : tree) (st : state) : Prop :=
  stack st = Frame key (Val v) index d :: rest
  /\ (forall x, x ∈ locs t -> x ∉ seen st)
  /\ sizeLimitReached st = false.

(** The rounds of the frame of [t] prepend the text of [t]. *)
Definition entry_ok {c : closure} (t : tree) : Prop :=
  forall key v index d rest st,
    unfolds v t ->
    readable t = true ->
    NoDup (locs t) ->
    ready key v index d rest t st ->
    exists st', prepends (entry_text key t index) (locs t) rest st st'.

(** Every character of [s] passes [P]. *)
Fixpoint all_chars (P : ascii -> bool) (s : string) : bool :=
  match s with
  | EmptyString => true
  | String a rest => P a && all_chars P rest
  end.

(** What follows a value in the text of a tree: nothing, a comma, or a
    closing bracket or brace. *)
Definition delimited (rest : string) : bool :=
  match rest with
  | EmptyString => true
  | String a _ => (code a =? 44)%nat || (code a =? 93)%nat || (code a =? 125)%nat
  end.

(** [s] is [r] after some number characters. *)
Definition number_prefix (s r : string) : Prop :=
  exists p, s = p +:+ r /\ all_chars is_number_char p = true.

(** The first character of a number. *)
Definition number_start (a : ascii) : bool := is_digit a || (code a =? 45)%nat.

(** How the text of a readable tree starts. *)
Definition value_start (a : ascii) : bool :=
  negb (is_space a) && negb (code a =? 93)%nat && negb (code a =? 125)%nat.

(** The text of [t] is read back as [t] by every reader with fuel for
    its nesting. *)
Definition reads_back (t : tree) : Prop :=
  readable t = true ->
  forall fuel rest,
    height t < fuel ->
    delimited rest = true ->
    parse_value fuel (value_text t +:+ rest) = Some (json_of t, rest).

(** One unfolding of [parse_chars], its recursive calls handed to [k]. *)
Definition chars_step (k : string -> option (string * string)) (s : string)
    : option (string * string) :=
  match s with
  | EmptyString => None
  | String a rest =>
      if (code a =? 34)%nat then Some (EmptyString, rest)
      else if (code a =? 92)%nat then
        match rest with
        | String e rest1 =>
            if (code e =? 117)%nat then
              match rest1 with
              | String h1 (String h2 (String h3 (String h4 rest2))) =>
                  match unicode_escape h1 h2 h3 h4, k rest2 with
                  | Some b, Some (str, r) => Some (String b str, r)
                  | _, _ => None
                  end
              | _ => None
              end
            else
              match simple_escape e, k rest1 with
              | Some b, Some (str, r) => Some (String b str, r)
              | _, _ => None
              end
        | EmptyString => None
        end
      else if (code a <? 32)%nat then None
      else
        match k rest with
        | Some (str, r) => Some (String a str, r)
        | None => None
        end
  end.

(** The trees of two of the inputs. *)
Definition a_empty_tree : tree := AMapping 1 [("a", AMapping 2 [])].

Definition odd_nodes_tree : tree :=
  ASequence 1
    [ AText 2 "2022-01-01T00:00:00.000Z";
      AText 3 ("Error: " +:+ quote +:+ "hello" +:+ quote);
      AFunction ""; AFunction "foo";
      AText 4 "/[a-z]+/gi";
      AString ("line1" +:+ String (ascii_of_nat 10) "line2");
      AString (String (ascii_of_nat 9) ""); AString "[" ].

(** ** Vocabulary of the further properties of [escape] *)

(** No control character (0x00 to 0x1F). *)
Definition printable (a : ascii) : bool := (32 <=? code a)%nat.

(** Read as the inside of a string literal, [s] has a double quote
    that no backslash precedes, or ends on a lone backslash: the
    literal would close before its end. *)
Fixpoint closes_early (s : string) : bool :=
  match s with
  | EmptyString => false
  | String a rest =>
      if (code a =? 34)%nat then true
      else if (code a =? 92)%nat then
        match rest with
        | EmptyString => true
        | String _ rest' => closes_early rest'
        end
      else closes_early rest
  end.

(** What [escaped_character] gives, by cases: the character itself,
    which is then no quote, backslash or control character, or a
    backslash, one more character, and letters and digits. *)
Definition plain (a : ascii) : bool :=
  printable a && negb (code a =? 34)%nat && negb (code a =? 92)%nat.

Definition escape_shape (a : ascii) : bool :=
  match escaped_character a with
  | String b EmptyString => Ascii.eqb a b && plain a
  | String b (String e u) =>
      (code b =? 92)%nat && printable e && all_chars plain u
      && (String.length u <=? 4)%nat
  | EmptyString => false
  end.
(** ** Vocabulary of the further properties of the stack *)

(** The frames of all the children of an object, first child first. *)
Definition child_frames (o : object) (d : nat) : list frame :=
  match o with
  | Sequence elems => element_frames elems 0 d
  | Mapping props => member_frames props 0 d
  | _ => []
  end.

(** [d <= maxDepth], with a negative [maxDepth] read as 0. *)
Definition within {c : closure} (d : nat) : Prop :=
  match maxDepth with
  | Infinity => True
  | Finite m => (Z.of_nat d <= Z.max m 0)%Z
  end.
(** ** Vocabulary of the callback mode *)

(** How a run of [callbackStack] that leaves [st] ends. *)
Definition effect_of (st : state) : effect :=
  match stack st with
  | [] => Callback (output st)
  | _ :: _ => SetTimeout
  end.
(** ** The rendering of an input without sharing *)

(** What the rounds of the frame [[key, v, index, _]] put in front of
    [output] when [v] unfolds to [t] and no limit is reached: the
    comma of an index above 0, the key of a mapping entry, and the
    text of the value; nothing at all for a mapping with no key. *)
Fixpoint rendering (key : option string) (t : tree) (index : option nat) : string :=
  match t with
  | ASequence _ ts =>
      comma index +:+ key_prefix key +:+ "["
      +:+ (fix elements (ts : list tree) (i : nat) : string :=
             match ts with
             | [] => "]"
             | t :: ts' => rendering None t (Some i) +:+ elements ts' (S i)
             end) ts 0
  | AMapping _ ps =>
      let inner :=
        (fix members (ps : list (string * tree)) (i : nat) : string :=
           match ps with
           | [] => "}"
           | (k, t) :: ps' => rendering (Some k) t (Some i) +:+ members ps' (S i)
           end) ps 0 in
      match ps with
      | [] => ""
      | _ :: _ => comma index +:+ key_prefix key +:+ "{" +:+ inner
      end
  | _ => comma index +:+ key_prefix key +:+ value_text t
  end.

Fixpoint elements_rendering (ts : list tree) (i : nat) : string :=
  match ts with
  | [] => ""
  | t :: ts' => rendering None t (Some i) +:+ elements_rendering ts' (S i)
  end.

Fixpoint members_rendering (ps : list (string * tree)) (i : nat) : string :=
  match ps with
  | [] => ""
  | (k, t) :: ps' => rendering (Some k) t (Some i) +:+ members_rendering ps' (S i)
  end.

(** [maxDepth] is no less than the depth [d] of a frame plus the
    nesting of its tree: no container of the tree is at a depth that
    is not below [maxDepth]. *)
Definition fits {c : closure} (d : nat) (t : tree) : Prop :=
  match maxDepth with
  | Infinity => True
  | Finite m => (Z.of_nat (d + height t) <= m)%Z
  end.

(** The rounds of the frame of [t] prepend the rendering of [t]. *)
Definition entry_renders {c : closure} (t : tree) : Prop :=
  forall key v index d rest st,
    unfolds v t ->
    NoDup (locs t) ->
    fits d t ->
    ready key v index d rest t st ->
    exists st', prepends (rendering key t index) (locs t) rest st st'.
(** ** Vocabulary of the inputs without sharing, under any limits *)

(** The values of the input that wait on the stack, top first. *)
Definition vals (fs : list frame) : list value :=
  omap (fun f => match payload f with Val v => Some v | Enc _ => None end) fs.

(** The values on the stack unfold to the trees [ts], which share no
    location with each other, and [seen] holds none of their locations. *)
Definition apart {c : closure} (st : state) (ts : list tree) : Prop :=
  Forall2 unfolds (vals (stack st)) ts
  /\ NoDup (flat_map locs ts)
  /\ (forall x, x ∈ flat_map locs ts -> x ∉ seen st).

(** The trees right below the root of a tree. *)
Definition subtrees (t : tree) : list tree :=
  match t with
  | ASequence _ ts => ts
  | AMapping _ ps => map snd ps
  | _ => []
  end.

(** A property of trees that the subtrees inherit. *)
Definition hereditary (P : tree -> Prop) : Prop :=
  forall t, P t -> Forall P (subtrees t).
(** ** The first version of [smartSerialize] (src/index.js)

    The version before the symbols, [escape], the branches for
    functions, errors and patterns, and the callback.  Brackets and
    braces go on the stack as the strings ['['], [']'], ['[]'], ['{'],
    ['}'] and ['{}'], the test for an object comes before the test of
    [seen], and [size] is only ever added numbers to. *)

Module Legacy.

(** [str += value] for a [value] that is a function or an object:
    the string that the host converts it to. *)
Class conversion := Conversion {
  ToString : value -> string
}.

(** A stack entry [[key, value, index, depth]]: the second slot holds
    a value, and a bracket is the string of it. *)
Record frame := Frame {
  key : option string;
  payload : value;
  index : option nat;
  depth : nat
}.

Record state := State {
  stack : list frame;
  seen : gset loc;
  size : Z;
  sizeLimitReached : bool;
  output : string
}.

(** What a round ends with: the next state, or the [TypeError] of
    [seen.add(null)]. *)
Inductive completion (A : Type) :=
| Normal (a : A)
| TypeError.

Arguments Normal {A} a.
Arguments TypeError {A}.

Definition isBraceOrBracket (v : value) : bool :=
  match v with
  | Str s =>
      String.eqb s "[" || String.eqb s "]" || String.eqb s "[]"
      || String.eqb s "{" || String.eqb s "}" || String.eqb s "{}"
  | _ => false
  end.

Section smartSerialize.

Context {c : closure} {h : conversion}.

(** The text that [render] appends to [str] for its [value]. *)
Definition value_string (v : value) : string :=
  if isBraceOrBracket v then
    match v with Str s => s | _ => "" end
  else
    match v with
    | Str s => quote +:+ s +:+ quote
    | Null => "null"
    | Bool true => "true"
    | Bool false => "false"
    | Number text | BigInt text => text
    | Undef => "undefined"
    | Function _ | Ref _ => ToString v
    end.

Definition render (key : option string) (v : value) (index : option nat)
    (st : state) : state :=
  State (stack st) (seen st) (size st) (sizeLimitReached st)
        ((if truthy_index index then "," else "")
         +:+ (if truthy_key key then quote +:+ default "" key +:+ quote +:+ ":" else "")
         +:+ value_string v +:+ output st).

(** [size += n], then [if (size > maxSize) sizeLimitReached = true]. *)
Definition addSize (strLength : Z) (st : state) : state :=
  let n := (size st + strLength)%Z in
  State (stack st) (seen st) n
        (sizeLimitReached st
         || match maxSize with Infinity => false | Finite m => (m <? n)%Z end)
        (output st).

Definition measureSize (v : value) (st : state) : state :=
  addSize
    match v with
    | Null | Bool true => 4
    | Bool false => 5
    | Str s => Z.of_nat (String.length s) + 2
    | Number text => Z.of_nat (String.length text)
    | Ref l => match heap !! l with Some (Date _) => 26 | _ => 0 end
    | Function _ | Undef | BigInt _ => 0
    end st.

Definition push (f : frame) (st : state) : state :=
  State (f :: stack st) (seen st) (size st) (sizeLimitReached st) (output st).

Fixpoint push_elements (elems : list value) (i depth : nat) (st : state) : state :=
  match elems with
  | [] => st
  | v :: elems' =>
      let st1 := measureSize v st in
      let st2 :=
        if sizeLimitReached st1 then st1
        else push (Frame None v (Some i) (S depth)) st1 in
      push_elements elems' (S i) depth st2
  end.

Fixpoint push_props (props : list (string * value)) (i depth : nat) (st : state)
    : state :=
  match props with
  | [] => st
  | (k, v) :: props' =>
      let st1 := addSize (Z.of_nat (String.length k) + 3) st in
      let st2 := if sizeLimitReached st1 then st1 else measureSize v st1 in
      let st3 :=
        if sizeLimitReached st2 then st2
        else push (Frame (Some k) v (Some i) (S depth)) st2 in
      push_props props' (S i) depth st3
  end.

(** [Object.keys(value)] with the values: an error and a pattern have
    no enumerable key of their own. *)
Definition keys (o : object) : list (string * value) :=
  match o with
  | Mapping props => props
  | _ => []
  end.

(** The branch [typeof value === 'object' && !seen.has(value)], after
    [seen.add(value)]. *)
Definition visit (key : option string) (o : object) (index : option nat)
    (depth : nat) (st : state) : state :=
  match o with
  | Sequence elems =>
      let st := addSize 2 st in
      if negb (sizeLimitReached st) && below depth then
        push (Frame None (Str "]") None depth)
          (push_elements elems 0 depth (push (Frame key (Str "[") index depth) st))
      else render key (Str "[]") index st
  | Date iso => render key (Str iso) index st
  | Mapping _ | ErrorLike _ | Pattern _ =>
      match keys o with
      | [] => st
      | props =>
          let st := addSize 2 st in
          if negb (sizeLimitReached st) && below depth then
            push (Frame None (Str "}") None depth)
              (push_props props 0 depth (push (Frame key (Str "{") index depth) st))
          else render key (Str "{}") index st
      end
  end.

(** The body of the [while] loop.  [None]: there is no frame to pop,
    or the frame holds a reference to no object of the store. *)
Definition iteration (st : state) : option (completion state) :=
  match stack st with
  | [] => None
  | Frame key v index depth :: rest =>
      let st := State rest (seen st) (size st) (sizeLimitReached st) (output st) in
      let otherwise :=
        let st := render key v index st in
        Some (Normal (if truthy_index index then addSize 1 st else st)) in
      match v with
      | Null => Some TypeError
      | Ref l =>
          if decide (l ∈ seen st) then otherwise
          else
            match heap !! l with
            | Some o =>
                Some (Normal (visit key o index depth
                                (State (stack st) ({[l]} ∪ seen st) (size st)
                                       (sizeLimitReached st) (output st))))
            | None => None
            end
      | _ => otherwise
      end
  end.

Definition initial (object : value) : state :=
  State [Frame None object None 0] ∅ 0 false "".

(** [while (stack.length)], at most [fuel] rounds. *)
Fixpoint run (fuel : nat) (st : state) : option (completion state) :=
  match stack st with
  | [] => Some (Normal st)
  | _ :: _ =>
      match fuel with
      | O => None
      | S fuel' =>
          match iteration st with
          | Some (Normal st') => run fuel' st'
          | other => other
          end
      end
  end.

(** The bound on the rounds, as for the later version. *)
Definition rounds (st : state) : nat := length (stack st) + pending (seen st).

(** The call: the loop, then [return output]. *)
Definition smartSerialize (object : value) : option (completion string) :=
  match run (rounds (initial object)) (initial object) with
  | Some (Normal st) => Some (Normal (output st))
  | Some TypeError => Some TypeError
  | None => None
  end.

End smartSerialize.

End Legacy.

(** *** The two versions side by side *)

(** The frame of the first version for a frame of the later one: a
    symbol is the string of it. *)
Definition legacy_frame (f : frame) : Legacy.frame :=
  Legacy.Frame (key f)
    match payload f with
    | Val v => v
    | Enc e => Str (getEnclosure e)
    end
    (index f) (depth f).

(** The two calls are at the same point. *)
Definition sim (st : state) (lst : Legacy.state) : Prop :=
  Legacy.stack lst = map legacy_frame (stack st)
  /\ Legacy.seen lst = seen st
  /\ size st = CNum (Legacy.size lst)
  /\ Legacy.sizeLimitReached lst = sizeLimitReached st
  /\ Legacy.output lst = output st.

(** No function: a value that the two [measureSize] charge alike. *)
Definition no_function (v : value) : Prop := forall name, v <> Function name.

(** A string that needs no escape and is none of the six strings of
    brackets and braces. *)
Definition plain_string (s : string) : bool :=
  negb (test s) && negb (Legacy.isBraceOrBracket (Str s)).

(** The inputs that both versions take the same way, but for [null]:
    booleans, numbers, plain strings, dates with a plain text,
    sequences and mappings of them. *)
Fixpoint common (t : tree) : bool :=
  match t with
  | AFunction _ => false
  | ANull | ABool _ | ANumber _ => true
  | AString s | AText _ s => plain_string s
  | ASequence _ ts => forallb common ts
  | AMapping _ ps => forallb (fun p => common p.2) ps
  end.

(** There is a [null] in the input. *)
Fixpoint has_null (t : tree) : bool :=
  match t with
  | ANull => true
  | ASequence _ ts => existsb has_null ts
  | AMapping _ ps => existsb (fun p => has_null p.2) ps
  | _ => false
  end.

(** A common input with no [null]. *)
Definition common_without_null (t : tree) : Prop :=
  common t = true /\ has_null t = false.
(** ** [createObject] of the examples (src/examples.js)

    The example builds its input with [createObject(breadth, depth)]:
    an object with [breadth] keys, each a fresh UUID, holding a UUID
    when [depth] is at most 1 and an object made the same way with
    [depth - 1] otherwise.  The host is a store of objects with the
    next free location, and the strings that [crypto.randomUUID()]
    hands out, one after the other. *)

Record world := World {
  objects : gmap loc object;
  next : loc;
  drawn : nat
}.

Section createObject.

(** The [n]-th string that [crypto.randomUUID()] returns. *)
Variable UUIDs : nat -> string.

Definition randomUUID (w : world) : string * world :=
  (UUIDs (drawn w), World (objects w) (next w) (S (drawn w))).

(** [const obj = {}]. *)
Definition new_object (w : world) : loc * world :=
  (next w, World (<[next w := Mapping []]> (objects w)) (S (next w)) (drawn w)).

(** [obj[key] = v] on the keys of [obj], for a [key] that is no array
    index (a UUID is none): the value of a key that is there is
    replaced where it is, and a new key goes last. *)
Fixpoint assign (key : string) (v : value) (props : list (string * value))
    : list (string * value) :=
  match props with
  | [] => [(key, v)]
  | (k, w) :: props' =>
      if String.eqb k key then (k, v) :: props' else (k, w) :: assign key v props'
  end.

Definition set_property (obj : loc) (key : string) (v : value) (w : world) : world :=
  match objects w !! obj with
  | Some (Mapping props) =>
      World (<[obj := Mapping (assign key v props)]> (objects w)) (next w) (drawn w)
  | _ => w
  end.

(** The [for] loop with [n] rounds to go; [make] is the right-hand
    side of the assignment in its body. *)
Fixpoint fill (make : world -> value * world) (obj : loc) (n : nat) (w : world) : world :=
  match n with
  | O => w
  | S n' =>
      let (key, w) := randomUUID w in
      let (v, w) := make w in
      fill make obj n' (set_property obj key v w)
  end.

Fixpoint createObject (breadth depth : nat) (w : world) : loc * world :=
  let (obj, w) := new_object w in
  (obj,
   fill (fun w =>
           match depth with
           | S (S _ as depth') =>
               let (child, w) := createObject breadth depth' w in (Ref child, w)
           | _ =>
               let (uuid, w) := randomUUID w in (Str uuid, w)
           end)
        obj breadth w).

End createObject.

(** The store before the example runs. *)
Definition empty_world : world := World ∅ 0 0.

(** The length of the serialization of [createObject(breadth, depth)],
    for UUIDs of 36 characters: two braces, for every key its 36
    characters with two quotes and a colon, the commas between the
    entries, and the values, each a quoted UUID or an object of the
    same kind.  An object with no key is serialized as nothing. *)
Fixpoint serialized_length (breadth : N) (depth : nat) : N :=
  match breadth with
  | 0%N => 0
  | _ =>
      2 + breadth * 39 + (breadth - 1)
      + breadth * match depth with
                  | S (S _ as depth') => serialized_length breadth depth'
                  | _ => 38
                  end
  end%N.

(** A UUID as the properties need it: 36 characters, none of them to
    escape. *)
Definition is_uuid (s : string) : Prop := String.length s = 36 /\ test s = false.

(** The tree of [createObject(breadth, depth)]: [breadth] entries with
    UUIDs for keys, holding UUIDs when [depth] is at most 1 and such
    trees for [depth - 1] otherwise. *)
Fixpoint created (breadth depth : nat) (t : tree) : Prop :=
  match t with
  | AMapping _ ps =>
      length ps = breadth
      /\ Forall (fun p =>
                  is_uuid p.1
                  /\ match depth with
                     | S (S _ as depth') => created breadth depth' p.2
                     | _ => exists u, p.2 = AString u /\ is_uuid u
                     end) ps
  | _ => False
  end.

(** Nothing is stored at or above the next free location, and every
    reference in the store leads to an object of the store. *)
Definition tidy (w : world) : Prop :=
  (forall l, next w <= l -> objects w !! l = None)
  /\ map_Forall (fun _ o => @closed_object (unlimited (objects w)) o = true) (objects w).

(** [w'] is [w] after some allocations and draws that left the
    objects of [w] as they were, but for [obj]. *)
Definition later (obj : option loc) (w w' : world) : Prop :=
  next w <= next w'
  /\ drawn w <= drawn w'
  /\ (forall x, x < next w -> Some x <> obj -> objects w' !! x = objects w !! x).

(** [v] unfolds to [t] in the store of [w], and the locations of [t],
    each once, are those from [from] up to the next free one. *)
Definition holds (w : world) (from : loc) (v : value) (t : tree) : Prop :=
  @unfolds (unlimited (objects w)) v t
  /\ NoDup (locs t)
  /\ (forall x, x ∈ locs t -> from <= x < next w).

(** The entries of an object under construction: their keys are
    UUIDs drawn before, their values unfold to the trees. *)
Definition entries (UUIDs : nat -> string) (w : world) (obj : loc)
    (ps : list (string * value)) (qs : list (string * tree)) : Prop :=
  Forall2 (fun p q => p.1 = q.1 /\ @unfolds (unlimited (objects w)) p.2 q.2) ps qs
  /\ Forall (fun q => exists j, j < drawn w /\ q.1 = UUIDs j) qs
  /\ NoDup (flat_map (fun q => locs q.2) qs)
  /\ (forall x, x ∈ flat_map (fun q => locs q.2) qs -> obj < x < next w).

(** [make] draws and allocates and returns a value that unfolds to a
    tree with [Q], as long as no more than [K] UUIDs are drawn. *)
Definition makes (Q : tree -> Prop) (K : nat) (make : world -> value * world) : Prop :=
  forall w,
    tidy w ->
    drawn (make w).2 <= K ->
    tidy (make w).2
    /\ later None w (make w).2
    /\ exists t, holds (make w).2 (next w) (make w).1 t /\ Q t.
(** ** More inputs of the tests, and their trees *)

(** [{ foo: 1, bar: 'baz' }] and [{ foo: null }], the root at location 1. *)
Definition simple_object : gmap loc object :=
  list_to_map [ (1, Mapping [("foo", Number "1"); ("bar", Str "baz")]) ].

Definition null_value : gmap loc object :=
  list_to_map [ (1, Mapping [("foo", Null)]) ].

Definition simple_object_tree : tree :=
  AMapping 1 [("foo", ANumber "1"); ("bar", AString "baz")].

Definition null_value_tree : tree := AMapping 1 [("foo", ANull)].

Definition nested_object_tree : tree :=
  AMapping 1 [("foo", AMapping 2 [("bar", AMapping 3 [("baz", AString "qux")])])].

(** A host that converts every function and object to [[object Object]]. *)
Definition object_Object : Legacy.conversion :=
  Legacy.Conversion (fun _ => "[object Object]").

(** No error and no pattern in a store, as a test. *)
Definition is_error (o : object) : bool :=
  match o with
  | ErrorLike _ | Pattern _ => true
  | _ => false
  end.

Definition no_errors (h : gmap loc object) : bool :=
  bool_decide (map_Forall (fun _ o => is_error o = false) h).

(** Ten strings of the form of a UUID, all different, and the same
    form after them. *)
Definition example_UUIDs (n : nat) : string :=
  String (ascii_of_nat (48 + n)) "0000000-0000-4000-8000-000000000000".

(** The input of the test with both limits:
    [['0123456789', { a: 1, b: 2 }, { n: { n: { n: { n: { n: { n: { n: {} } } } } } } },
      12.345, { longLongLongKey: 0 }]], the root at location 1. *)
Definition both_limits_input : gmap loc object :=
  list_to_map
    [ (1, Sequence [Str "0123456789"; Ref 2; Ref 3; Number "12.345"; Ref 11]);
      (2, Mapping [("a", Number "1"); ("b", Number "2")]);
      (3, Mapping [("n", Ref 4)]);
      (4, Mapping [("n", Ref 5)]);
      (5, Mapping [("n", Ref 6)]);
      (6, Mapping [("n", Ref 7)]);
      (7, Mapping [("n", Ref 8)]);
      (8, Mapping [("n", Ref 9)]);
      (9, Mapping [("n", Ref 10)]);
      (10, Mapping []);
      (11, Mapping [("longLongLongKey", Number "0")]) ].

Definition both_limits : closure :=
  Closure both_limits_input (Finite 4) (Finite 70) not_numeric.

(** The input of the test of the special characters. *)
Definition special_characters : gmap loc object :=
  list_to_map
    [ (1, Mapping [ ("tab", Str (String (ascii_of_nat 9) ""));
                    ("lineFeed", Str (String (ascii_of_nat 10) ""));
                    ("doubleQuote", Str quote);
                    ("singleQuote", Str "'");
                    ("backslash", Str backslash) ]) ].
(** ** The round that sets the flag *)






(** ** Values that the data model does not have *)

(** [[undefined, 1]], which is also what the loop reads of the sparse
    array [[, 1]]; [{ a: undefined }]; and [[10n]]. *)
Definition undefined_one : gmap loc object :=
  list_to_map [ (1, Sequence [Undef; Number "1"]) ].

Definition a_undefined : gmap loc object :=
  list_to_map [ (1, Mapping [("a", Undef)]) ].

Definition big_ten : gmap loc object :=
  list_to_map [ (1, Sequence [BigInt "10"]) ].

(** * Properties *)

(** ** The escaper *)

Lemma replacer_escaped_character (a : ascii) :
  (if ESCAPE_REGEXP a then replacer a else String a EmptyString) = escaped_character a.
Proof.
  destruct a as [[] [] [] [] [] [] [] []]; vm_compute; reflexivity.
Qed.

Lemma replaceAll_escaped (value : string) : replaceAll value = escaped value.
Proof.
  induction value as [|a rest IH]; [reflexivity|].
  cbn [replaceAll escaped]. rewrite replacer_escaped_character, IH. reflexivity.
Qed.

Lemma replaceAll_no_match (value : string) :
  test value = false -> replaceAll value = value.
Proof.
  induction value as [|a rest IH]; [reflexivity|].
  cbn [test replaceAll]. intros H. apply orb_false_iff in H as [Ha Hrest].
  rewrite Ha, IH by assumption. reflexivity.
Qed.

Lemma escape_escaped (value : string) : escape value = escaped value.
Proof.
  unfold escape. destruct (test value) eqn:Ht.
  - apply replaceAll_escaped.
  - rewrite <- replaceAll_escaped. symmetry. apply replaceAll_no_match, Ht.
Qed.

(** C9.  For every string, [escape] replaces backspace, tab, line feed,
    form feed, carriage return, double-quote and backslash by their
    two-character escape sequences, every other control character
    (0x00 to 0x1F) by [\u00XX] with two hexadecimal digits, and leaves
    every other character unchanged; the single quote is one of those. *)
Theorem escape_by_character (value : string) :
  escape value = escaped value
  /\ escaped_character "'"%char = "'".
Proof. split; [apply escape_escaped|reflexivity]. Qed.

(** ** Strings *)

Lemma append_cons (a : ascii) (s t : string) : String a s +:+ t = String a (s +:+ t).
Proof. reflexivity. Qed.

Lemma append_empty_l (s : string) : "" +:+ s = s.
Proof. reflexivity. Qed.

Lemma append_empty_r (s : string) : s +:+ "" = s.
Proof. induction s as [|a s IH]; [reflexivity|]. rewrite append_cons, IH. reflexivity. Qed.

Lemma append_assoc (s t u : string) : (s +:+ t) +:+ u = s +:+ (t +:+ u).
Proof. induction s as [|a s IH]; [reflexivity|]. rewrite !append_cons, IH. reflexivity. Qed.

Lemma length_append (s t : string) :
  String.length (s +:+ t) = String.length s + String.length t.
Proof. induction s as [|a s IH]; [reflexivity|]. rewrite append_cons. simpl. rewrite IH. reflexivity. Qed.

(** ** Trees *)

Lemma tree_induction (P : tree -> Prop) :
  P ANull ->
  (forall b, P (ABool b)) ->
  (forall text, P (ANumber text)) ->
  (forall s, P (AString s)) ->
  (forall name, P (AFunction name)) ->
  (forall l s, P (AText l s)) ->
  (forall l ts, Forall P ts -> P (ASequence l ts)) ->
  (forall l ps, Forall (fun p => P p.2) ps -> P (AMapping l ps)) ->
  forall t, P t.
Proof.
  intros H1 H2 H3 H4 H5 H6 H7 H8.
  fix IH 1. intros [|b|text|s|name|l s|l ts|l ps].
  - exact H1.
  - apply H2.
  - apply H3.
  - apply H4.
  - apply H5.
  - apply H6.
  - apply H7. induction ts as [|t ts IHts]; constructor; [apply IH|exact IHts].
  - apply H8. induction ps as [|[k t] ps IHps]; constructor; [apply IH|exact IHps].
Qed.

Lemma value_text_sequence (l : loc) (ts : list tree) :
  value_text (ASequence l ts) = "[" +:+ elements_text ts 0 +:+ "]".
Proof.
  cbn [value_text]. f_equal. generalize 0.
  induction ts as [|t ts IH]; intros i; [reflexivity|].
  rewrite IH. cbn [elements_text]. unfold entry_text.
  rewrite !append_assoc. reflexivity.
Qed.

Lemma value_text_mapping (l : loc) (ps : list (string * tree)) :
  value_text (AMapping l ps) = "{" +:+ members_text ps 0 +:+ "}".
Proof.
  cbn [value_text]. f_equal. generalize 0.
  induction ps as [|[k t] ps IH]; intros i; [reflexivity|].
  rewrite IH. cbn [members_text]. unfold entry_text.
  rewrite !append_assoc. reflexivity.
Qed.

(** ** The stack machine *)

Section machine.

Context {c : closure}.

Lemma grows_refl (c1 : counter) : grows c1 c1.
Proof. destruct c1; simpl; eauto with lia. Qed.

Lemma grows_trans (c1 c2 c3 : counter) : grows c1 c2 -> grows c2 c3 -> grows c1 c3.
Proof.
  destruct c3 as [b|]; simpl; [|trivial].
  intros H12 (a2 & -> & Hle). simpl in H12. destruct H12 as (a1 & -> & Hle1).
  exists a1. split; [reflexivity|lia].
Qed.

Lemma grows_add_number (c1 : counter) (n : Z) : (0 <= n)%Z -> grows c1 (add_number c1 n).
Proof. destruct c1; simpl; [|trivial]. intros. eexists. split; [reflexivity|lia]. Qed.

Lemma grows_add_string (c1 : counter) (s : string) : grows c1 (add_string c1 s).
Proof. destruct c1; exact I. Qed.

Lemma pushed_refl (st : state) : pushed [] st st.
Proof. unfold pushed. split_and!; auto using grows_refl. Qed.

Lemma pushed_trans (fs1 fs2 : list frame) (st1 st2 st3 : state) :
  pushed fs1 st1 st2 -> pushed fs2 st2 st3 -> pushed (fs2 ++ fs1) st1 st3.
Proof.
  intros (Hs1 & Hn1 & Ho1 & Hr1 & Hf1 & Hg1) (Hs2 & Hn2 & Ho2 & Hr2 & Hf2 & Hg2).
  unfold pushed. rewrite Hs2, Hs1, Hn2, Hn1, Ho2, Ho1, Hr2, Hr1.
  split_and!; eauto using grows_trans.
  - rewrite app_assoc. reflexivity.
  - intros H. destruct (Hf1 H) as [H2 ->]. destruct (Hf2 H2) as [H3 ->]. auto.
Qed.

Lemma set_size_pushed (c1 : counter) (st : state) :
  grows (size st) c1 -> pushed [] st (set_size c1 st).
Proof.
  intros Hg. unfold pushed, set_size. simpl. split_and!; auto.
  intros ->. split; reflexivity.
Qed.

Lemma addSize_pushed (n : Z) (st : state) : (0 <= n)%Z -> pushed [] st (addSize n st).
Proof. intros Hn. apply set_size_pushed, grows_add_number, Hn. Qed.

Lemma measureSize_pushed (v : value) (st : state) : pushed [] st (measureSize v st).
Proof.
  apply set_size_pushed.
  destruct v as [|[]|text|s|name|l| |big].
  7: destruct (heap !! l) as [[]|].
  all: first [ apply grows_refl | apply grows_add_string | apply grows_add_number; lia ].
Qed.

Lemma push_pushed (f : frame) (st : state) :
  sizeLimitReached st = false -> pushed [f] st (push f st).
Proof.
  intros Hflag. unfold pushed. simpl. split_and!; auto using grows_refl.
  congruence.
Qed.

Lemma is_child_of_cons (v : value) (values : list value) (f : frame) :
  is_child_of values f -> is_child_of (v :: values) f.
Proof. intros (w & Hw & Hf). exists w. split; [right|]; assumption. Qed.

Lemma push_elements_pushed (elems : list value) (i d : nat) (st : state) :
  exists fs,
    pushed fs st (push_elements elems i d st)
    /\ length fs <= length elems
    /\ Forall (is_child_of elems) fs.
Proof.
  revert i st. induction elems as [|v elems IH]; intros i st.
  - exists []. simpl. auto using pushed_refl.
  - cbn [push_elements].
    pose proof (measureSize_pushed v st) as Hm.
    destruct (sizeLimitReached (measureSize v st)) eqn:Hflag.
    + destruct (IH (S i) (measureSize v st)) as (fs & Hp & Hlen & Hall).
      exists (fs ++ []). split_and!.
      * eapply pushed_trans; eassumption.
      * rewrite app_nil_r. simpl. lia.
      * rewrite app_nil_r. eapply Forall_impl; [exact Hall|].
        apply is_child_of_cons.
    + destruct (IH (S i) (push (Frame None (Val v) (Some i) (S d)) (measureSize v st)))
        as (fs & Hp & Hlen & Hall).
      exists (fs ++ [Frame None (Val v) (Some i) (S d)] ++ []). split_and!.
      * eapply pushed_trans; [|exact Hp].
        eapply pushed_trans; [exact Hm|]. apply push_pushed, Hflag.
      * rewrite !length_app. simpl. lia.
      * rewrite app_nil_r. apply Forall_app. split.
        -- eapply Forall_impl; [exact Hall|]. apply is_child_of_cons.
        -- constructor; [|constructor]. exists v. split; [left|]; reflexivity.
Qed.

Lemma push_props_pushed (props : list (string * value)) (i d : nat) (st : state) :
  exists fs,
    pushed fs st (push_props props i d st)
    /\ length fs <= length props
    /\ Forall (is_child_of (map snd props)) fs.
Proof.
  revert i st. induction props as [|[k v] props IH]; intros i st.
  - exists []. simpl. auto using pushed_refl.
  - cbn [push_props].
    assert (pushed [] st (addSize (Z.of_nat (String.length k) + 3) st)) as Ha
      by (apply addSize_pushed; lia).
    set (st1 := addSize (Z.of_nat (String.length k) + 3) st) in *.
    assert (pushed [] st (if sizeLimitReached st1 then st1 else measureSize v st1)) as Hm.
    { destruct (sizeLimitReached st1); [exact Ha|].
      apply (pushed_trans [] [] st st1); [exact Ha|apply measureSize_pushed]. }
    set (st2 := if sizeLimitReached st1 then st1 else measureSize v st1) in *.
    destruct (sizeLimitReached st2) eqn:Hflag.
    + destruct (IH (S i) st2) as (fs & Hp & Hlen & Hall).
      exists (fs ++ []). split_and!.
      * eapply pushed_trans; eassumption.
      * rewrite app_nil_r. simpl. lia.
      * rewrite app_nil_r. eapply Forall_impl; [exact Hall|].
        apply is_child_of_cons.
    + destruct (IH (S i) (push (Frame (Some k) (Val v) (Some i) (S d)) st2))
        as (fs & Hp & Hlen & Hall).
      exists (fs ++ [Frame (Some k) (Val v) (Some i) (S d)] ++ []). split_and!.
      * eapply pushed_trans; [|exact Hp].
        eapply pushed_trans; [exact Hm|]. apply push_pushed, Hflag.
      * rewrite !length_app. simpl. lia.
      * rewrite app_nil_r. apply Forall_app. split.
        -- eapply Forall_impl; [exact Hall|]. apply is_child_of_cons.
        -- constructor; [|constructor]. exists v. split; [left|]; reflexivity.
Qed.

(** *** The bound on the rounds *)

Lemma pending_in_insert (m : gmap loc object) (s : gset loc) (i : loc) (x : object) :
  m !! i = None ->
  pending_in (<[i:=x]> m) s
  = (if decide (i ∈ s) then pending_in m s else weight x + pending_in m s).
Proof.
  intros Hi. unfold pending_in.
  rewrite map_fold_insert_L; [reflexivity| |exact Hi].
  intros j1 j2 z1 z2 y _ _ _. repeat case_decide; lia.
Qed.

Lemma pending_in_fresh (m : gmap loc object) (s : gset loc) (l : loc) :
  m !! l = None -> pending_in m ({[l]} ∪ s) = pending_in m s.
Proof.
  induction m as [|i x m Hi IH] using map_ind; [reflexivity|].
  intros Hl. apply lookup_insert_None in Hl as [Hl Hne].
  rewrite !pending_in_insert, IH by assumption.
  destruct (decide (i ∈ {[l]} ∪ s)) as [Hin|Hin], (decide (i ∈ s)) as [Hs|Hs];
    try reflexivity.
  - apply elem_of_union in Hin as [Hin|Hin]; [|contradiction].
    apply elem_of_singleton in Hin. contradiction.
  - exfalso. apply Hin, elem_of_union. right. exact Hs.
Qed.

Lemma pending_in_add (m : gmap loc object) (s : gset loc) (l : loc) (o : object) :
  m !! l = Some o -> l ∉ s ->
  pending_in m ({[l]} ∪ s) + weight o = pending_in m s.
Proof.
  induction m as [|i x m Hi IH] using map_ind; [rewrite lookup_empty; discriminate|].
  intros Hl Hs. rewrite !pending_in_insert by assumption.
  destruct (decide (i = l)) as [->|Hne].
  - rewrite lookup_insert_eq in Hl. injection Hl as ->.
    rewrite pending_in_fresh by assumption.
    destruct (decide (l ∈ {[l]} ∪ s)) as [Hin|Hin], (decide (l ∈ s)) as [Hs'|Hs'];
      try lia; try contradiction.
    exfalso. apply Hin, elem_of_union. left. apply elem_of_singleton. reflexivity.
  - rewrite lookup_insert_ne in Hl by assumption. specialize (IH Hl Hs).
    destruct (decide (i ∈ {[l]} ∪ s)) as [Hin|Hin], (decide (i ∈ s)) as [Hs'|Hs'];
      try lia.
    + apply elem_of_union in Hin as [Hin|Hin]; [|contradiction].
      apply elem_of_singleton in Hin. contradiction.
    + exfalso. apply Hin, elem_of_union. right. exact Hs'.
Qed.

Lemma closed_object_children (o : object) :
  closed_object o = true -> Forall (fun v => closed_value v = true) (children o).
Proof.
  destruct o as [elems|props| | |]; simpl; try constructor.
  - intros H. apply Forall_forall. intros v Hv.
    rewrite forallb_forall in H. apply H. apply list_elem_of_In, Hv.
  - intros H. apply Forall_forall. intros v Hv.
    apply list_elem_of_In, in_map_iff in Hv as ([k w] & <- & Hin).
    rewrite forallb_forall in H. apply (H _ Hin).
Qed.

Lemma closed_children (values : list value) (fs : list frame) :
  Forall (fun v => closed_value v = true) values ->
  Forall (is_child_of values) fs ->
  forallb closed_frame fs = true.
Proof.
  intros Hvalues Hfs. apply forallb_forall. intros f Hf.
  rewrite Forall_forall in Hfs. destruct (Hfs f) as (v & Hv & Hp).
  { apply list_elem_of_In, Hf. }
  unfold closed_frame. rewrite Hp.
  rewrite Forall_forall in Hvalues. apply Hvalues, list_elem_of_In, Hv.
Qed.

(** What [visit] leaves on the stack, and that it touches [seen] not at all. *)
Lemma visit_stack (key : option string) (o : object) (index : option nat)
    (d : nat) (st : state) :
  exists fs,
    stack (visit key o index d st) = fs ++ stack st
    /\ seen (visit key o index d st) = seen st
    /\ length fs <= weight o
    /\ (closed_object o = true -> forallb closed_frame fs = true).
Proof.
  destruct o as [elems|[|p props]|iso|s|s]; unfold visit.
  3: remember (p :: props) as ps eqn:Hps.
  all: try destruct (negb _ && below d).
  all: try (exists []; simpl; split_and!; auto with lia; fail).
  - destruct (push_elements_pushed elems 0 d
                (push (Frame key (Enc LEFT_BRACKET) index d) (addSize 2 st)))
      as (fs & (Hs & Hn & _) & Hlen & Hall).
    exists (Frame None (Enc RIGHT_BRACKET) None d :: fs
            ++ [Frame key (Enc LEFT_BRACKET) index d]).
    simpl. rewrite Hs, Hn. simpl. rewrite <- app_assoc. split_and!; try reflexivity.
    + rewrite length_app. simpl. lia.
    + intros Hc. rewrite forallb_app. simpl.
      rewrite (closed_children elems fs); [reflexivity| |exact Hall].
      apply (closed_object_children (Sequence elems)), Hc.
  - destruct (push_props_pushed ps 0 d
                (push (Frame key (Enc LEFT_BRACE) index d) (addSize 2 st)))
      as (fs & (Hs & Hn & _) & Hlen & Hall).
    exists (Frame None (Enc RIGHT_BRACE) None d :: fs
            ++ [Frame key (Enc LEFT_BRACE) index d]).
    simpl. rewrite Hs, Hn. simpl. rewrite <- app_assoc. split_and!; try reflexivity.
    + rewrite length_app. simpl in *. lia.
    + intros Hc. rewrite forallb_app. simpl.
      rewrite (closed_children (map snd ps) fs); [reflexivity| |exact Hall].
      apply (closed_object_children (Mapping ps)), Hc.
Qed.

Lemma leaf_stack (key : option string) (t : token) (index : option nat) (st : state) :
  stack (leaf key t index st) = stack st /\ seen (leaf key t index st) = seen st.
Proof. unfold leaf. destruct (truthy_index index); split; reflexivity. Qed.

(** A round on a closed stack succeeds, keeps the stack closed and
    lowers the bound. *)
Lemma iterateStack_progress (st : state) :
  closed_heap ->
  forallb closed_frame (stack st) = true ->
  stack st <> [] ->
  exists st',
    iterateStack st = Some st'
    /\ forallb closed_frame (stack st') = true
    /\ rounds st' < rounds st.
Proof.
  intros Hheap Hstack Hne. unfold iterateStack, rounds.
  destruct (stack st) as [|[key p index d] rest] eqn:Hst; [congruence|].
  simpl in Hstack. apply andb_true_iff in Hstack as [Hf Hrest].
  destruct p as [[|b|text|s|name|l| |big]|e].
  6: {
    unfold closed_frame in Hf. simpl in Hf.
    destruct (heap !! l) as [o|] eqn:Hl; [|discriminate].
    case_decide as Hseen.
    - eexists. split; [reflexivity|].
      destruct (sizeLimitReached _); simpl; split; auto with lia.
    - eexists. split; [reflexivity|].
      destruct (visit_stack key o index d (seen_add l (set_stack rest st)))
        as (fs & Hs & Hn & Hlen & Hc).
      rewrite Hs, Hn. simpl in *. split.
      + rewrite forallb_app, Hrest, Hc; [reflexivity|]. apply (Hheap l o Hl).
      + rewrite length_app. unfold pending.
        pose proof (pending_in_add heap (seen st) l o Hl Hseen). lia. }
  all: eexists; split; [reflexivity|].
  all: try (destruct (leaf_stack key TNull index (set_stack rest st)) as [-> ->]).
  all: try (destruct (leaf_stack key (TBool b) index (set_stack rest st)) as [-> ->]).
  all: try (destruct (leaf_stack key (TNum text) index (set_stack rest st)) as [-> ->]).
  all: try (destruct (leaf_stack key (TStr s) index (set_stack rest st)) as [-> ->]).
  all: try (destruct (leaf_stack key TUndef index (set_stack rest st)) as [-> ->]).
  all: try (destruct (leaf_stack key (TBig big) index (set_stack rest st)) as [-> ->]).
  all: try (destruct (leaf_stack key (TEnc e) index (set_stack rest st)) as [-> ->]).
  all: simpl; split; auto with lia.
Qed.

(** *** One round, case by case *)

Lemma pushed_around (fs : list frame) (st st1 st2 : state) (f1 f2 : frame) :
  pushed [] st st1 ->
  sizeLimitReached st1 = false ->
  pushed fs (push f1 st1) st2 ->
  pushed (f2 :: fs ++ [f1]) st (push f2 st2).
Proof.
  intros (Hs1 & Hn1 & Ho1 & Hr1 & Hf1 & Hg1) Hflag (Hs2 & Hn2 & Ho2 & Hr2 & Hf2 & Hg2).
  unfold pushed. simpl in *.
  rewrite Hs2, Hn2, Ho2, Hr2, Hs1, Hn1, Ho1, Hr1, <- app_assoc.
  split_and!; eauto using grows_trans.
  intros Hst. destruct (Hf1 Hst) as [Hc _]. congruence.
Qed.

(** [visit] either pushes the two symbols of the object around the
    frames of its children, or renders one token that is no opening or
    closing symbol, or does nothing. *)
Lemma visit_cases (key : option string) (o : object) (index : option nat)
    (d : nat) (st : state) :
  (exists fs,
      pushed (Frame None (Enc (closing o)) None d :: fs
                ++ [Frame key (Enc (opening o)) index d])
             st (visit key o index d st)
      /\ Forall (is_child_of (children o)) fs
      /\ length fs <= length (children o)
      /\ sizeLimitReached (addSize 2 st) = false
      /\ below d = true
      /\ ((exists elems, o = Sequence elems) \/ (exists p props, o = Mapping (p :: props))))
  \/ (exists t st1,
        pushed [] st st1
        /\ visit key o index d st = render key t index st1
        /\ match o with
           | Sequence _ => t = TEnc BRACKETS /\ st1 = addSize 2 st
           | Mapping _ => t = TEnc BRACES /\ st1 = addSize 2 st
           | Date s | ErrorLike s | Pattern s => t = TStr s /\ st1 = st
           end
        /\ match o with
           | Sequence _ | Mapping (_ :: _) =>
               sizeLimitReached (addSize 2 st) = true \/ below d = false
           | Mapping [] => False
           | _ => True
           end)
  \/ (o = Mapping [] /\ visit key o index d st = st).
Proof.
  assert (pushed [] st (addSize 2 st)) as Hcharge by (apply addSize_pushed; lia).
  destruct o as [elems|[|p props]|iso|s|s]; unfold visit.
  3: remember (p :: props) as ps eqn:Hps.
  all: try destruct (negb _ && below d) eqn:Hexpand.
  all: try apply andb_true_iff in Hexpand as [Hflag Hbelow].
  all: try apply negb_true_iff in Hflag.
  - left.
    destruct (push_elements_pushed elems 0 d
                (push (Frame key (Enc LEFT_BRACKET) index d) (addSize 2 st)))
      as (fs & Hp & Hlen & Hall).
    exists fs. split_and!; eauto. eapply pushed_around; eassumption.
  - right; left. exists (TEnc BRACKETS), (addSize 2 st). split_and!; auto.
    apply andb_false_iff in Hexpand as [H|H]; [left; apply negb_false_iff, H|right; exact H].
  - right; right. auto.
  - left.
    destruct (push_props_pushed ps 0 d
                (push (Frame key (Enc LEFT_BRACE) index d) (addSize 2 st)))
      as (fs & Hp & Hlen & Hall).
    exists fs. simpl. rewrite length_map. split_and!; eauto.
    + eapply pushed_around; eassumption.
    + subst ps. eauto.
  - right; left. exists (TEnc BRACES), (addSize 2 st). subst ps. split_and!; auto.
    apply andb_false_iff in Hexpand as [H|H]; [left; apply negb_false_iff, H|right; exact H].
  - right; left. exists (TStr iso), st. split_and!; auto using pushed_refl.
  - right; left. exists (TStr s), st. split_and!; auto using pushed_refl.
  - right; left. exists (TStr s), st. split_and!; auto using pushed_refl.
Qed.

(** The definition of [iterateStack], read backwards. *)
Lemma iterateStack_cases (st st' : state) :
  iterateStack st = Some st' ->
  exists key p index d rest,
    stack st = Frame key p index d :: rest
    /\ ((exists t, token_of p = Some t /\ st' = leaf key t index (set_stack rest st))
        \/ (exists name,
              p = Val (Function name)
              /\ st' = render key (function_token name) index (set_stack rest st))
        \/ (exists l,
              p = Val (Ref l) /\ (l ∈ seen st)
              /\ st' = (let st1 := addSize 20 (set_stack rest st) in
                        if sizeLimitReached st1 then st1
                        else render key circular_reference index st1))
        \/ (exists l o,
              p = Val (Ref l) /\ (l ∉ seen st) /\ (heap !! l = Some o)
              /\ st' = visit key o index d (seen_add l (set_stack rest st)))).
Proof.
  unfold iterateStack. intros H.
  destruct (stack st) as [|[key p index d] rest]; [discriminate|].
  exists key, p, index, d, rest. split; [reflexivity|].
  destruct p as [[|b|text|s|name|l| |big]|e].
  6: { simpl in H. case_decide as Hseen.
       - injection H as <-. right; right; left.
         exists l. split_and!; [reflexivity|exact Hseen|reflexivity].
       - destruct (heap !! l) as [o|] eqn:Hl; [|discriminate].
         injection H as <-. right; right; right.
         exists l, o. split_and!; [reflexivity|exact Hseen|exact Hl|reflexivity]. }
  5: { injection H as <-. right; left. eauto. }
  all: injection H as <-; left; eauto.
Qed.

Lemma token_of_enclosure (e : enclosure) (p : node) (t : token) :
  token_of p = Some t -> is_enclosure_token e t = is_enclosure e p.
Proof. destruct p as [[]|]; simpl; intros H; try discriminate; injection H as <-; reflexivity. Qed.

Lemma frames_of_app (e : enclosure) (fs1 fs2 : list frame) :
  frames_of e (fs1 ++ fs2) = frames_of e fs1 + frames_of e fs2.
Proof. unfold frames_of. rewrite List.filter_app, length_app. reflexivity. Qed.

Lemma frames_of_cons (e : enclosure) (f : frame) (fs : list frame) :
  frames_of e (f :: fs) = frames_of e [f] + frames_of e fs.
Proof. apply (frames_of_app e [f] fs). Qed.

Lemma tokens_of_app (e : enclosure) (rs1 rs2 : list (option string * token * option nat)) :
  tokens_of e (rs1 ++ rs2) = tokens_of e rs1 + tokens_of e rs2.
Proof. unfold tokens_of. rewrite List.filter_app, length_app. reflexivity. Qed.

Lemma frames_of_children (e : enclosure) (values : list value) (fs : list frame) :
  Forall (is_child_of values) fs -> frames_of e fs = 0.
Proof.
  induction 1 as [|f fs (v & _ & Hp) _ IH]; [reflexivity|].
  unfold frames_of in *. simpl. rewrite Hp. simpl. exact IH.
Qed.

(** What one round does to every variable of the call: it pops one
    frame and pushes [fs], it renders [rs], [seen] and the flag only
    grow, and the opening and closing symbols stay in step. *)
Lemma iterateStack_effect (st st' : state) :
  iterateStack st = Some st' ->
  exists f rest fs rs,
    stack st = f :: rest
    /\ stack st' = fs ++ rest
    /\ rendered st' = rs ++ rendered st
    /\ output st' = rendered_text rs +:+ output st
    /\ seen st ⊆ seen st'
    /\ (sizeLimitReached st = true -> sizeLimitReached st' = true /\ fs = [])
    /\ grows (size st) (size st')
    /\ tokens_of LEFT_BRACKET rs + frames_of LEFT_BRACKET fs + frames_of RIGHT_BRACKET [f]
       = tokens_of RIGHT_BRACKET rs + frames_of RIGHT_BRACKET fs + frames_of LEFT_BRACKET [f]
    /\ tokens_of LEFT_BRACE rs + frames_of LEFT_BRACE fs + frames_of RIGHT_BRACE [f]
       = tokens_of RIGHT_BRACE rs + frames_of RIGHT_BRACE fs + frames_of LEFT_BRACE [f].
Proof.
  intros H. apply iterateStack_cases in H
    as (key & p & index & d & rest & Hst & [(t & Ht & ->)|[(name & -> & ->)|[(l & -> & Hl & ->)|(l & o & -> & Hl & Ho & ->)]]]).
  - exists (Frame key p index d), rest, [], [(key, t, index)].
    assert (pushed [] (render key t index (set_stack rest st)) (leaf key t index (set_stack rest st)))
      as (Hs & Hn & Ho & Hr & Hf & Hg).
    { unfold leaf. destruct (truthy_index index); [apply addSize_pushed; lia|apply pushed_refl]. }
    rewrite Hs, Hn, Ho, Hr. simpl in *. rewrite append_empty_r.
    split_and!; auto.
    all: unfold tokens_of, frames_of; simpl.
    all: rewrite !(token_of_enclosure _ p t Ht).
    all: repeat destruct (is_enclosure _ p); simpl; lia.
  - exists (Frame key (Val (Function name)) index d), rest, [],
      [(key, function_token name, index)].
    simpl. rewrite append_empty_r. split_and!; auto using grows_refl.
  - pose proof (addSize_pushed 20 (set_stack rest st) ltac:(lia))
      as (Hs & Hn & Ho & Hr & Hf & Hg).
    cbv zeta. destruct (sizeLimitReached (addSize 20 (set_stack rest st))) eqn:Hflag.
    + exists (Frame key (Val (Ref l)) index d), rest, [], [].
      rewrite Hs, Hn, Ho, Hr. split_and!; auto.
    + exists (Frame key (Val (Ref l)) index d), rest, [], [(key, circular_reference, index)].
      cbn [stack seen output rendered size sizeLimitReached render].
      rewrite Hs, Hn, Ho, Hr. simpl. rewrite append_empty_r. split_and!; auto.
      intros Hc. destruct (Hf Hc). congruence.
  - destruct (visit_cases key o index d (seen_add l (set_stack rest st)))
      as [(fs & (Hs & Hn & Ho' & Hr & Hf & Hg) & Hall & _ & _ & _ & Hkind)
         |[(t & st1 & (Hs & Hn & Ho' & Hr & Hf & Hg) & -> & Ht & _)|[-> ->]]].
    + exists (Frame key (Val (Ref l)) index d), rest,
        (Frame None (Enc (closing o)) None d :: fs ++ [Frame key (Enc (opening o)) index d]), [].
      rewrite Hs, Hn, Ho', Hr. simpl in *. split_and!; auto.
      * apply union_subseteq_r.
      * rewrite !(frames_of_cons _ _ (fs ++ _)), !frames_of_app,
          !(frames_of_children _ _ _ Hall).
        destruct Hkind as [[elems ->]|(q & props & ->)]; reflexivity.
      * rewrite !(frames_of_cons _ _ (fs ++ _)), !frames_of_app,
          !(frames_of_children _ _ _ Hall).
        destruct Hkind as [[elems ->]|(q & props & ->)]; reflexivity.
    + exists (Frame key (Val (Ref l)) index d), rest, [], [(key, t, index)].
      cbn [stack seen output rendered size sizeLimitReached render].
      rewrite Hs, Hn, Ho', Hr. simpl. rewrite append_empty_r. split_and!; auto.
      * apply union_subseteq_r.
      * destruct o; destruct Ht as [-> _]; reflexivity.
      * destruct o; destruct Ht as [-> _]; reflexivity.
    + exists (Frame key (Val (Ref l)) index d), rest, [], [].
      simpl. split_and!; auto using grows_refl. apply union_subseteq_r.
Qed.

End machine.

(** ** The loop *)

Section loop.

Context {c : closure}.

(** A property that every round keeps holds when the loop ends. *)
Lemma run_invariant (P : state -> Prop) :
  (forall st st', P st -> iterateStack st = Some st' -> P st') ->
  forall fuel st st', P st -> run fuel st = Some st' -> P st' /\ stack st' = [].
Proof.
  intros Hstep. induction fuel as [|fuel IH]; intros st st' HP Hrun; simpl in Hrun.
  - destruct (stack st) eqn:Hs; [|discriminate]. injection Hrun as <-. auto.
  - destruct (stack st) eqn:Hs; [injection Hrun as <-; auto|].
    destruct (iterateStack st) as [st1|] eqn:Hit; [|discriminate].
    eapply IH; [|exact Hrun]. eapply Hstep; eassumption.
Qed.

(** On a closed input the loop ends within the bound. *)
Lemma run_terminates (fuel : nat) (st : state) :
  closed_heap ->
  forallb closed_frame (stack st) = true ->
  rounds st <= fuel ->
  exists st', run fuel st = Some st'.
Proof.
  intros Hheap. revert st. induction fuel as [|fuel IH]; intros st Hclosed Hfuel.
  - unfold rounds in Hfuel. destruct (stack st) eqn:Hs; simpl in Hfuel; [|lia].
    exists st. simpl. rewrite Hs. reflexivity.
  - destruct (stack st) eqn:Hs.
    { exists st. simpl. rewrite Hs. reflexivity. }
    rewrite <- Hs in Hclosed.
    destruct (iterateStack_progress st Hheap Hclosed) as (st1 & Hit & Hc1 & Hlt).
    { rewrite Hs. discriminate. }
    simpl. rewrite Hs, Hit. apply IH; [exact Hc1|lia].
Qed.

(** More fuel does not change the result. *)
Lemma run_more_fuel (fuel fuel' : nat) (st st' : state) :
  run fuel st = Some st' -> fuel <= fuel' -> run fuel' st = Some st'.
Proof.
  revert fuel' st. induction fuel as [|fuel IH]; intros fuel' st Hrun Hle.
  - simpl in Hrun. destruct (stack st) eqn:Hs; [|discriminate].
    destruct fuel'; simpl; rewrite Hs; exact Hrun.
  - destruct fuel' as [|fuel']; [lia|]. simpl in *.
    destruct (stack st); [exact Hrun|].
    destruct (iterateStack st); [|discriminate].
    apply IH; [exact Hrun|lia].
Qed.

Lemma closed_initial (object : value) :
  closed object = true ->
  closed_heap /\ forallb closed_frame (stack (initial object)) = true.
Proof.
  unfold closed. intros H. apply andb_true_iff in H as [Hv Hh].
  apply bool_decide_eq_true in Hh. split; [exact Hh|].
  simpl. unfold closed_frame. simpl. rewrite Hv. reflexivity.
Qed.

(** The call returns for every closed input. *)
Lemma smartSerialize_returns (object : value) :
  closed object = true ->
  exists st,
    run (rounds (initial object)) (initial object) = Some st
    /\ stack st = []
    /\ smartSerialize object = Some (Text (output st)).
Proof.
  intros Hclosed. apply closed_initial in Hclosed as [Hheap Hstack].
  destruct (run_terminates (rounds (initial object)) (initial object) Hheap Hstack)
    as [st Hrun]; [lia|].
  exists st. split; [exact Hrun|]. split.
  - apply (run_invariant (fun _ => True) (fun _ _ _ _ => I) _ _ _ I Hrun).
  - unfold smartSerialize. rewrite Hrun. reflexivity.
Qed.

(** [output] is the text of what was rendered. *)
Lemma output_rendered_step (st st' : state) :
  output st = rendered_text (rendered st) ->
  iterateStack st = Some st' ->
  output st' = rendered_text (rendered st').
Proof.
  intros Hout Hstep.
  apply iterateStack_effect in Hstep as (f & rest & fs & rs & _ & _ & Hr & Ho & _).
  rewrite Ho, Hr, Hout. clear. induction rs as [|[[k t] i] rs IH]; [reflexivity|].
  simpl. rewrite append_assoc, IH. reflexivity.
Qed.

Lemma total_step (e1 e2 : enclosure) (st st' : state) (f : frame)
    (rest fs : list frame) (rs : list (option string * token * option nat)) :
  stack st = f :: rest ->
  stack st' = fs ++ rest ->
  rendered st' = rs ++ rendered st ->
  tokens_of e1 rs + frames_of e1 fs + frames_of e2 [f]
  = tokens_of e2 rs + frames_of e2 fs + frames_of e1 [f] ->
  total e1 st = total e2 st ->
  total e1 st' = total e2 st'.
Proof.
  unfold total, emitted, waiting. intros -> -> -> Hd Ht.
  rewrite !tokens_of_app, !frames_of_app.
  rewrite (frames_of_cons e1), (frames_of_cons e2) in Ht. lia.
Qed.

Lemma balanced_step (st st' : state) :
  balanced st -> iterateStack st = Some st' -> balanced st'.
Proof.
  intros [Hb1 Hb2] Hstep.
  apply iterateStack_effect in Hstep
    as (f & rest & fs & rs & Hs & Hs' & Hr & _ & _ & _ & _ & Hd1 & Hd2).
  split; eapply total_step; eassumption.
Qed.

(** C1.  For every input value and every [maxDepth] and [maxSize], the
    call returns a string in which the array-open symbol was rendered
    as often as the array-close symbol, and the object-open symbol as
    often as the object-close symbol; the string is the concatenation
    of what was rendered. *)
Theorem smartSerialize_balanced (object : value) :
  closed object = true ->
  exists st,
    run (rounds (initial object)) (initial object) = Some st
    /\ smartSerialize object = Some (Text (output st))
    /\ output st = rendered_text (rendered st)
    /\ emitted LEFT_BRACKET st = emitted RIGHT_BRACKET st
    /\ emitted LEFT_BRACE st = emitted RIGHT_BRACE st.
Proof.
  intros Hclosed.
  destruct (smartSerialize_returns object Hclosed) as (st & Hrun & Hstack & Hret).
  exists st. split; [exact Hrun|]. split; [exact Hret|].
  assert (output (initial object) = rendered_text (rendered (initial object))
          /\ balanced (initial object)) as Hinit
    by (repeat split).
  destruct (run_invariant
              (fun s => output s = rendered_text (rendered s) /\ balanced s)
              (fun s s' Hs Hit =>
                 conj (output_rendered_step s s' (proj1 Hs) Hit)
                      (balanced_step s s' (proj2 Hs) Hit))
              _ _ _ Hinit Hrun)
    as [[Hout [Hb1 Hb2]] _].
  unfold total, waiting in Hb1, Hb2. rewrite Hstack in Hb1, Hb2.
  unfold frames_of in Hb1, Hb2. simpl in Hb1, Hb2.
  split; [exact Hout|]. split; lia.
Qed.

End loop.

(** ** Rounds in a row *)

Section rounds.

Context {c : closure}.

Lemma steps_invariant (R : state -> state -> Prop) :
  (forall st, R st st) ->
  (forall st1 st2 st3, R st1 st2 -> iterateStack st2 = Some st3 -> R st1 st3) ->
  forall n st st', steps n st = Some st' -> R st st'.
Proof.
  intros Hrefl Hstep n st st' Hn.
  assert (forall m s0 s s', R s0 s -> steps m s = Some s' -> R s0 s') as Hgen.
  { induction m as [|m IH]; intros s0 s s' H0 Hm; simpl in Hm.
    - injection Hm as <-. exact H0.
    - destruct (iterateStack s) as [s1|] eqn:Hit; [|discriminate].
      eapply IH; [|exact Hm]. eapply Hstep; eassumption. }
  eapply Hgen; [apply Hrefl|exact Hn].
Qed.


Lemma steps_sticky (n : nat) (st st' : state) :
  steps n st = Some st' -> sizeLimitReached st = true -> sizeLimitReached st' = true.
Proof.
  apply (steps_invariant (fun s s' => sizeLimitReached s = true -> sizeLimitReached s' = true)).
  - auto.
  - intros s1 s2 s3 H12 Hit H1.
    apply iterateStack_effect in Hit as (f & rest & fs & rs & _ & _ & _ & _ & _ & Hf & _).
    apply Hf, H12, H1.
Qed.

Lemma steps_seen (n : nat) (st st' : state) :
  steps n st = Some st' -> seen st ⊆ seen st'.
Proof.
  apply (steps_invariant (fun s s' => seen s ⊆ seen s')).
  - reflexivity.
  - intros s1 s2 s3 H12 Hit.
    apply iterateStack_effect in Hit as (f & rest & fs & rs & _ & _ & _ & _ & Hs & _).
    etransitivity; eassumption.
Qed.


End rounds.

(** ** Single rounds *)

Section claims.

Context {c : closure}.

Lemma iterateStack_unseen (st : state) (key : option string) (l : loc)
    (index : option nat) (d : nat) (rest : list frame) (o : object) :
  stack st = Frame key (Val (Ref l)) index d :: rest ->
  l ∉ seen st ->
  heap !! l = Some o ->
  iterateStack st = Some (visit key o index d (seen_add l (set_stack rest st))).
Proof.
  intros Hs Hl Ho. unfold iterateStack. rewrite Hs. simpl.
  rewrite decide_False by exact Hl. rewrite Ho. reflexivity.
Qed.

Lemma iterateStack_seen (st : state) (key : option string) (l : loc)
    (index : option nat) (d : nat) (rest : list frame) :
  stack st = Frame key (Val (Ref l)) index d :: rest ->
  l ∈ seen st ->
  iterateStack st
  = Some (let st1 := addSize 20 (set_stack rest st) in
          if sizeLimitReached st1 then st1
          else render key circular_reference index st1).
Proof.
  intros Hs Hl. unfold iterateStack. rewrite Hs. simpl.
  rewrite decide_True by exact Hl. reflexivity.
Qed.

Lemma below_false (d : nat) (m : Z) :
  maxDepth = Finite m -> (m <= Z.of_nat d)%Z -> below d = false.
Proof. unfold below. intros -> Hle. apply Z.ltb_ge, Hle. Qed.

Lemma depth_limit_round (st : state) (key : option string) (l : loc)
    (index : option nat) (d : nat) (rest : list frame) (o : object) (m : Z)
    (e : enclosure) :
  maxDepth = Finite m ->
  (m <= Z.of_nat d)%Z ->
  stack st = Frame key (Val (Ref l)) index d :: rest ->
  l ∉ seen st ->
  heap !! l = Some o ->
  empty_form o = Some e ->
  exists st',
    iterateStack st = Some st'
    /\ stack st' = rest
    /\ rendered st' = (key, TEnc e, index) :: rendered st
    /\ output st' = fragment key (TEnc e) index +:+ output st.
Proof.
  intros Hmax Hle Hs Hl Ho He.
  rewrite (iterateStack_unseen st key l index d rest o Hs Hl Ho).
  eexists. split; [reflexivity|].
  pose proof (below_false d m Hmax Hle) as Hb.
  destruct o as [elems|[|p props]| | |]; try discriminate;
    injection He as <-; unfold visit.
  - rewrite Hb, andb_false_r. simpl. repeat split.
  - rewrite Hb, andb_false_r. simpl. repeat split.
Qed.

(** *** What [measureSize] adds *)

Lemma measureSize_charges (v : value) (n : Z) (st : state) :
  size st = CNum n ->
  size (measureSize v st)
  = match v with
    | Null | Bool true => CNum (n + 4)
    | Bool false => CNum (n + 5)
    | Str s => CNum (n + (Z.of_nat (String.length s) + 2))
    | Number text => CNum (n + Z.of_nat (String.length text))
    | Function name => CNum (n + (13 + Z.of_nat (String.length name)))
    | Ref l =>
        match heap !! l with
        | Some (Date _) => CNum (n + 26)
        | Some (ErrorLike s) | Some (Pattern s) => CStr (pretty n +:+ s)
        | Some (Sequence _) | Some (Mapping _) | None => CNum n
        end
    | Undef | BigInt _ => CNum n
    end.
Proof.
  intros Hn. unfold measureSize, set_size. cbn [size]. rewrite Hn.
  destruct v as [|[]| | | |l| | ]; reflexivity.
Qed.

(** *** The size limit *)


(** *** References that [seen] has *)

Lemma seen_round (st : state) (key : option string) (l : loc)
    (index : option nat) (d : nat) (rest : list frame) :
  stack st = Frame key (Val (Ref l)) index d :: rest ->
  l ∈ seen st ->
  exists st',
    iterateStack st = Some st'
    /\ stack st' = rest
    /\ seen st' = seen st
    /\ size st' = add_number (size st) 20
    /\ sizeLimitReached st' = (sizeLimitReached st || exceeds (add_number (size st) 20))
    /\ (if sizeLimitReached st'
        then rendered st' = rendered st /\ output st' = output st
        else rendered st' = (key, circular_reference, index) :: rendered st
             /\ output st' = fragment key circular_reference index +:+ output st).
Proof.
  intros Hs Hl. rewrite (iterateStack_seen st key l index d rest Hs Hl).
  eexists. split; [reflexivity|]. cbv zeta.
  destruct (sizeLimitReached (addSize 20 (set_stack rest st))) eqn:Hf.
  - simpl in *. rewrite Hf. repeat split.
  - simpl in *. rewrite Hf. repeat split.
Qed.

Lemma first_round_enters_seen (st : state) (key : option string) (l : loc)
    (index : option nat) (d : nat) (rest : list frame) (o : object) :
  stack st = Frame key (Val (Ref l)) index d :: rest ->
  l ∉ seen st ->
  heap !! l = Some o ->
  exists st', iterateStack st = Some st' /\ l ∈ seen st'.
Proof.
  intros Hs Hl Ho.
  rewrite (iterateStack_unseen st key l index d rest o Hs Hl Ho).
  eexists. split; [reflexivity|].
  destruct (visit_stack key o index d (seen_add l (set_stack rest st)))
    as (fs & _ & -> & _).
  simpl. apply elem_of_union. left. apply elem_of_singleton. reflexivity.
Qed.

(** The first round of a date, an error or a pattern. *)
Lemma string_form_round (st : state) (key : option string) (l : loc)
    (index : option nat) (d : nat) (rest : list frame) (o : object) (s : string) :
  stack st = Frame key (Val (Ref l)) index d :: rest ->
  l ∉ seen st ->
  heap !! l = Some o ->
  string_form o = Some s ->
  exists st',
    iterateStack st = Some st'
    /\ stack st' = rest
    /\ seen st' = {[l]} ∪ seen st
    /\ rendered st' = (key, TStr s, index) :: rendered st
    /\ output st' = fragment key (TStr s) index +:+ output st.
Proof.
  intros Hs Hl Ho Hform.
  rewrite (iterateStack_unseen st key l index d rest o Hs Hl Ho).
  eexists. split; [reflexivity|].
  destruct o; try discriminate; injection Hform as <-; repeat split.
Qed.

(** A round on a function or on a primitive value leaves [seen] as it is. *)
Lemma other_round (st st' : state) (key : option string) (v : value)
    (index : option nat) (d : nat) (rest : list frame) :
  stack st = Frame key (Val v) index d :: rest ->
  (forall l, v <> Ref l) ->
  iterateStack st = Some st' ->
  seen st' = seen st.
Proof.
  intros Hs Hv. unfold iterateStack. rewrite Hs.
  destruct v as [|b|text|s|name|l| |big]; try (specialize (Hv l); congruence);
    intros [= <-]; try reflexivity; apply (leaf_stack key _ index (set_stack rest st)).
Qed.

End claims.

(** ** The rounds of a tree, with no limit *)

Section unlimited.

Context {c : closure}.

Hypothesis unlimited_depth : maxDepth = Infinity.
Hypothesis unlimited_size : maxSize = Infinity.

Lemma exceeds_unlimited (x : counter) : exceeds x = false.
Proof. unfold exceeds. rewrite unlimited_size. reflexivity. Qed.

Lemma below_unlimited (d : nat) : below d = true.
Proof. unfold below. rewrite unlimited_depth. reflexivity. Qed.

Lemma set_size_unlimited (x : counter) (st : state) :
  set_size x st = State (stack st) (seen st) x (sizeLimitReached st) (output st) (rendered st).
Proof. unfold set_size. rewrite exceeds_unlimited, orb_false_r. reflexivity. Qed.

Lemma addSize_unlimited (n : Z) (st : state) :
  exists x,
    addSize n st
    = State (stack st) (seen st) x (sizeLimitReached st) (output st) (rendered st).
Proof. unfold addSize. rewrite set_size_unlimited. eauto. Qed.

Lemma measureSize_unlimited (v : value) (st : state) :
  exists x,
    measureSize v st
    = State (stack st) (seen st) x (sizeLimitReached st) (output st) (rendered st).
Proof. unfold measureSize. rewrite set_size_unlimited. eauto. Qed.

Lemma push_elements_unlimited (vs : list value) (i d : nat) (st : state) :
  sizeLimitReached st = false ->
  stack (push_elements vs i d st) = rev (element_frames vs i d) ++ stack st
  /\ seen (push_elements vs i d st) = seen st
  /\ output (push_elements vs i d st) = output st
  /\ sizeLimitReached (push_elements vs i d st) = false.
Proof.
  revert i st. induction vs as [|v vs IH]; intros i st Hflag; [auto|].
  cbn [push_elements element_frames].
  destruct (measureSize_unlimited v st) as [x ->].
  cbn [sizeLimitReached]. rewrite Hflag.
  edestruct IH as (-> & -> & -> & ->); [reflexivity|].
  simpl. rewrite <- app_assoc. auto.
Qed.

Lemma push_props_unlimited (ps : list (string * value)) (i d : nat) (st : state) :
  sizeLimitReached st = false ->
  stack (push_props ps i d st) = rev (member_frames ps i d) ++ stack st
  /\ seen (push_props ps i d st) = seen st
  /\ output (push_props ps i d st) = output st
  /\ sizeLimitReached (push_props ps i d st) = false.
Proof.
  revert i st. induction ps as [|[k v] ps IH]; intros i st Hflag; [auto|].
  cbn [push_props member_frames].
  destruct (addSize_unlimited (Z.of_nat (String.length k) + 3) st) as [x1 ->].
  cbn [sizeLimitReached]. rewrite Hflag.
  destruct (measureSize_unlimited v
              (State (stack st) (seen st) x1 false (output st) (rendered st)))
    as [x2 ->].
  cbn [sizeLimitReached stack seen output rendered].
  edestruct IH as (-> & -> & -> & ->); [reflexivity|].
  simpl. rewrite <- app_assoc. auto.
Qed.

Lemma leaf_unlimited (key : option string) (t : token) (index : option nat) (st : state) :
  stack (leaf key t index st) = stack st
  /\ seen (leaf key t index st) = seen st
  /\ output (leaf key t index st) = fragment key t index +:+ output st
  /\ sizeLimitReached (leaf key t index st) = sizeLimitReached st.
Proof.
  unfold leaf, addSize. rewrite set_size_unlimited.
  destruct (truthy_index index); auto.
Qed.

(** *** Composing rounds *)

Lemma runs_to_refl (st : state) : runs_to st st.
Proof. exists 0. reflexivity. Qed.

Lemma runs_to_trans (st1 st2 st3 : state) :
  runs_to st1 st2 -> runs_to st2 st3 -> runs_to st1 st3.
Proof.
  intros [n1 H1] [n2 H2]. exists (n1 + n2). intros fuel.
  rewrite <- Nat.add_assoc, H1, H2. reflexivity.
Qed.

Lemma runs_to_step (st st' : state) :
  iterateStack st = Some st' -> runs_to st st'.
Proof.
  intros Hit. exists 1. intros fuel. simpl.
  destruct (stack st) eqn:Hs; [|rewrite Hit; reflexivity].
  unfold iterateStack in Hit. rewrite Hs in Hit. discriminate.
Qed.

Lemma prepends_trans (t1 t2 : string) (ls1 ls2 : list loc) (rest1 rest2 : list frame)
    (st st1 st2 : state) :
  prepends t1 ls1 rest1 st st1 ->
  prepends t2 ls2 rest2 st1 st2 ->
  prepends (t2 +:+ t1) (ls1 ++ ls2) rest2 st st2.
Proof.
  intros (Hr1 & _ & Ho1 & Hs1 & _) (Hr2 & Hst2 & Ho2 & Hs2 & Hf2).
  split; [eapply runs_to_trans; eassumption|]. split; [exact Hst2|].
  split; [rewrite Ho2, Ho1, append_assoc; reflexivity|]. split; [|exact Hf2].
  intros x. rewrite Hs2, Hs1, elem_of_app. tauto.
Qed.

(** The round of a frame that the last [else] renders. *)
Lemma prepends_leaf (key : option string) (p : node) (t : token) (index : option nat)
    (d : nat) (rest : list frame) (st : state) :
  stack st = Frame key p index d :: rest ->
  sizeLimitReached st = false ->
  token_of p = Some t ->
  prepends (fragment key t index) [] rest st (leaf key t index (set_stack rest st)).
Proof.
  intros Hs Hflag Ht.
  destruct (leaf_unlimited key t index (set_stack rest st)) as (Hst & Hseen & Hout & Hf).
  split; [|rewrite Hst, Hseen, Hout, Hf; simpl; split_and!; auto;
            intros x; rewrite elem_of_nil; tauto].
  apply runs_to_step. unfold iterateStack. rewrite Hs.
  destruct p as [[]|]; simpl in Ht; try discriminate; injection Ht as <-; reflexivity.
Qed.

Lemma prepends_ext (text text' : string) (ls ls' : list loc) (rest : list frame)
    (st st' : state) :
  text = text' ->
  (forall x, x ∈ ls <-> x ∈ ls') ->
  prepends text ls rest st st' ->
  prepends text' ls' rest st st'.
Proof.
  intros <- Hls (Hr & Hst & Ho & Hs & Hf). split_and!; try assumption.
  intros x. rewrite Hs, Hls. reflexivity.
Qed.

Lemma prepends_nothing (rest : list frame) (st : state) :
  stack st = rest -> sizeLimitReached st = false -> prepends "" [] rest st st.
Proof.
  intros Hs Hf. split_and!; auto using runs_to_refl.
  intros x. rewrite elem_of_nil. tauto.
Qed.

(** *** The children of a sequence and of a mapping *)

Lemma elements_ok (ts : list tree) :
  Forall entry_ok ts ->
  forall vs i d rest st,
    Forall2 unfolds vs ts ->
    forallb readable ts = true ->
    NoDup (flat_map locs ts) ->
    (forall x, x ∈ flat_map locs ts -> x ∉ seen st) ->
    stack st = rev (element_frames vs i d) ++ rest ->
    sizeLimitReached st = false ->
    exists st', prepends (elements_text ts i) (flat_map locs ts) rest st st'.
Proof.
  induction 1 as [|t ts Ht _ IH]; intros vs i d rest st Hvs Hgood Hnodup Hfresh Hs Hf.
  - apply Forall2_nil_inv_r in Hvs as ->.
    exists st. apply prepends_nothing; assumption.
  - apply Forall2_cons_inv_r in Hvs as (v & vs' & Hv & Hvs' & ->).
    cbn [forallb] in Hgood. apply andb_true_iff in Hgood as [Hgt Hgts].
    cbn [flat_map] in *. apply NoDup_app in Hnodup as (Hnt & Hdisj & Hnts).
    cbn [element_frames rev] in Hs. rewrite <- app_assoc in Hs.
    destruct (IH vs' (S i) d (Frame None (Val v) (Some i) (S d) :: rest) st
                Hvs' Hgts Hnts) as (st1 & H1); try assumption.
    { intros x Hx. apply Hfresh, elem_of_app. right. exact Hx. }
    pose proof H1 as (_ & Hst1 & _ & Hseen1 & Hf1).
    destruct (Ht None v (Some i) (S d) rest st1 Hv Hgt Hnt) as (st2 & H2).
    { split; [exact Hst1|]. split; [|exact Hf1].
      intros x Hx. rewrite Hseen1. intros [Hin|Hin].
      - apply (Hdisj x Hx Hin).
      - apply (Hfresh x); [apply elem_of_app; left; exact Hx|exact Hin]. }
    exists st2. eapply prepends_ext; [| |eapply prepends_trans; eassumption].
    + reflexivity.
    + intros x. rewrite !elem_of_app. tauto.
Qed.

Lemma members_ok (ts : list (string * tree)) :
  Forall (fun q => entry_ok q.2) ts ->
  forall ps i d rest st,
    Forall2 (fun p q => p.1 = q.1 /\ unfolds p.2 q.2) ps ts ->
    forallb (fun q => plain_key q.1 && readable q.2) ts = true ->
    NoDup (flat_map (fun q => locs q.2) ts) ->
    (forall x, x ∈ flat_map (fun q => locs q.2) ts -> x ∉ seen st) ->
    stack st = rev (member_frames ps i d) ++ rest ->
    sizeLimitReached st = false ->
    exists st',
      prepends (members_text ts i) (flat_map (fun q => locs q.2) ts) rest st st'.
Proof.
  induction 1 as [|[k t] ts Ht _ IH]; intros ps i d rest st Hps Hgood Hnodup Hfresh Hs Hf.
  - apply Forall2_nil_inv_r in Hps as ->.
    exists st. apply prepends_nothing; assumption.
  - apply Forall2_cons_inv_r in Hps as ([k' v] & ps' & [Hk Hv] & Hps' & ->).
    simpl in Hk, Hv, Ht. subst k'.
    cbn [forallb] in Hgood. apply andb_true_iff in Hgood as [Hgt Hgts].
    apply andb_true_iff in Hgt as [_ Hgt]. simpl in Hgt.
    cbn [flat_map] in *. simpl in Hnodup.
    apply NoDup_app in Hnodup as (Hnt & Hdisj & Hnts).
    cbn [member_frames rev] in Hs. rewrite <- app_assoc in Hs.
    destruct (IH ps' (S i) d (Frame (Some k) (Val v) (Some i) (S d) :: rest) st
                Hps' Hgts Hnts) as (st1 & H1); try assumption.
    { intros x Hx. apply Hfresh, elem_of_app. right. exact Hx. }
    pose proof H1 as (_ & Hst1 & _ & Hseen1 & Hf1).
    destruct (Ht (Some k) v (Some i) (S d) rest st1 Hv Hgt Hnt) as (st2 & H2).
    { split; [exact Hst1|]. split; [|exact Hf1].
      intros x Hx. rewrite Hseen1. intros [Hin|Hin].
      - apply (Hdisj x Hx Hin).
      - apply (Hfresh x); [apply elem_of_app; left; exact Hx|exact Hin]. }
    exists st2. eapply prepends_ext; [| |eapply prepends_trans; eassumption].
    + reflexivity.
    + intros x. simpl. rewrite !elem_of_app. tauto.
Qed.

(** *** One frame *)

Lemma prepends_step (text : string) (ls : list loc) (rest : list frame) (st st' : state) :
  iterateStack st = Some st' ->
  stack st' = rest ->
  output st' = text +:+ output st ->
  (forall x, x ∈ seen st' <-> x ∈ ls \/ x ∈ seen st) ->
  sizeLimitReached st' = false ->
  prepends text ls rest st st'.
Proof. intros Hit ? ? ? ?. unfold prepends. split_and!; auto using runs_to_step. Qed.

Lemma seen_add_iff (l x : loc) (s : gset loc) : x ∈ {[l]} ∪ s <-> x ∈ [l] \/ x ∈ s.
Proof. rewrite elem_of_union, elem_of_singleton, list_elem_of_singleton. reflexivity. Qed.

Lemma addSize_flag (n : Z) (st : state) :
  sizeLimitReached (addSize n st) = sizeLimitReached st.
Proof. destruct (addSize_unlimited n st) as [x ->]. reflexivity. Qed.

Lemma visit_sequence_unlimited (key : option string) (vs : list value)
    (index : option nat) (d : nat) (st : state) :
  sizeLimitReached st = false ->
  visit key (Sequence vs) index d st
  = push (Frame None (Enc RIGHT_BRACKET) None d)
      (push_elements vs 0 d (push (Frame key (Enc LEFT_BRACKET) index d) (addSize 2 st))).
Proof.
  intros Hf. unfold visit. rewrite addSize_flag, Hf, below_unlimited. reflexivity.
Qed.

Lemma visit_mapping_unlimited (key : option string) (p : string * value)
    (ps : list (string * value)) (index : option nat) (d : nat) (st : state) :
  sizeLimitReached st = false ->
  visit key (Mapping (p :: ps)) index d st
  = push (Frame None (Enc RIGHT_BRACE) None d)
      (push_props (p :: ps) 0 d (push (Frame key (Enc LEFT_BRACE) index d) (addSize 2 st))).
Proof.
  intros Hf. unfold visit. rewrite addSize_flag, Hf, below_unlimited. reflexivity.
Qed.

(** The first round of a sequence: its frames are on the stack. *)
Lemma sequence_first_round (key : option string) (l : loc) (index : option nat)
    (d : nat) (rest : list frame) (vs : list value) (st : state) :
  stack st = Frame key (Val (Ref l)) index d :: rest ->
  l ∉ seen st ->
  sizeLimitReached st = false ->
  heap !! l = Some (Sequence vs) ->
  exists st',
    prepends "" [l]
      (Frame None (Enc RIGHT_BRACKET) None d
         :: rev (element_frames vs 0 d) ++ Frame key (Enc LEFT_BRACKET) index d :: rest)
      st st'.
Proof.
  intros Hs Hl Hf Ho. eexists.
  destruct (addSize_unlimited 2 (seen_add l (set_stack rest st))) as [x Hx].
  destruct (push_elements_unlimited vs 0 d
              (push (Frame key (Enc LEFT_BRACKET) index d)
                 (addSize 2 (seen_add l (set_stack rest st)))))
    as (Hst & Hseen & Hout & Hflag).
  { rewrite Hx. exact Hf. }
  apply prepends_step.
  - apply (iterateStack_unseen st key l index d rest _ Hs Hl Ho).
  - rewrite visit_sequence_unlimited by exact Hf.
    cbn [push set_stack stack]. rewrite Hst, Hx. reflexivity.
  - rewrite visit_sequence_unlimited by exact Hf.
    cbn [push set_stack output]. rewrite Hout, Hx. reflexivity.
  - intros y. rewrite <- seen_add_iff.
    rewrite visit_sequence_unlimited by exact Hf.
    cbn [push set_stack seen]. rewrite Hseen, Hx. reflexivity.
  - rewrite visit_sequence_unlimited by exact Hf. exact Hflag.
Qed.

Lemma mapping_first_round (key : option string) (l : loc) (index : option nat)
    (d : nat) (rest : list frame) (p : string * value) (ps : list (string * value))
    (st : state) :
  stack st = Frame key (Val (Ref l)) index d :: rest ->
  l ∉ seen st ->
  sizeLimitReached st = false ->
  heap !! l = Some (Mapping (p :: ps)) ->
  exists st',
    prepends "" [l]
      (Frame None (Enc RIGHT_BRACE) None d
         :: rev (member_frames (p :: ps) 0 d) ++ Frame key (Enc LEFT_BRACE) index d :: rest)
      st st'.
Proof.
  intros Hs Hl Hf Ho. eexists.
  destruct (addSize_unlimited 2 (seen_add l (set_stack rest st))) as [x Hx].
  destruct (push_props_unlimited (p :: ps) 0 d
              (push (Frame key (Enc LEFT_BRACE) index d)
                 (addSize 2 (seen_add l (set_stack rest st)))))
    as (Hst & Hseen & Hout & Hflag).
  { rewrite Hx. exact Hf. }
  apply prepends_step.
  - apply (iterateStack_unseen st key l index d rest _ Hs Hl Ho).
  - rewrite visit_mapping_unlimited by exact Hf.
    cbn [push set_stack stack]. rewrite Hst, Hx. reflexivity.
  - rewrite visit_mapping_unlimited by exact Hf.
    cbn [push set_stack output]. rewrite Hout, Hx. reflexivity.
  - intros y. rewrite <- seen_add_iff.
    rewrite visit_mapping_unlimited by exact Hf.
    cbn [push set_stack seen]. rewrite Hseen, Hx. reflexivity.
  - rewrite visit_mapping_unlimited by exact Hf. exact Hflag.
Qed.

(** The round of a date, an error or a pattern. *)
Lemma text_round (key : option string) (l : loc) (index : option nat) (d : nat)
    (rest : list frame) (o : object) (s : string) (st : state) :
  stack st = Frame key (Val (Ref l)) index d :: rest ->
  l ∉ seen st ->
  sizeLimitReached st = false ->
  heap !! l = Some o ->
  string_form o = Some s ->
  exists st', prepends (fragment key (TStr s) index) [l] rest st st'.
Proof.
  intros Hs Hl Hf Ho Hform. eexists. apply prepends_step.
  - apply (iterateStack_unseen st key l index d rest _ Hs Hl Ho).
  - destruct o; try discriminate; reflexivity.
  - destruct o; try discriminate; injection Hform as <-; reflexivity.
  - intros y. rewrite <- seen_add_iff.
    destruct o; try discriminate; reflexivity.
  - destruct o; try discriminate; exact Hf.
Qed.

(** The round of a function. *)
Lemma function_round (key : option string) (name : string) (index : option nat)
    (d : nat) (rest : list frame) (st : state) :
  stack st = Frame key (Val (Function name)) index d :: rest ->
  sizeLimitReached st = false ->
  exists st', prepends (fragment key (function_token name) index) [] rest st st'.
Proof.
  intros Hs Hf. eexists. apply prepends_step.
  - unfold iterateStack. rewrite Hs. reflexivity.
  - reflexivity.
  - reflexivity.
  - intros y. rewrite elem_of_nil. simpl. tauto.
  - exact Hf.
Qed.

(** *** Every tree *)

Lemma leaf_entry_ok (t : tree) (tok : token) :
  locs t = [] ->
  (forall v, unfolds v t -> token_of (Val v) = Some tok) ->
  token_text tok = value_text t ->
  entry_ok t.
Proof.
  intros Hlocs Htok Htext key v index d rest st Hu _ _ (Hs & _ & Hf).
  eexists. rewrite Hlocs.
  eapply prepends_ext; [| |apply (prepends_leaf key (Val v) tok index d rest st Hs Hf)].
  - unfold fragment, entry_text, comma, key_prefix. rewrite Htext. reflexivity.
  - reflexivity.
  - apply Htok, Hu.
Qed.

Lemma every_entry_ok (t : tree) : entry_ok t.
Proof.
  induction t as [|b|text|s|name|l s|l ts IH|l ps IH] using tree_induction.
  - apply (leaf_entry_ok _ TNull); [reflexivity| |reflexivity].
    intros v Hu. inversion Hu. reflexivity.
  - apply (leaf_entry_ok _ (TBool b)); [reflexivity| |destruct b; reflexivity].
    intros v Hu. inversion Hu. reflexivity.
  - apply (leaf_entry_ok _ (TNum text)); [reflexivity| |reflexivity].
    intros v Hu. inversion Hu. reflexivity.
  - apply (leaf_entry_ok _ (TStr s)); [reflexivity| |reflexivity].
    intros v Hu. inversion Hu. reflexivity.
  - intros key v index d rest st Hu _ _ (Hs & _ & Hf). inversion Hu; subst.
    apply (function_round key name index d rest st Hs Hf).
  - intros key v index d rest st Hu _ _ (Hs & Hfresh & Hf). inversion Hu; subst.
    eapply (text_round key l index d rest _ s st Hs); try eassumption.
    apply Hfresh. simpl. apply list_elem_of_here.
  - intros key v index d rest st Hu Hgood Hnodup (Hs & Hfresh & Hf).
    inversion Hu as [| | | | | |l' vs ts' Ho Hvs|]; subst.
    cbn [readable] in Hgood. cbn [locs] in Hnodup, Hfresh.
    apply NoDup_cons in Hnodup as [Hl Hnodup].
    destruct (sequence_first_round key l index d rest vs st Hs) as (st1 & H1);
      [apply Hfresh, list_elem_of_here|exact Hf|exact Ho|].
    pose proof H1 as (_ & Hst1 & _ & Hseen1 & Hf1).
    destruct (ex_intro (fun s2 => prepends _ _ _ st1 s2) _
                (prepends_leaf None (Enc RIGHT_BRACKET) (TEnc RIGHT_BRACKET) None d _ st1
                   Hst1 Hf1 eq_refl)) as [st2 H2].
    pose proof H2 as (_ & Hst2 & _ & Hseen2 & Hf2).
    destruct (elements_ok ts IH vs 0 d (Frame key (Enc LEFT_BRACKET) index d :: rest) st2
                Hvs Hgood Hnodup) as (st3 & H3); [|exact Hst2|exact Hf2|].
    { intros x Hx. rewrite Hseen2, Hseen1, elem_of_nil, list_elem_of_singleton.
      intros [[]|[->|Hin]]; [contradiction|].
      apply (Hfresh x); [apply list_elem_of_further, Hx|exact Hin]. }
    pose proof H3 as (_ & Hst3 & _ & Hseen3 & Hf3).
    pose proof (prepends_leaf key (Enc LEFT_BRACKET) (TEnc LEFT_BRACKET) index d rest st3
                  Hst3 Hf3 eq_refl) as H4.
    eexists. eapply prepends_ext;
      [| |exact (prepends_trans _ _ _ _ _ _ _ _ _
                  (prepends_trans _ _ _ _ _ _ _ _ _
                     (prepends_trans _ _ _ _ _ _ _ _ _ H1 H2) H3) H4)].
    + unfold entry_text. rewrite value_text_sequence. unfold fragment, comma, key_prefix.
      rewrite !append_assoc, !append_empty_r. reflexivity.
    + intros x. cbn [locs]. rewrite !elem_of_app, !elem_of_cons, !elem_of_nil. tauto.
  - intros key v index d rest st Hu Hgood Hnodup (Hs & Hfresh & Hf).
    inversion Hu as [| | | | | | |l' qs ts' Ho Hqs]; subst.
    cbn [readable] in Hgood. apply andb_true_iff in Hgood as [Hne Hgood].
    cbn [locs] in Hnodup, Hfresh.
    apply NoDup_cons in Hnodup as [Hl Hnodup].
    destruct qs as [|q qs].
    { apply Forall2_nil_inv_l in Hqs as ->. discriminate. }
    destruct (mapping_first_round key l index d rest q qs st Hs) as (st1 & H1);
      [apply Hfresh, list_elem_of_here|exact Hf|exact Ho|].
    pose proof H1 as (_ & Hst1 & _ & Hseen1 & Hf1).
    destruct (ex_intro (fun s2 => prepends _ _ _ st1 s2) _
                (prepends_leaf None (Enc RIGHT_BRACE) (TEnc RIGHT_BRACE) None d _ st1
                   Hst1 Hf1 eq_refl)) as [st2 H2].
    pose proof H2 as (_ & Hst2 & _ & Hseen2 & Hf2).
    destruct (members_ok ps IH (q :: qs) 0 d (Frame key (Enc LEFT_BRACE) index d :: rest) st2
                Hqs Hgood Hnodup) as (st3 & H3); [|exact Hst2|exact Hf2|].
    { intros x Hx. rewrite Hseen2, Hseen1, elem_of_nil, list_elem_of_singleton.
      intros [[]|[->|Hin]]; [contradiction|].
      apply (Hfresh x); [apply list_elem_of_further, Hx|exact Hin]. }
    pose proof H3 as (_ & Hst3 & _ & Hseen3 & Hf3).
    pose proof (prepends_leaf key (Enc LEFT_BRACE) (TEnc LEFT_BRACE) index d rest st3
                  Hst3 Hf3 eq_refl) as H4.
    eexists. eapply prepends_ext;
      [| |exact (prepends_trans _ _ _ _ _ _ _ _ _
                  (prepends_trans _ _ _ _ _ _ _ _ _
                     (prepends_trans _ _ _ _ _ _ _ _ _ H1 H2) H3) H4)].
    + unfold entry_text. rewrite value_text_mapping. unfold fragment, comma, key_prefix.
      rewrite !append_assoc, !append_empty_r. reflexivity.
    + intros x. cbn [locs]. rewrite !elem_of_app, !elem_of_cons, !elem_of_nil. tauto.
Qed.

End unlimited.

(** ** Reading the text of a tree back *)

(** *** Strings *)

Lemma parse_chars_step (s : string) : parse_chars s = chars_step parse_chars s.
Proof. destruct s; reflexivity. Qed.

Lemma chars_step_escaped_character (k : string -> option (string * string))
    (a : ascii) (r : string) :
  chars_step k (escaped_character a +:+ r)
  = match k r with
    | Some (str, r') => Some (String a str, r')
    | None => None
    end.
Proof.
  destruct a as [[] [] [] [] [] [] [] []]; vm_compute; reflexivity.
Qed.

Lemma parse_chars_escaped_character (a : ascii) (r : string) :
  parse_chars (escaped_character a +:+ r)
  = match parse_chars r with
    | Some (str, r') => Some (String a str, r')
    | None => None
    end.
Proof. rewrite parse_chars_step. apply chars_step_escaped_character. Qed.

Lemma parse_chars_escaped (s rest : string) :
  parse_chars (escaped s +:+ quote +:+ rest) = Some (s, rest).
Proof.
  induction s as [|a s IH]; [reflexivity|].
  cbn [escaped]. rewrite append_assoc, parse_chars_escaped_character, IH. reflexivity.
Qed.

Lemma parse_chars_escape (s rest : string) :
  parse_chars (escape s +:+ quote +:+ rest) = Some (s, rest).
Proof. rewrite escape_escaped. apply parse_chars_escaped. Qed.

Lemma parse_chars_plain_key (k rest : string) :
  plain_key k = true -> parse_chars (k +:+ quote +:+ rest) = Some (k, rest).
Proof.
  intros Hk. destruct k as [|a k]; [discriminate|].
  unfold plain_key in Hk. apply negb_true_iff in Hk.
  rewrite <- (parse_chars_escape (String a k) rest). unfold escape. rewrite Hk. reflexivity.
Qed.

(** *** Numbers *)

Lemma number_prefix_refl (s : string) : number_prefix s s.
Proof. exists "". split; reflexivity. Qed.

Lemma all_chars_append (P : ascii -> bool) (s t : string) :
  all_chars P (s +:+ t) = all_chars P s && all_chars P t.
Proof.
  induction s as [|a s IH]; [reflexivity|].
  rewrite append_cons. cbn [all_chars]. rewrite IH, andb_assoc. reflexivity.
Qed.

Lemma number_prefix_trans (s r u : string) :
  number_prefix s r -> number_prefix r u -> number_prefix s u.
Proof.
  intros (p & -> & Hp) (q & -> & Hq). exists (p +:+ q). split.
  - rewrite append_assoc. reflexivity.
  - rewrite all_chars_append, Hp, Hq. reflexivity.
Qed.

Lemma number_prefix_cons (a : ascii) (s : string) :
  is_number_char a = true -> number_prefix (String a s) s.
Proof.
  intros Ha. exists (String a ""). split; [reflexivity|].
  cbn [all_chars]. rewrite Ha. reflexivity.
Qed.

Lemma is_digit_number_char (a : ascii) : is_digit a = true -> is_number_char a = true.
Proof. unfold is_number_char. intros ->. reflexivity. Qed.

Lemma skip_digits_prefix (s : string) : number_prefix s (skip_digits s).
Proof.
  induction s as [|a s IH]; [apply number_prefix_refl|].
  cbn [skip_digits]. destruct (is_digit a) eqn:Ha; [|apply number_prefix_refl].
  eapply number_prefix_trans; [|exact IH].
  apply number_prefix_cons, is_digit_number_char, Ha.
Qed.

Lemma digits1_prefix (s r : string) : digits1 s = Some r -> number_prefix s r.
Proof.
  destruct s as [|a s]; [discriminate|]. cbn [digits1].
  destruct (is_digit a) eqn:Ha; [|discriminate]. intros [= <-].
  eapply number_prefix_trans; [|apply skip_digits_prefix].
  apply number_prefix_cons, is_digit_number_char, Ha.
Qed.

Lemma code_number_char (a : ascii) (n : nat) :
  (code a =? n)%nat = true ->
  n = 43 \/ n = 45 \/ n = 46 \/ n = 101 \/ n = 69 \/ n = 48 ->
  is_number_char a = true.
Proof.
  intros Ha Hn. apply Nat.eqb_eq in Ha. unfold is_number_char, is_digit. rewrite Ha.
  destruct Hn as [->|[->|[->|[->|[->| ->]]]]]; reflexivity.
Qed.

Lemma minus_opt_prefix (s : string) : number_prefix s (minus_opt s).
Proof.
  destruct s as [|a s]; [apply number_prefix_refl|]. cbn [minus_opt].
  destruct (code a =? 45)%nat eqn:Ha; [|apply number_prefix_refl].
  apply number_prefix_cons, (code_number_char a 45 Ha). tauto.
Qed.

Lemma sign_opt_prefix (s : string) : number_prefix s (sign_opt s).
Proof.
  destruct s as [|a s]; [apply number_prefix_refl|]. cbn [sign_opt].
  destruct (code a =? 43)%nat eqn:Ha; cbn [orb].
  { apply number_prefix_cons, (code_number_char a 43 Ha). tauto. }
  destruct (code a =? 45)%nat eqn:Hb; [|apply number_prefix_refl].
  apply number_prefix_cons, (code_number_char a 45 Hb). tauto.
Qed.

Lemma int_part_prefix (s r : string) : int_part s = Some r -> number_prefix s r.
Proof.
  destruct s as [|a s]; [discriminate|]. cbn [int_part].
  destruct (code a =? 48)%nat eqn:Ha; [|apply digits1_prefix].
  intros [= <-]. apply number_prefix_cons, (code_number_char a 48 Ha). tauto.
Qed.

Lemma frac_opt_prefix (s r : string) : frac_opt s = Some r -> number_prefix s r.
Proof.
  destruct s as [|a s]; [intros [= <-]; apply number_prefix_refl|]. cbn [frac_opt].
  destruct (code a =? 46)%nat eqn:Ha; [|intros [= <-]; apply number_prefix_refl].
  intros H. eapply number_prefix_trans; [|apply digits1_prefix, H].
  apply number_prefix_cons, (code_number_char a 46 Ha). tauto.
Qed.

Lemma exp_opt_prefix (s r : string) : exp_opt s = Some r -> number_prefix s r.
Proof.
  destruct s as [|a s]; [intros [= <-]; apply number_prefix_refl|]. cbn [exp_opt].
  destruct (code a =? 101)%nat eqn:Ha; cbn [orb].
  { intros H. eapply number_prefix_trans; [|eapply number_prefix_trans;
      [apply sign_opt_prefix|apply digits1_prefix, H]].
    apply number_prefix_cons, (code_number_char a 101 Ha). tauto. }
  destruct (code a =? 69)%nat eqn:Hb; [|intros [= <-]; apply number_prefix_refl].
  intros H. eapply number_prefix_trans; [|eapply number_prefix_trans;
    [apply sign_opt_prefix|apply digits1_prefix, H]].
  apply number_prefix_cons, (code_number_char a 69 Hb). tauto.
Qed.

(** A JSON number is made of number characters. *)
Lemma json_number_chars (s : string) :
  json_number s = true -> all_chars is_number_char s = true.
Proof.
  unfold json_number. intros H.
  destruct (int_part (minus_opt s)) as [r1|] eqn:H1; [|discriminate].
  destruct (frac_opt r1) as [r2|] eqn:H2; [|discriminate].
  destruct (exp_opt r2) as [[|]|] eqn:H3; try discriminate.
  destruct (number_prefix_trans _ _ _ (minus_opt_prefix s)
              (number_prefix_trans _ _ _ (int_part_prefix _ _ H1)
                 (number_prefix_trans _ _ _ (frac_opt_prefix _ _ H2)
                    (exp_opt_prefix _ _ H3)))) as (p & -> & Hp).
  rewrite append_empty_r. exact Hp.
Qed.

(** A JSON number starts with a digit or a minus sign. *)
Lemma json_number_start (s : string) :
  json_number s = true -> exists a s', s = String a s' /\ number_start a = true.
Proof.
  unfold json_number, number_start. destruct s as [|a s]; [discriminate|].
  intros H. exists a, s. split; [reflexivity|].
  cbn [minus_opt] in H. destruct (code a =? 45)%nat; [apply orb_true_r|].
  cbn [int_part digits1] in H. unfold is_digit.
  destruct (code a =? 48)%nat eqn:H0.
  - apply Nat.eqb_eq in H0. rewrite H0. reflexivity.
  - fold (is_digit a). destruct (is_digit a); [reflexivity|discriminate].
Qed.

Lemma number_span_append (n rest : string) :
  all_chars is_number_char n = true ->
  delimited rest = true ->
  number_span (n +:+ rest) = (n, rest).
Proof.
  intros Hn Hrest. induction n as [|a n IH].
  - destruct rest as [|b rest]; [reflexivity|].
    rewrite append_empty_l. cbn [number_span]. unfold delimited in Hrest.
    assert (is_number_char b = false) as ->; [|reflexivity].
    unfold is_number_char, is_digit.
    repeat (apply orb_true_iff in Hrest as [Hrest|Hrest]);
      apply Nat.eqb_eq in Hrest; rewrite Hrest; reflexivity.
  - cbn [all_chars] in Hn. apply andb_true_iff in Hn as [Ha Hn].
    rewrite append_cons. cbn [number_span]. rewrite Ha, (IH Hn). reflexivity.
Qed.

(** What the first character of a number is not. *)
Lemma number_start_facts (a : ascii) :
  number_start a = true ->
  is_space a = false
  /\ (code a =? 91)%nat = false
  /\ (code a =? 123)%nat = false
  /\ (code a =? 34)%nat = false
  /\ (code a =? 93)%nat = false
  /\ (code a =? 125)%nat = false
  /\ Ascii.eqb "n" a = false
  /\ Ascii.eqb "t" a = false
  /\ Ascii.eqb "f" a = false.
Proof.
  destruct a as [[] [] [] [] [] [] [] []]; vm_compute; intros H;
    first [discriminate H | repeat split].
Qed.

Lemma parse_scalar_number (n rest : string) :
  json_number n = true ->
  delimited rest = true ->
  parse_scalar (n +:+ rest) = Some (JNumber n, rest).
Proof.
  intros Hn Hrest. unfold parse_scalar.
  rewrite (number_span_append n rest (json_number_chars n Hn) Hrest), Hn.
  destruct (json_number_start n Hn) as (a & n' & -> & Ha).
  destruct (number_start_facts a Ha) as (_ & _ & _ & _ & _ & _ & H1 & H2 & H3).
  rewrite append_cons. cbn [after_prefix]. rewrite H1, H2, H3. reflexivity.
Qed.

(** *** Values *)

Lemma parse_value_array (f : nat) (body : string) :
  parse_value (S f) ("[" +:+ body)
  = match starts_with 93 (skip_space body) with
    | Some rest1 => Some (JArray [], rest1)
    | None =>
        match parse_value f body with
        | Some (v, rest1) =>
            match parse_elements (parse_value f) (String.length rest1) rest1 with
            | Some (vs, rest2) => Some (JArray (v :: vs), rest2)
            | None => None
            end
        | None => None
        end
    end.
Proof. reflexivity. Qed.

Lemma parse_value_object (f : nat) (body : string) :
  parse_value (S f) ("{" +:+ body)
  = match starts_with 125 (skip_space body) with
    | Some rest1 => Some (JObject [], rest1)
    | None =>
        match parse_member (parse_value f) body with
        | Some (m, rest1) =>
            match parse_members (parse_value f) (String.length rest1) rest1 with
            | Some (ms, rest2) => Some (JObject (m :: ms), rest2)
            | None => None
            end
        | None => None
        end
    end.
Proof. reflexivity. Qed.

Lemma parse_value_string (f : nat) (body : string) :
  parse_value (S f) (quote +:+ body)
  = match parse_chars body with
    | Some (str, rest1) => Some (JString str, rest1)
    | None => None
    end.
Proof. reflexivity. Qed.

Lemma parse_value_number (f : nat) (n rest : string) :
  json_number n = true ->
  delimited rest = true ->
  parse_value (S f) (n +:+ rest) = Some (JNumber n, rest).
Proof.
  intros Hn Hrest. pose proof (parse_scalar_number n rest Hn Hrest) as Hs.
  destruct (json_number_start n Hn) as (a & n' & -> & Ha).
  destruct (number_start_facts a Ha) as (Hsp & H91 & H123 & H34 & _).
  rewrite append_cons in *. cbn [parse_value skip_space starts_with].
  rewrite Hsp. cbn [starts_with]. rewrite H91, H123, H34. exact Hs.
Qed.

Lemma value_text_start (t : tree) :
  readable t = true ->
  exists a s, value_text t = String a s /\ value_start a = true.
Proof.
  destruct t as [|[]|text|s|name|l s|l ts|l ps]; intros Hr;
    try (eexists; eexists; split; [reflexivity|reflexivity]).
  cbn [readable] in Hr. destruct (json_number_start text Hr) as (a & s & -> & Ha).
  exists a, s. split; [reflexivity|].
  destruct (number_start_facts a Ha) as (Hsp & _ & _ & _ & H93 & H125 & _).
  unfold value_start. rewrite Hsp, H93, H125. reflexivity.
Qed.

Lemma skip_space_start (a : ascii) (s : string) :
  value_start a = true -> skip_space (String a s) = String a s.
Proof.
  unfold value_start. intros H. apply andb_true_iff in H as [H _].
  apply andb_true_iff in H as [H _]. apply negb_true_iff in H.
  cbn [skip_space]. rewrite H. reflexivity.
Qed.

Lemma starts_with_start (a : ascii) (s : string) (n : nat) :
  value_start a = true -> n = 93 \/ n = 125 -> starts_with n (String a s) = None.
Proof.
  unfold value_start. intros H Hn. apply andb_true_iff in H as [H H125].
  apply andb_true_iff in H as [_ H93]. apply negb_true_iff in H93, H125.
  cbn [starts_with]. destruct Hn as [-> | ->]; [rewrite H93|rewrite H125]; reflexivity.
Qed.

(** *** Elements and members *)

Lemma delimited_elements (ts : list tree) (i : nat) (rest : string) :
  delimited (elements_text ts (S i) +:+ "]" +:+ rest) = true.
Proof. destruct ts; reflexivity. Qed.

Lemma delimited_members (ps : list (string * tree)) (i : nat) (rest : string) :
  delimited (members_text ps (S i) +:+ "}" +:+ rest) = true.
Proof. destruct ps as [|[k t] ps]; reflexivity. Qed.

Lemma length_elements_text (ts : list tree) (i : nat) (s : string) :
  length ts + String.length s <= String.length (elements_text ts (S i) +:+ s).
Proof.
  revert i. induction ts as [|t ts IH]; intros i; [reflexivity|].
  cbn [elements_text]. rewrite append_assoc, length_append.
  specialize (IH (S i)). unfold entry_text at 1. rewrite length_append.
  cbn [comma truthy_index String.length length]. lia.
Qed.

Lemma length_members_text (ps : list (string * tree)) (i : nat) (s : string) :
  length ps + String.length s <= String.length (members_text ps (S i) +:+ s).
Proof.
  revert i. induction ps as [|[k t] ps IH]; intros i; [reflexivity|].
  cbn [members_text]. rewrite append_assoc, length_append.
  specialize (IH (S i)). unfold entry_text at 1. rewrite length_append.
  cbn [comma truthy_index String.length length]. lia.
Qed.

Lemma parse_elements_text (f : nat) (ts : list tree) :
  Forall reads_back ts ->
  forallb readable ts = true ->
  Forall (fun t => height t < f) ts ->
  forall i n rest,
    length ts < n ->
    parse_elements (parse_value f) n (elements_text ts (S i) +:+ "]" +:+ rest)
    = Some (map json_of ts, rest).
Proof.
  induction 1 as [|t ts Ht _ IH]; intros Hr Hh i n rest Hn;
    (destruct n as [|n]; [inversion Hn|]).
  - reflexivity.
  - cbn [forallb] in Hr. apply andb_true_iff in Hr as [Hrt Hrts].
    apply Forall_cons in Hh as [Hht Hhts].
    cbn [elements_text].
    change (entry_text None t (Some (S i))) with ("," +:+ value_text t).
    rewrite !append_assoc.
    change (parse_elements (parse_value f) (S n) ("," +:+ ?s))
      with (match parse_value f s with
            | Some (v, rest1) =>
                match parse_elements (parse_value f) n rest1 with
                | Some (vs, rest2) => Some (v :: vs, rest2)
                | None => None
                end
            | None => None
            end).
    rewrite (Ht Hrt f _ Hht (delimited_elements ts (S i) rest)).
    rewrite (IH Hrts Hhts (S i) n rest); [reflexivity|]. simpl in Hn. lia.
Qed.

Lemma key_prefix_plain (k : string) :
  plain_key k = true -> key_prefix (Some k) = quote +:+ k +:+ quote +:+ ":".
Proof. destruct k; [discriminate|reflexivity]. Qed.

Lemma parse_member_text (f : nat) (k : string) (t : tree) (rest : string) :
  reads_back t ->
  plain_key k = true ->
  readable t = true ->
  height t < f ->
  delimited rest = true ->
  parse_member (parse_value f) (key_prefix (Some k) +:+ value_text t +:+ rest)
  = Some ((k, json_of t), rest).
Proof.
  intros Ht Hk Hr Hh Hrest. rewrite (key_prefix_plain k Hk), !append_assoc.
  change (parse_member (parse_value f) (quote +:+ ?s))
    with (match parse_chars s with
          | Some (k', rest1) =>
              match starts_with 58 (skip_space rest1) with
              | Some rest2 =>
                  match parse_value f rest2 with
                  | Some (v, rest3) => Some ((k', v), rest3)
                  | None => None
                  end
              | None => None
              end
          | None => None
          end).
  rewrite (parse_chars_plain_key k _ Hk).
  change (starts_with 58 (skip_space (":" +:+ ?s))) with (Some s).
  cbv iota beta. rewrite (Ht Hr f rest Hh Hrest). reflexivity.
Qed.

Lemma parse_members_text (f : nat) (ps : list (string * tree)) :
  Forall (fun p => reads_back p.2) ps ->
  forallb (fun p => plain_key p.1 && readable p.2) ps = true ->
  Forall (fun p => height p.2 < f) ps ->
  forall i n rest,
    length ps < n ->
    parse_members (parse_value f) n (members_text ps (S i) +:+ "}" +:+ rest)
    = Some (map (fun p => (p.1, json_of p.2)) ps, rest).
Proof.
  induction 1 as [|[k t] ps Ht _ IH]; intros Hr Hh i n rest Hn;
    (destruct n as [|n]; [inversion Hn|]).
  - reflexivity.
  - cbn [forallb] in Hr. apply andb_true_iff in Hr as [Hrt Hrts].
    apply andb_true_iff in Hrt as [Hk Hrt]. simpl in Hk, Hrt, Ht.
    apply Forall_cons in Hh as [Hht Hhts]. simpl in Hht.
    cbn [members_text].
    change (entry_text (Some k) t (Some (S i)))
      with ("," +:+ key_prefix (Some k) +:+ value_text t).
    rewrite !append_assoc.
    change (parse_members (parse_value f) (S n) ("," +:+ ?s))
      with (match parse_member (parse_value f) s with
            | Some (m, rest1) =>
                match parse_members (parse_value f) n rest1 with
                | Some (ms, rest2) => Some (m :: ms, rest2)
                | None => None
                end
            | None => None
            end).
    rewrite (parse_member_text f k t _ Ht Hk Hrt Hht (delimited_members ps (S i) rest)).
    rewrite (IH Hrts Hhts (S i) n rest); [reflexivity|]. simpl in Hn. lia.
Qed.

Lemma list_max_lt_each (A : Type) (h : A -> nat) (xs : list A) (n : nat) :
  list_max (map h xs) < n -> Forall (fun x => h x < n) xs.
Proof.
  induction xs as [|x xs IH]; [constructor|].
  cbn [map]. simpl list_max. intros H. constructor; [lia|apply IH; lia].
Qed.

(** *** Every readable tree *)

Lemma every_tree_reads_back (t : tree) : reads_back t.
Proof.
  induction t as [|b|text|s|name|l s|l ts IH|l ps IH] using tree_induction;
    intros Hr fuel rest Hfuel Hrest; (destruct fuel as [|f]; [inversion Hfuel|]).
  - reflexivity.
  - destruct b; reflexivity.
  - apply parse_value_number; assumption.
  - cbn [value_text json_of]. rewrite !append_assoc, parse_value_string, parse_chars_escape.
    reflexivity.
  - cbn [value_text json_of]. rewrite !append_assoc, parse_value_string, parse_chars_escape.
    reflexivity.
  - cbn [value_text json_of]. rewrite !append_assoc, parse_value_string, parse_chars_escape.
    reflexivity.
  - rewrite value_text_sequence, !append_assoc, parse_value_array.
    cbn [readable] in Hr. cbn [height] in Hfuel.
    apply PeanoNat.lt_S_n in Hfuel. apply list_max_lt_each in Hfuel.
    destruct ts as [|t ts]; [reflexivity|].
    apply Forall_cons in IH as [Ht IH]. apply Forall_cons in Hfuel as [Hht Hhts].
    cbn [forallb] in Hr. apply andb_true_iff in Hr as [Hrt Hrts].
    cbn [elements_text]. change (entry_text None t (Some 0)) with (value_text t).
    rewrite !append_assoc.
    destruct (value_text_start t Hrt) as (a & s & Hstart & Ha).
    rewrite Hstart at 1. rewrite append_cons, (skip_space_start a _ Ha),
      (starts_with_start a _ 93 Ha) by tauto.
    rewrite (Ht Hrt f _ Hht (delimited_elements ts 0 rest)).
    rewrite (parse_elements_text f ts IH Hrts Hhts 0 _ rest); [reflexivity|].
    pose proof (length_elements_text ts 0 ("]" +:+ rest)) as Hlen.
    change (String.length ("]" +:+ rest)) with (S (String.length rest)) in Hlen. lia.
  - rewrite value_text_mapping, !append_assoc, parse_value_object.
    cbn [readable] in Hr. apply andb_true_iff in Hr as [Hne Hr]. cbn [height] in Hfuel.
    apply PeanoNat.lt_S_n in Hfuel. apply list_max_lt_each in Hfuel.
    destruct ps as [|[k t] ps]; [discriminate|].
    apply Forall_cons in IH as [Ht IH]. apply Forall_cons in Hfuel as [Hht Hhts].
    cbn [forallb] in Hr. apply andb_true_iff in Hr as [Hrt Hrts].
    apply andb_true_iff in Hrt as [Hk Hrt]. simpl in Hk, Hrt, Ht, Hht.
    cbn [members_text].
    change (entry_text (Some k) t (Some 0)) with (key_prefix (Some k) +:+ value_text t).
    rewrite !append_assoc.
    assert (starts_with 125
              (skip_space (key_prefix (Some k) +:+ value_text t
                           +:+ members_text ps 1 +:+ "}" +:+ rest)) = None) as ->.
    { rewrite (key_prefix_plain k Hk). reflexivity. }
    rewrite (parse_member_text f k t _ Ht Hk Hrt Hht (delimited_members ps 0 rest)).
    rewrite (parse_members_text f ps IH Hrts Hhts 0 _ rest); [reflexivity|].
    pose proof (length_members_text ps 0 ("}" +:+ rest)) as Hlen.
    change (String.length ("}" +:+ rest)) with (S (String.length rest)) in Hlen. lia.
Qed.

(** ** The claims about single rounds and the limits *)









(** C4.  A container popped at a depth that is not below [maxDepth],
    and not yet in [seen], is rendered in place in its empty form, a
    sequence as [[]] and a mapping with at least one key as [{}], and
    no frame is pushed for a child.  So
    [smartSerialize({ foo: { bar: { baz: 'qux' } } }, 2)] is
    [{"foo":{"bar":{}}}]. *)
Theorem depth_limit_collapses :
  (forall (c : closure) st key l index d rest o m e,
      maxDepth = Finite m ->
      (m <= Z.of_nat d)%Z ->
      stack st = Frame key (Val (Ref l)) index d :: rest ->
      l ∉ seen st ->
      heap !! l = Some o ->
      match o with
      | Sequence _ => e = BRACKETS
      | Mapping (_ :: _) => e = BRACES
      | _ => False
      end ->
      exists st',
        iterateStack st = Some st'
        /\ stack st' = rest
        /\ rendered st' = (key, TEnc e, index) :: rendered st
        /\ output st' = fragment key (TEnc e) index +:+ output st
        /\ token_text (TEnc e) = match o with Sequence _ => "[]" | _ => "{}" end)
  /\ @smartSerialize (Closure nested_object (Finite 2) Infinity not_numeric) (Ref 1)
     = Some (Text (dq "{'foo':{'bar':{}}}")).
Proof.
  split; [|vm_compute; reflexivity].
  intros c st key l index d rest o m e Hmax Hle Hs Hl Ho He.
  assert (empty_form o = Some e) as Hform
    by (destruct o as [|[|]| | |]; try contradiction; subst e; reflexivity).
  destruct (depth_limit_round st key l index d rest o m e Hmax Hle Hs Hl Ho Hform)
    as (st' & Hit & Hst & Hr & Hout).
  exists st'. split_and!; try assumption.
  destruct o as [|[|]| | |]; try contradiction; subst e; reflexivity.
Qed.

(** C5, at the input where the code departs from it.  When [size] is
    the number [n] and the value is an error or a pattern whose
    [toString()] is [s], [measureSize] leaves in [size] the string made
    of the digits of [n] followed by [s], not the number
    [n + s.length]. *)
Theorem measureSize_concatenates_error_text {c : closure} (l : loc) (s : string)
    (n : Z) (st : state) :
  heap !! l = Some (ErrorLike s) \/ heap !! l = Some (Pattern s) ->
  size st = CNum n ->
  size (measureSize (Ref l) st) = CStr (pretty n +:+ s)
  /\ size (measureSize (Ref l) st) <> CNum (n + Z.of_nat (String.length s)).
Proof.
  intros Ho Hn. unfold measureSize. simpl.
  destruct Ho as [-> | ->]; rewrite Hn; simpl; split; [reflexivity|discriminate|reflexivity|discriminate].
Qed.

(** C6, as amended.  A frame whose value [seen] already has charges 20
    and is popped; the quoted token [[circular reference]] is rendered
    in its place if [sizeLimitReached] is [false] after the charge, and
    nothing is rendered otherwise.  An object enters [seen] in the
    round that pops it first and stays there, so this is the round of
    every later frame of the same instance. *)
Theorem seen_reference_renders_token {c : closure} :
  (forall st key l index d rest,
      stack st = Frame key (Val (Ref l)) index d :: rest ->
      l ∈ seen st ->
      exists st',
        iterateStack st = Some st'
        /\ stack st' = rest
        /\ size st' = add_number (size st) 20
        /\ (sizeLimitReached st' = false ->
            rendered st' = (key, circular_reference, index) :: rendered st
            /\ output st'
               = (if truthy_index index then "," else "")
                 +:+ (if truthy_key key then quote +:+ default "" key +:+ quote +:+ ":" else "")
                 +:+ quote +:+ "[circular reference]" +:+ quote +:+ output st)
        /\ (sizeLimitReached st' = true ->
            rendered st' = rendered st /\ output st' = output st))
  /\ (forall st key l index d rest o,
        stack st = Frame key (Val (Ref l)) index d :: rest ->
        l ∉ seen st ->
        heap !! l = Some o ->
        exists st',
          iterateStack st = Some st'
          /\ forall n st'', steps n st' = Some st'' -> l ∈ seen st'').
Proof.
  split.
  - intros st key l index d rest Hs Hl.
    destruct (seen_round st key l index d rest Hs Hl)
      as (st' & Hit & Hst & _ & Hsize & _ & Hr).
    exists st'. split_and!; try assumption.
    + intros Hf. rewrite Hf in Hr. destruct Hr as [Hr ->]. split; [exact Hr|].
      unfold fragment. rewrite !append_assoc. reflexivity.
    + intros Hf. rewrite Hf in Hr. exact Hr.
  - intros st key l index d rest o Hs Hl Ho.
    destruct (first_round_enters_seen st key l index d rest o Hs Hl Ho)
      as (st' & Hit & Hin).
    exists st'. split; [exact Hit|].
    intros n st'' Hn. apply (steps_seen n st' st'' Hn), Hin.
Qed.

(** C7, as amended.  Every object enters [seen] in the round that pops
    it first, a date, an error and a pattern as well as a sequence and
    a mapping: in that round a date, an error or a pattern renders its
    string form, and in every later round of the same instance it is
    handled as any reference that [seen] has (the token
    [[circular reference]] or nothing).  Functions and primitive values
    never enter [seen]. *)
Theorem every_object_enters_seen {c : closure} :
  (forall st key l index d rest o s,
      stack st = Frame key (Val (Ref l)) index d :: rest ->
      heap !! l = Some o ->
      string_form o = Some s ->
      (l ∉ seen st ->
       exists st',
         iterateStack st = Some st'
         /\ seen st' = {[l]} ∪ seen st
         /\ rendered st' = (key, TStr s, index) :: rendered st)
      /\ (l ∈ seen st ->
          exists st',
            iterateStack st = Some st'
            /\ seen st' = seen st
            /\ (rendered st' = (key, circular_reference, index) :: rendered st
                \/ rendered st' = rendered st)))
  /\ (forall st st' key v index d rest,
        stack st = Frame key (Val v) index d :: rest ->
        (forall l, v <> Ref l) ->
        iterateStack st = Some st' ->
        seen st' = seen st).
Proof.
  split.
  - intros st key l index d rest o s Hs Ho Hform. split; intros Hl.
    + destruct (string_form_round st key l index d rest o s Hs Hl Ho Hform)
        as (st' & Hit & _ & Hseen & Hr & _).
      exists st'. auto.
    + destruct (seen_round st key l index d rest Hs Hl)
        as (st' & Hit & _ & Hseen & _ & _ & Hr).
      exists st'. split; [exact Hit|]. split; [exact Hseen|].
      destruct (sizeLimitReached st'); [right|left]; apply Hr.
  - intros st st' key v index d rest. apply other_round.
Qed.

(** C8, at the input where the code departs from it.  A call with a
    callback returns [output] as it is after the first batch, never
    [undefined]; when the first batch empties the stack, [callback] has
    been called with the same text before the call returns. *)
Theorem callback_call_returns_output {c : closure} (object : value) (r : result)
    (e : effect) (st : state) :
  smartSerialize_callback object = Some (r, e, st) ->
  r = Text (output st)
  /\ r <> Undefined
  /\ match e with
     | Callback arg => arg = output st /\ stack st = []
     | SetTimeout => stack st <> []
     end.
Proof.
  unfold smartSerialize_callback, callbackStack. intros H.
  destruct (batch BATCH_SIZE (initial object)) as [st1|]; [|discriminate].
  injection H as <- <- <-. split; [reflexivity|]. split; [discriminate|].
  destruct (stack st1); [split; reflexivity|discriminate].
Qed.

(** C10.  The key of a mapping goes into the output as it is, between
    two quote characters and before a colon: [escape] is applied to the
    token of a string value only, so a key with a double quote, a
    backslash or a control character is written with them. *)
Theorem keys_are_not_escaped :
  (forall (k : string) (t : token) (index : option nat) (st : state),
      k <> "" ->
      output (render (Some k) t index st)
      = (if truthy_index index then "," else "")
        +:+ quote +:+ k +:+ quote +:+ ":" +:+ token_text t +:+ output st)
  /\ (forall (k : string) (host : string -> Z -> bool),
        k <> "" ->
        @smartSerialize (Closure {[1 := Mapping [(k, Null)]]} Infinity Infinity host) (Ref 1)
        = Some (Text ("{" +:+ quote +:+ k +:+ quote +:+ ":null}"))).
Proof.
  split.
  - intros k t index st Hk. destruct k as [|a k]; [congruence|].
    simpl. unfold fragment. simpl.
    destruct (truthy_index index); rewrite ?append_assoc; reflexivity.
  - intros k host Hk. destruct k as [|a k]; [congruence|].
    vm_compute. rewrite ?append_assoc. reflexivity.
Qed.

(** ** The round trip *)

Lemma height_elements (ts : list tree) (i : nat) :
  Forall (fun t => height t <= String.length (value_text t)) ts ->
  list_max (map height ts) <= String.length (elements_text ts i).
Proof.
  intros H. revert i. induction H as [|t ts Ht _ IH]; intros i; [reflexivity|].
  cbn [map elements_text]. unfold entry_text.
  rewrite !length_append. specialize (IH (S i)). simpl list_max. lia.
Qed.

Lemma height_members (ps : list (string * tree)) (i : nat) :
  Forall (fun p => height p.2 <= String.length (value_text p.2)) ps ->
  list_max (map (fun p => height p.2) ps) <= String.length (members_text ps i).
Proof.
  intros H. revert i. induction H as [|[k t] ps Ht _ IH]; intros i; [reflexivity|].
  cbn [map members_text]. unfold entry_text.
  rewrite !length_append. specialize (IH (S i)). simpl in Ht. simpl list_max. simpl snd. lia.
Qed.

Lemma height_value_text (t : tree) : height t <= String.length (value_text t).
Proof.
  induction t as [|b|text|s|name|l s|l ts IH|l ps IH] using tree_induction;
    try (cbn [height]; lia).
  - rewrite value_text_sequence, !length_append. cbn [height String.length].
    pose proof (height_elements ts 0 IH). lia.
  - rewrite value_text_mapping, !length_append. cbn [height String.length].
    pose proof (height_members ps 0 IH). lia.
Qed.

(** The reader gives back the tree whose text it is given. *)
Lemma JSON_parse_value_text (t : tree) :
  readable t = true -> JSON_parse (value_text t) = Some (json_of t).
Proof.
  intros Hr. unfold JSON_parse.
  rewrite <- (append_empty_r (value_text t)) at 2.
  rewrite (every_tree_reads_back t Hr _ ""
             (proj2 (Nat.lt_succ_r _ _) (height_value_text t)) eq_refl).
  reflexivity.
Qed.

(** With no limit, the call on an input without sharing returns the
    text of its tree. *)
Lemma smartSerialize_value_text {c : closure} (object : value) (t : tree) :
  maxDepth = Infinity ->
  maxSize = Infinity ->
  closed object = true ->
  unfolds object t ->
  NoDup (locs t) ->
  readable t = true ->
  smartSerialize object = Some (Text (value_text t)).
Proof.
  intros Hdepth Hsize Hclosed Hu Hnodup Hr.
  destruct (every_entry_ok Hdepth Hsize t None object None 0 [] (initial object) Hu Hr Hnodup)
    as (st' & [n Hn] & Hstack & Hout & _).
  { split; [reflexivity|]. split; [|reflexivity].
    intros x _. apply not_elem_of_empty. }
  destruct (smartSerialize_returns object Hclosed) as (st'' & Hrun & _ & ->).
  specialize (Hn 0). rewrite Nat.add_0_r in Hn. simpl in Hn. rewrite Hstack in Hn.
  pose proof (run_more_fuel _ (n + rounds (initial object)) _ _ Hn ltac:(lia)) as H1.
  pose proof (run_more_fuel _ (n + rounds (initial object)) _ _ Hrun ltac:(lia)) as H2.
  rewrite H1 in H2. injection H2 as <-.
  rewrite Hout. unfold entry_text. simpl. rewrite append_empty_r. reflexivity.
Qed.

(** C2, as amended.  The inputs are those that unfold to a [tree],
    the values of the data model: [null], booleans, numbers, strings,
    functions, dates, errors, patterns, sequences and mappings of
    them, so nothing in an input is [undefined], the hole of an array
    or a BigInt.  For every such input in which no object is reached
    twice, every mapping has a key, every key is non-empty and free of
    double quotes, backslashes and control characters, and every
    number has the text of a JSON number: the call with
    [maxDepth = maxSize = Infinity] returns a text that a JSON parser
    reads back as the input, numbers by their text and the dates,
    errors, patterns and functions replaced by the strings that stand
    for them. *)
Theorem round_trip {c : closure} (object : value) (t : tree) :
  maxDepth = Infinity ->
  maxSize = Infinity ->
  closed object = true ->
  unfolds object t ->
  NoDup (locs t) ->
  readable t = true ->
  exists s,
    smartSerialize object = Some (Text s)
    /\ JSON_parse s = Some (json_of t).
Proof.
  intros Hdepth Hsize Hclosed Hu Hnodup Hr. exists (value_text t). split.
  - apply smartSerialize_value_text; assumption.
  - apply JSON_parse_value_text, Hr.
Qed.
(** ** More on the escaper *)

Lemma every_escape_shape (a : ascii) : escape_shape a = true.
Proof. destruct a as [[] [] [] [] [] [] [] []]; vm_compute; reflexivity. Qed.

Lemma all_chars_plain_printable (u : string) :
  all_chars plain u = true -> all_chars printable u = true.
Proof.
  induction u as [|a u IH]; [reflexivity|]. cbn [all_chars].
  intros H. apply andb_true_iff in H as [Ha Hu]. rewrite (IH Hu), andb_true_r.
  unfold plain in Ha. apply andb_true_iff in Ha as [Ha _].
  apply andb_true_iff in Ha as [Ha _]. exact Ha.
Qed.

Lemma closes_early_plain (u t : string) :
  all_chars plain u = true -> closes_early (u +:+ t) = closes_early t.
Proof.
  induction u as [|a u IH]; [reflexivity|]. cbn [all_chars].
  intros H. apply andb_true_iff in H as [Ha Hu]. rewrite append_cons.
  cbn [closes_early]. unfold plain in Ha.
  apply andb_true_iff in Ha as [Ha H92]. apply andb_true_iff in Ha as [_ H34].
  apply negb_true_iff in H92, H34. rewrite H92, H34. apply IH, Hu.
Qed.

(** The escape of one character, in front of [t]. *)
Lemma escaped_character_cases (a : ascii) :
  all_chars printable (escaped_character a) = true
  /\ 1 <= String.length (escaped_character a) <= 6
  /\ (String.length (escaped_character a) = 1 <-> ESCAPE_REGEXP a = false)
  /\ forall t, closes_early (escaped_character a +:+ t) = closes_early t.
Proof.
  pose proof (every_escape_shape a) as H. unfold escape_shape in H.
  assert (ESCAPE_REGEXP a = negb (plain a)) as Hre.
  { destruct a as [[] [] [] [] [] [] [] []]; vm_compute; reflexivity. }
  pose proof (replacer_escaped_character a) as Hr. rewrite Hre in Hr.
  destruct (escaped_character a) as [|b [|e u]]; [discriminate| |].
  - apply andb_true_iff in H as [Hab Hp]. apply Ascii.eqb_eq in Hab as <-.
    rewrite Hre, Hp. split; [|split; [simpl; lia|split; [simpl; tauto|]]].
    + cbn [all_chars]. unfold plain in Hp.
      apply andb_true_iff in Hp as [Hp _]. apply andb_true_iff in Hp as [-> _]. reflexivity.
    + intros t. apply (closes_early_plain (String a "") t). cbn [all_chars].
      rewrite Hp. reflexivity.
  - apply andb_true_iff in H as [H Hlen]. apply andb_true_iff in H as [H Hu].
    apply andb_true_iff in H as [Hb He]. apply Nat.leb_le in Hlen.
    apply Nat.eqb_eq in Hb.
    assert (plain a = false) as Hp
      by (destruct (plain a); [discriminate Hr|reflexivity]).
    rewrite Hre, Hp. split; [|split; [|split]].
    + cbn [all_chars]. rewrite He, (all_chars_plain_printable u Hu), andb_true_r.
      unfold printable. rewrite Hb. reflexivity.
    + simpl. lia.
    + simpl. split; [lia|discriminate].
    + intros t. rewrite !append_cons. cbn [closes_early]. rewrite Hb. simpl.
      apply (closes_early_plain u t Hu).
Qed.

Lemma escaped_facts (value : string) :
  all_chars printable (escaped value) = true
  /\ String.length value <= String.length (escaped value) <= 6 * String.length value
  /\ (String.length (escaped value) = String.length value <-> test value = false)
  /\ forall t, closes_early (escaped value +:+ t) = closes_early t.
Proof.
  induction value as [|a rest (IH1 & IH2 & IH3 & IH4)].
  - simpl. split_and!; auto; tauto.
  - destruct (escaped_character_cases a) as (H1 & H2 & H3 & H4).
    cbn [escaped test String.length]. rewrite length_append.
    split; [|split; [|split]].
    + rewrite all_chars_append, H1, IH1. reflexivity.
    + lia.
    + rewrite orb_false_iff, <- H3, <- IH3. lia.
    + intros t. rewrite append_assoc, H4. apply IH4.
Qed.

(** X14.  The escape of a text in pieces is the escapes of the pieces, one
    after the other: [escape] works character by character. *)
Theorem escape_append (s t : string) : escape (s +:+ t) = escape s +:+ escape t.
Proof.
  rewrite !escape_escaped. induction s as [|a s IH]; [reflexivity|].
  rewrite append_cons. cbn [escaped]. rewrite IH, append_assoc. reflexivity.
Qed.

(** X15.  [escape] never shortens a string and makes it at most six times
    as long (a control character becomes six characters); it returns
    the string as it is exactly when no character is a control
    character, a double quote or a backslash. *)
Theorem escape_length (value : string) :
  String.length value <= String.length (escape value) <= 6 * String.length value
  /\ (escape value = value <-> test value = false).
Proof.
  rewrite escape_escaped.
  destruct (escaped_facts value) as (_ & Hlen & Hiff & _).
  split; [exact Hlen|]. split.
  - intros Heq. apply Hiff. rewrite Heq. reflexivity.
  - intros Ht. rewrite <- escape_escaped. unfold escape. rewrite Ht. reflexivity.
Qed.

(** X16.  What [escape] returns holds no control character, and between two
    double quotes it is one string literal: no double quote in it
    comes without a backslash before it and no backslash is left
    alone at the end. *)
Theorem escape_is_one_literal (value : string) :
  all_chars printable (escape value) = true
  /\ closes_early (escape value) = false.
Proof.
  rewrite escape_escaped.
  destruct (escaped_facts value) as (Hp & _ & _ & Hc).
  split; [exact Hp|].
  rewrite <- (append_empty_r (escaped value)). rewrite Hc. reflexivity.
Qed.

(** X17.  Two strings with the same escape are the same string. *)
Theorem escape_injective (s t : string) : escape s = escape t -> s = t.
Proof.
  intros H.
  pose proof (parse_chars_escape s "") as Hs.
  pose proof (parse_chars_escape t "") as Ht.
  rewrite H in Hs. rewrite Hs in Ht. injection Ht as ->. reflexivity.
Qed.
(** ** The call on a root that takes one round *)

Lemma smartSerialize_one_round {c : closure} (object : value) (st' : state) :
  iterateStack (initial object) = Some st' ->
  stack st' = [] ->
  smartSerialize object = Some (Text (output st')).
Proof.
  intros Hit Hs. unfold smartSerialize, rounds. cbn [initial stack length Nat.add run].
  rewrite Hit. destruct (pending _); simpl; rewrite Hs; reflexivity.
Qed.

(** X10.  A root that is no sequence and no mapping is rendered whole,
    whatever [maxDepth] and [maxSize] are: nothing measures the root,
    and [render] asks for no limit.  So is a root string longer than
    [maxSize]. *)
Theorem root_scalar_ignores_limits {c : closure} (object : value) (t : tree) :
  unfolds object t ->
  height t = 0 ->
  smartSerialize object = Some (Text (value_text t)).
Proof.
  intros Hu Hh.
  destruct Hu as [|b|text|s|name|l o s Ho Hform|l vs ts Ho _|l ps ts Ho _];
    try discriminate Hh;
    try (erewrite smartSerialize_one_round by reflexivity; simpl;
         rewrite ?append_empty_r; try destruct b; reflexivity).
  rewrite (smartSerialize_one_round (Ref l)
             (visit None o None 0 (seen_add l (set_stack [] (initial (Ref l)))))).
  - destruct o; try discriminate Hform; injection Hform as ->;
      simpl; rewrite ?append_empty_r; reflexivity.
  - unfold iterateStack. cbn [initial stack set_stack seen].
    destruct (decide (l ∈ (∅ : gset loc))) as [Hin|_]; [set_solver|].
    rewrite Ho. reflexivity.
  - destruct o; try discriminate Hform; reflexivity.
Qed.

Lemma iterateStack_root {c : closure} (l : loc) (o : object) :
  heap !! l = Some o ->
  iterateStack (initial (Ref l))
  = Some (visit None o None 0 (seen_add l (set_stack [] (initial (Ref l))))).
Proof.
  intros Ho. unfold iterateStack. cbn [initial stack set_stack seen].
  destruct (decide (l ∈ (∅ : gset loc))) as [Hin|_]; [set_solver|].
  rewrite Ho. reflexivity.
Qed.

(** X11.  With [maxDepth] at most 0, or [maxSize] below 2, a root sequence
    is rendered as [[]] and a root mapping with a key as [{}]: the
    depth 0 of the root is not below [maxDepth], and the 2 charged for
    the brackets is above [maxSize]. *)
Theorem root_container_collapses {c : closure} (l : loc) (o : object) (e : enclosure) :
  heap !! l = Some o ->
  empty_form o = Some e ->
  (exists m, maxDepth = Finite m /\ (m <= 0)%Z)
  \/ (exists n, maxSize = Finite n /\ (n < 2)%Z) ->
  smartSerialize (Ref l) = Some (Text (getEnclosure e)).
Proof.
  intros Ho He Hlimit.
  rewrite (smartSerialize_one_round (Ref l) _ (iterateStack_root l o Ho)).
  - assert (negb (sizeLimitReached
                    (addSize 2 (seen_add l (set_stack [] (initial (Ref l))))))
            && below 0 = false) as Hno.
    { destruct Hlimit as [(m & Hm & Hle)|(n & Hn & Hlt)].
      - unfold below. rewrite Hm. apply andb_false_iff. right. apply Z.ltb_ge. exact Hle.
      - apply andb_false_iff. left. apply negb_false_iff.
        unfold addSize, set_size, exceeds. simpl. rewrite Hn. apply Z.ltb_lt. exact Hlt. }
    destruct o as [elems|[|p props]| | |]; try discriminate He; injection He as <-;
      unfold visit; rewrite Hno; reflexivity.
  - assert (negb (sizeLimitReached
                    (addSize 2 (seen_add l (set_stack [] (initial (Ref l))))))
            && below 0 = false) as Hno.
    { destruct Hlimit as [(m & Hm & Hle)|(n & Hn & Hlt)].
      - unfold below. rewrite Hm. apply andb_false_iff. right. apply Z.ltb_ge. exact Hle.
      - apply andb_false_iff. left. apply negb_false_iff.
        unfold addSize, set_size, exceeds. simpl. rewrite Hn. apply Z.ltb_lt. exact Hlt. }
    destruct o as [elems|[|p props]| | |]; try discriminate He;
      unfold visit; rewrite Hno; reflexivity.
Qed.

(** X12.  An object with no key of its own is rendered as nothing: the call
    on it returns the empty string, not [{}], whatever the limits. *)
Theorem root_without_keys_is_empty_text {c : closure} (l : loc) :
  heap !! l = Some (Mapping []) ->
  smartSerialize (Ref l) = Some (Text "").
Proof.
  intros Ho.
  rewrite (smartSerialize_one_round (Ref l) _ (iterateStack_root l _ Ho)); reflexivity.
Qed.
(** ** What the stack holds *)

Section frames.

Context {c : closure}.

Lemma element_frames_take (k : nat) (elems : list value) (i d : nat) :
  element_frames (take k elems) i d = take k (element_frames elems i d).
Proof.
  revert k i. induction elems as [|v elems IH]; intros [|k] i; try reflexivity.
  simpl. rewrite IH. reflexivity.
Qed.

Lemma member_frames_take (k : nat) (props : list (string * value)) (i d : nat) :
  member_frames (take k props) i d = take k (member_frames props i d).
Proof.
  revert k i. induction props as [|[key v] props IH]; intros [|k] i; try reflexivity.
  simpl. rewrite IH. reflexivity.
Qed.

Lemma length_element_frames (elems : list value) (i d : nat) :
  length (element_frames elems i d) = length elems.
Proof. revert i. induction elems as [|v elems IH]; intros i; simpl; auto. Qed.

Lemma length_member_frames (props : list (string * value)) (i d : nat) :
  length (member_frames props i d) = length props.
Proof. revert i. induction props as [|[k v] props IH]; intros i; simpl; auto. Qed.

(** The [for] loop pushes the frames of the first [k] elements, and
    stops short of the last only with the flag set. *)
Lemma push_elements_prefix (elems : list value) (i d : nat) (st : state) :
  exists k,
    k <= length elems
    /\ stack (push_elements elems i d st)
       = rev (take k (element_frames elems i d)) ++ stack st
    /\ (k < length elems -> sizeLimitReached (push_elements elems i d st) = true).
Proof.
  revert i st. induction elems as [|v elems IH]; intros i st.
  - exists 0. simpl. split_and!; auto. lia.
  - cbn [push_elements element_frames].
    destruct (sizeLimitReached (measureSize v st)) eqn:Hflag.
    + destruct (push_elements_pushed elems (S i) d (measureSize v st))
        as (fs & (Hs & _ & _ & _ & Hf & _) & _).
      destruct (Hf Hflag) as [Hflag' ->].
      destruct (measureSize_pushed v st) as (Hs1 & _).
      exists 0. simpl. split_and!; [lia|rewrite Hs; simpl; rewrite ?Hs1; reflexivity|auto].
    + destruct (IH (S i) (push (Frame None (Val v) (Some i) (S d)) (measureSize v st)))
        as (k & Hk & Hs & Hf).
      destruct (measureSize_pushed v st) as (Hs1 & _).
      exists (S k). simpl. split_and!; [lia| |intros; apply Hf; lia].
      rewrite Hs. simpl. rewrite ?Hs1, <- app_assoc. reflexivity.
Qed.

Lemma push_props_prefix (props : list (string * value)) (i d : nat) (st : state) :
  exists k,
    k <= length props
    /\ stack (push_props props i d st)
       = rev (take k (member_frames props i d)) ++ stack st
    /\ (k < length props -> sizeLimitReached (push_props props i d st) = true).
Proof.
  revert i st. induction props as [|[key v] props IH]; intros i st.
  - exists 0. simpl. split_and!; auto. lia.
  - cbn [push_props member_frames].
    assert (pushed [] st (addSize (Z.of_nat (String.length key) + 3) st)) as Ha
      by (apply addSize_pushed; lia).
    set (st1 := addSize (Z.of_nat (String.length key) + 3) st) in *.
    assert (pushed [] st (if sizeLimitReached st1 then st1 else measureSize v st1)) as Hm.
    { destruct (sizeLimitReached st1); [exact Ha|].
      apply (pushed_trans [] [] st st1); [exact Ha|apply measureSize_pushed]. }
    set (st2 := if sizeLimitReached st1 then st1 else measureSize v st1) in *.
    destruct Hm as (Hs2 & _).
    destruct (sizeLimitReached st2) eqn:Hflag.
    + destruct (push_props_pushed props (S i) d st2)
        as (fs & (Hs & _ & _ & _ & Hf & _) & _).
      destruct (Hf Hflag) as [Hflag' ->].
      exists 0. simpl. split_and!; [lia|rewrite Hs; simpl; rewrite ?Hs2; reflexivity|auto].
    + destruct (IH (S i) (push (Frame (Some key) (Val v) (Some i) (S d)) st2))
        as (k & Hk & Hs & Hf).
      exists (S k). simpl. split_and!; [lia| |intros; apply Hf; lia].
      rewrite Hs. simpl. rewrite ?Hs2, <- app_assoc. reflexivity.
Qed.

(** What [visit] leaves on the stack. *)
Lemma visit_frames (key : option string) (o : object) (index : option nat)
    (d : nat) (st : state) :
  stack (visit key o index d st) = stack st
  \/ (below d = true
      /\ sizeLimitReached (addSize 2 st) = false
      /\ exists k,
          k <= length (child_frames o d)
          /\ stack (visit key o index d st)
             = Frame None (Enc (closing o)) None d
                 :: rev (take k (child_frames o d))
                 ++ Frame key (Enc (opening o)) index d :: stack st
          /\ (k < length (child_frames o d) ->
              sizeLimitReached (visit key o index d st) = true)).
Proof.
  destruct o as [elems|[|p props]|iso|s|s]; unfold visit; try (left; reflexivity).
  2: remember (p :: props) as ps eqn:Hps.
  all: destruct (sizeLimitReached (addSize 2 st)) eqn:Hflag; [left; reflexivity|].
  all: destruct (below d) eqn:Hd; [|left; reflexivity].
  all: right; split; [reflexivity|]; split; [reflexivity|]; cbn [negb andb].
  - destruct (push_elements_prefix elems 0 d
                (push (Frame key (Enc LEFT_BRACKET) index d) (addSize 2 st)))
      as (k & Hk & Hs & Hf).
    exists k. cbn [child_frames closing opening]. rewrite length_element_frames.
    split; [exact Hk|]. split; [|exact Hf].
    cbn [push set_stack stack]. rewrite Hs. reflexivity.
  - destruct (push_props_prefix ps 0 d
                (push (Frame key (Enc LEFT_BRACE) index d) (addSize 2 st)))
      as (k & Hk & Hs & Hf).
    exists k. cbn [child_frames closing opening]. rewrite length_member_frames.
    split; [exact Hk|]. split; [|exact Hf].
    cbn [push set_stack stack]. rewrite Hs. reflexivity.
Qed.

Lemma depth_element_frames (elems : list value) (i d : nat) :
  Forall (fun f => depth f = S d) (element_frames elems i d).
Proof. revert i. induction elems as [|v elems IH]; intros i; constructor; auto. Qed.

Lemma depth_member_frames (props : list (string * value)) (i d : nat) :
  Forall (fun f => depth f = S d) (member_frames props i d).
Proof. revert i. induction props as [|[k v] props IH]; intros i; constructor; auto. Qed.

Lemma depth_child_frames (o : object) (d : nat) :
  Forall (fun f => depth f = S d) (child_frames o d).
Proof.
  destruct o; simpl; auto using depth_element_frames, depth_member_frames.
Qed.

Lemma within_child (d : nat) : below d = true -> within d -> within (S d).
Proof.
  unfold below, within. destruct maxDepth as [m|]; [|trivial].
  intros H _. apply Z.ltb_lt in H. lia.
Qed.

(** One round keeps every frame within [maxDepth]. *)
Lemma iterateStack_within (st st' : state) :
  iterateStack st = Some st' ->
  Forall (fun f => within (depth f)) (stack st) ->
  Forall (fun f => within (depth f)) (stack st').
Proof.
  intros Hit Hall. apply iterateStack_cases in Hit
    as (key & p & index & d & rest & Hst
        & [(t & Ht & ->)|[(name & -> & ->)|[(l & -> & Hl & ->)|(l & o & -> & Hl & Ho & ->)]]]).
  all: rewrite Hst in Hall; apply Forall_cons in Hall as [Hd Hrest]; simpl in Hd.
  - rewrite (proj1 (leaf_stack key t index (set_stack rest st))). exact Hrest.
  - exact Hrest.
  - cbn zeta. destruct (sizeLimitReached _); exact Hrest.
  - destruct (visit_frames key o index d (seen_add l (set_stack rest st)))
      as [->|(Hb & _ & k & _ & -> & _)]; [exact Hrest|].
    constructor; [exact Hd|]. apply Forall_app. split.
    + apply Forall_rev. eapply Forall_impl.
      * apply Forall_take, depth_child_frames.
      * intros f ->. apply within_child; assumption.
    + constructor; [exact Hd|exact Hrest].
Qed.

End frames.

(** X5.  When a sequence or a mapping is expanded, the frames pushed
    between its two symbols are those of its first [k] children, in
    their order; all the children, unless the size limit was reached.
    The size limit cuts the tail of the children and skips none in
    the middle. *)
Theorem expansion_pushes_a_prefix {c : closure} (st : state) (key : option string)
    (l : loc) (index : option nat) (d : nat) (rest : list frame) (o : object) :
  stack st = Frame key (Val (Ref l)) index d :: rest ->
  l ∉ seen st ->
  heap !! l = Some o ->
  exists st',
    iterateStack st = Some st'
    /\ (stack st' = rest
        \/ exists k,
            k <= length (children o)
            /\ stack st'
               = Frame None (Enc (closing o)) None d
                   :: rev (take k (child_frames o d))
                   ++ Frame key (Enc (opening o)) index d :: rest
            /\ (sizeLimitReached st' = false -> k = length (children o))).
Proof.
  intros Hs Hl Ho. eexists. split.
  - apply (iterateStack_unseen st key l index d rest o Hs Hl Ho).
  - destruct (visit_frames key o index d (seen_add l (set_stack rest st)))
      as [->|(_ & _ & k & Hk & -> & Hf)]; [left; reflexivity|right].
    assert (length (child_frames o d) = length (children o)) as Hlen.
    { destruct o; simpl; rewrite ?length_element_frames, ?length_member_frames,
        ?length_map; reflexivity. }
    rewrite Hlen in *. exists k. split; [exact Hk|]. split; [reflexivity|].
    intros Hflag. destruct (decide (k < length (children o))) as [Hlt|Hge]; [|lia].
    rewrite (Hf Hlt) in Hflag. discriminate.
Qed.

(** X6.  No frame is ever deeper than [maxDepth] (than 0, when [maxDepth]
    is negative): whatever the input, the stack of every round holds
    frames of depth at most [maxDepth]. *)
Theorem stack_within_maxDepth {c : closure} (n : nat) (object : value) (st : state) :
  steps n (initial object) = Some st ->
  Forall (fun f => within (depth f)) (stack st).
Proof.
  assert (forall st0, Forall (fun f => within (depth f)) (stack st0) ->
            steps n st0 = Some st -> Forall (fun f => within (depth f)) (stack st))
    as Hgen.
  { induction n as [|n IH]; intros st0 Hall Hn; simpl in Hn.
    - injection Hn as <-. exact Hall.
    - destruct (iterateStack st0) as [st1|] eqn:Hit; [|discriminate].
      apply (IH st1); [|exact Hn]. apply (iterateStack_within st0 st1 Hit Hall). }
  apply Hgen. constructor; [|constructor].
  unfold within. simpl. destruct maxDepth; [lia|exact I].
Qed.

(** ** What the counter and the flag hold *)

Section counter.

Context {c : closure}.

(** A property of the state that the steps of a round keep is kept
    by the round. *)
Lemma iterateStack_preserves (P : state -> Prop) :
  (forall st fs, P st -> P (set_stack fs st)) ->
  (forall st l, P st -> P (seen_add l st)) ->
  (forall st key t index, P st -> P (render key t index st)) ->
  (forall st n, (0 <= n)%Z -> P st -> P (addSize n st)) ->
  (forall st v, P st -> P (measureSize v st)) ->
  forall st st', iterateStack st = Some st' -> P st -> P st'.
Proof.
  intros Hstack Hseen Hrender Hadd Hmeasure.
  assert (forall st f, P st -> P (push f st)) as Hpush
    by (intros; apply Hstack; assumption).
  assert (forall elems i d st, P st -> P (push_elements elems i d st)) as Helems.
  { induction elems as [|v elems IH]; intros i d st HP; [exact HP|].
    cbn [push_elements]. apply IH. destruct (sizeLimitReached _); auto. }
  assert (forall props i d st, P st -> P (push_props props i d st)) as Hprops.
  { induction props as [|[k v] props IH]; intros i d st HP; [exact HP|].
    cbn [push_props]. apply IH.
    assert (P (addSize (Z.of_nat (String.length k) + 3) st)) as H1 by (apply Hadd; [lia|exact HP]).
    set (st1 := addSize _ st) in *.
    assert (P (if sizeLimitReached st1 then st1 else measureSize v st1)) as H2
      by (destruct (sizeLimitReached st1); auto).
    destruct (sizeLimitReached (if sizeLimitReached st1 then st1 else measureSize v st1));
      auto. }
  assert (forall key t index st, P st -> P (leaf key t index st)) as Hleaf.
  { intros key t index st HP. unfold leaf.
    destruct (truthy_index index); [apply Hadd; [lia|]|]; apply Hrender, HP. }
  intros st st' Hit HP. apply iterateStack_cases in Hit
    as (key & p & index & d & rest & Hst
        & [(t & Ht & ->)|[(name & -> & ->)|[(l & -> & Hl & ->)|(l & o & -> & Hl & Ho & ->)]]]).
  - apply Hleaf, Hstack, HP.
  - apply Hrender, Hstack, HP.
  - cbv zeta. assert (P (addSize 20 (set_stack rest st))) as H20
      by (apply Hadd; [lia|apply Hstack, HP]).
    destruct (sizeLimitReached _); [exact H20|apply Hrender, H20].
  - assert (P (seen_add l (set_stack rest st))) as H0 by (apply Hseen, Hstack, HP).
    set (st0 := seen_add l (set_stack rest st)) in *.
    assert (P (addSize 2 st0)) as H2 by (apply Hadd; [lia|exact H0]).
    destruct o as [elems|[|q props]|iso|s|s]; unfold visit; auto.
    + destruct (negb _ && below d); auto.
    + destruct (negb _ && below d); auto.
Qed.

Lemma steps_preserves (P : state -> Prop) :
  (forall st st', iterateStack st = Some st' -> P st -> P st') ->
  forall n st st', steps n st = Some st' -> P st -> P st'.
Proof.
  intros Hstep. induction n as [|n IH]; intros st st' Hn HP; simpl in Hn.
  - injection Hn as <-. exact HP.
  - destruct (iterateStack st) as [st1|] eqn:Hit; [|discriminate].
    apply (IH st1 st' Hn). apply (Hstep st st1 Hit HP).
Qed.

End counter.

(** X8.  With no error and no pattern in the store, [size] stays a number
    that is not negative: only [size += value.toString()] makes it a
    string. *)
Theorem size_stays_a_number {c : closure} (n : nat) (object : value) (st : state) :
  (forall l o, heap !! l = Some o -> forall s, o <> ErrorLike s /\ o <> Pattern s) ->
  steps n (initial object) = Some st ->
  exists k, size st = CNum k /\ (0 <= k)%Z.
Proof.
  intros Hheap Hn.
  set (P := fun st0 : state => exists k, size st0 = CNum k /\ (0 <= k)%Z).
  apply (steps_preserves P) with (n := n) (st := initial object);
    [|exact Hn|exists 0%Z; split; [reflexivity|lia]].
  apply iterateStack_preserves; unfold P; try (intros; assumption).
  - intros st0 m Hm (k & Hk & Hpos). exists (k + m)%Z.
    unfold addSize. simpl. rewrite Hk. simpl. split; [reflexivity|lia].
  - intros st0 v (k & Hk & Hpos). rewrite (measureSize_charges v k st0 Hk).
    destruct v as [|[]|text|s|name|l| |big]; try (eexists; split; [reflexivity|lia]).
    destruct (heap !! l) as [[]|] eqn:Ho; try (eexists; split; [reflexivity|lia]).
    + destruct (Hheap _ _ Ho str) as [H1 H2]. congruence.
    + destruct (Hheap _ _ Ho str) as [H1 H2]. congruence.
Qed.

(** X7.  While [sizeLimitReached] is unset, [size] is not above [maxSize]:
    the flag is set by the very addition that takes [size] above the
    limit ([maxSize] is taken not to be negative, as [size] starts at
    0 with the flag unset). *)
Theorem flag_is_set_in_time {c : closure} (n : nat) (object : value) (st : state) :
  exceeds (CNum 0) = false ->
  steps n (initial object) = Some st ->
  sizeLimitReached st = false ->
  exceeds (size st) = false.
Proof.
  intros H0 Hn.
  assert (forall x st0, sizeLimitReached (set_size x st0) = false ->
            exceeds (size (set_size x st0)) = false) as Hset.
  { intros x st0 H. unfold set_size in *. simpl in *.
    apply orb_false_iff in H as [_ H]. exact H. }
  set (P := fun st0 : state => sizeLimitReached st0 = false -> exceeds (size st0) = false).
  apply (steps_preserves P) with (n := n) (st := initial object);
    [|exact Hn|intros _; exact H0].
  apply iterateStack_preserves; unfold P; try (intros; auto; fail).
  - intros st0 m _ _. apply Hset.
  - intros st0 v _. apply Hset.
Qed.

Lemma steps_output {c : closure} (n : nat) (st st' : state) :
  steps n st = Some st' ->
  exists text, output st' = text +:+ output st.
Proof.
  revert st. induction n as [|n IH]; intros st Hn; simpl in Hn.
  - injection Hn as <-. exists "". reflexivity.
  - destruct (iterateStack st) as [st1|] eqn:Hit; [|discriminate].
    destruct (IH st1 Hn) as [text ->].
    destruct (iterateStack_effect st st1 Hit) as (_ & _ & _ & rs & _ & _ & _ & -> & _).
    exists (text +:+ rendered_text rs). rewrite append_assoc. reflexivity.
Qed.

(** X9.  [output] is only ever added to in front: after any number of
    rounds it is the text of what those rounds rendered, latest
    first, followed by what it held before.  What one batch has
    written, the next batches leave as it is. *)
Theorem output_grows_in_front {c : closure} (n : nat) (st st' : state) :
  steps n st = Some st' ->
  exists rs,
    rendered st' = rs ++ rendered st
    /\ output st' = rendered_text rs +:+ output st.
Proof.
  revert st. induction n as [|n IH]; intros st Hn; simpl in Hn.
  - injection Hn as <-. exists []. split; reflexivity.
  - destruct (iterateStack st) as [st1|] eqn:Hit; [|discriminate].
    destruct (IH st1 Hn) as (rs2 & Hr2 & Ho2).
    destruct (iterateStack_effect st st1 Hit) as (_ & _ & _ & rs1 & _ & _ & Hr1 & Ho1 & _).
    exists (rs2 ++ rs1). rewrite Hr2, Ho2, Hr1, Ho1, app_assoc. split; [reflexivity|].
    assert (rendered_text (rs2 ++ rs1) = rendered_text rs2 +:+ rendered_text rs1) as ->.
    { clear. induction rs2 as [|[[k t] i] rs2 IH]; [reflexivity|].
      simpl. rewrite IH, append_assoc. reflexivity. }
    symmetry. apply append_assoc.
Qed.
(** ** The callback mode *)

Section batches.

Context {c : closure}.

Lemma run_empty (fuel : nat) (st : state) : stack st = [] -> run fuel st = Some st.
Proof. intros Hs. destruct fuel; simpl; rewrite Hs; reflexivity. Qed.

Lemma run_deterministic (fuel1 fuel2 : nat) (st st1 st2 : state) :
  run fuel1 st = Some st1 -> run fuel2 st = Some st2 -> st1 = st2.
Proof.
  intros H1 H2.
  apply (run_more_fuel _ (fuel1 + fuel2)) in H1; [|lia].
  apply (run_more_fuel _ (fuel1 + fuel2)) in H2; [|lia].
  congruence.
Qed.

Lemma rounds_positive (st : state) : stack st <> [] -> 0 < rounds st.
Proof. unfold rounds. destruct (stack st); [congruence|simpl; lia]. Qed.

(** The rounds of a batch are rounds of the loop. *)
Lemma batch_run (n : nat) (st st' : state) :
  batch n st = Some st' ->
  forall fuel final, run fuel st' = Some final -> run (n + fuel) st = Some final.
Proof.
  revert st. induction n as [|n IH]; intros st Hb fuel final Hrun.
  - simpl in Hb. destruct (stack st); injection Hb as <-; exact Hrun.
  - simpl in Hb. cbn [Nat.add run]. destruct (stack st) as [|f fs] eqn:Hs.
    + injection Hb as <-. rewrite (run_empty fuel st Hs) in Hrun. exact Hrun.
    + destruct (iterateStack st) as [st1|]; [|discriminate].
      apply (IH st1 Hb fuel final Hrun).
Qed.

Lemma batch_steps (n : nat) (st st' : state) :
  batch n st = Some st' -> exists k, steps k st = Some st'.
Proof.
  revert st. induction n as [|n IH]; intros st Hb; simpl in Hb.
  - exists 0. destruct (stack st); exact Hb.
  - destruct (stack st) as [|f fs]; [exists 0; exact Hb|].
    destruct (iterateStack st) as [st1|] eqn:Hit; [|discriminate].
    destruct (IH st1 Hb) as [k Hk]. exists (S k). simpl. rewrite Hit. exact Hk.
Qed.

Lemma run_steps (fuel : nat) (st st' : state) :
  run fuel st = Some st' -> exists k, steps k st = Some st'.
Proof.
  revert st. induction fuel as [|fuel IH]; intros st Hrun; simpl in Hrun.
  - exists 0. destruct (stack st); [exact Hrun|discriminate].
  - destruct (stack st) as [|f fs]; [exists 0; exact Hrun|].
    destruct (iterateStack st) as [st1|] eqn:Hit; [|discriminate].
    destruct (IH st1 Hrun) as [k Hk]. exists (S k). simpl. rewrite Hit. exact Hk.
Qed.

(** On a closed stack a batch returns, and it stops early only on an
    empty stack. *)
Lemma batch_returns (n : nat) (st : state) :
  closed_heap ->
  forallb closed_frame (stack st) = true ->
  exists st',
    batch n st = Some st'
    /\ forallb closed_frame (stack st') = true
    /\ (stack st' = [] \/ rounds st' + n <= rounds st).
Proof.
  intros Hheap. revert st. induction n as [|n IH]; intros st Hclosed.
  - exists st. simpl. destruct (stack st); split_and!; auto with lia.
  - destruct (stack st) as [|f fs] eqn:Hs.
    { exists st. simpl. rewrite Hs. auto. }
    rewrite <- Hs in Hclosed.
    destruct (iterateStack_progress st Hheap Hclosed) as (st1 & Hit & Hc1 & Hlt).
    { rewrite Hs. discriminate. }
    destruct (IH st1 Hc1) as (st' & Hb & Hc' & Hr).
    exists st'. simpl. rewrite Hs, Hit. split; [exact Hb|]. split; [exact Hc'|].
    destruct Hr as [Hr|Hr]; [left; exact Hr|right; lia].
Qed.

(** The timers end with the call of [callback] on the text that the
    loop ends with. *)
Lemma timers_finish (fuel : nat) (st final : state) (k : nat) :
  closed_heap ->
  forallb closed_frame (stack st) = true ->
  (stack st <> [] -> rounds st <= fuel * BATCH_SIZE) ->
  run k st = Some final ->
  timers fuel (effect_of st) st = Some (output final).
Proof.
  intros Hheap. revert st k. induction fuel as [|fuel IH]; intros st k Hclosed Hfuel Hrun.
  - unfold effect_of. destruct (stack st) as [|f fs] eqn:Hs.
    + rewrite (run_empty k st Hs) in Hrun. injection Hrun as <-. reflexivity.
    + assert (stack st <> []) as Hne by (rewrite Hs; discriminate).
      pose proof (rounds_positive st Hne).
      assert (rounds st <= 0 * BATCH_SIZE) by (apply Hfuel; discriminate). lia.
  - unfold effect_of. destruct (stack st) as [|f fs] eqn:Hs.
    + rewrite (run_empty k st Hs) in Hrun. injection Hrun as <-. reflexivity.
    + cbn [timers]. unfold callbackStack. rewrite <- Hs in Hclosed.
      destruct (batch_returns BATCH_SIZE st Hheap Hclosed) as (st' & Hb & Hc' & Hr).
      rewrite Hb.
      destruct (run_terminates (rounds st') st' Hheap Hc' (le_n _)) as [final' Hrun'].
      pose proof (batch_run _ _ _ Hb _ _ Hrun') as Hrun2.
      rewrite (run_deterministic _ _ _ _ _ Hrun2 Hrun) in Hrun'.
      apply (IH st' (rounds st') Hc'); [|exact Hrun'].
      intros Hne. destruct Hr as [Hr|Hr]; [contradiction|].
      assert (rounds st <= S fuel * BATCH_SIZE) by (apply Hfuel; discriminate). lia.
Qed.

End batches.

(** X2.  The call with a callback ends by handing [callback] the string
    that the call without one returns, after at most one timer for
    every 10000 rounds; with at most 10000 rounds to make there is no
    timer, and [callback] is called before the call returns.  What
    the call itself returns is the end of that string: the output of
    the first batch. *)
Theorem callback_gets_the_result {c : closure} (object : value) :
  closed object = true ->
  exists s s0 e st,
    smartSerialize object = Some (Text s)
    /\ smartSerialize_callback object = Some (Text s0, e, st)
    /\ timers (rounds (initial object) / BATCH_SIZE) e st = Some s
    /\ (exists text, s = text +:+ s0)
    /\ (rounds (initial object) <= BATCH_SIZE -> e = Callback s).
Proof.
  intros Hclosed.
  destruct (smartSerialize_returns object Hclosed) as (final & Hrun & Hempty & Hret).
  apply closed_initial in Hclosed as [Hheap Hstack].
  destruct (batch_returns BATCH_SIZE (initial object) Hheap Hstack) as (st & Hb & Hc & Hr).
  destruct (run_terminates (rounds st) st Hheap Hc (le_n _)) as [final' Hrun'].
  pose proof (batch_run _ _ _ Hb _ _ Hrun') as Hrun2.
  pose proof (run_deterministic _ _ _ _ _ Hrun2 Hrun) as ->.
  exists (output final), (output st), (effect_of st), st.
  split; [exact Hret|]. split.
  { unfold smartSerialize_callback, callbackStack. rewrite Hb. reflexivity. }
  assert (0 < BATCH_SIZE) as HB by (unfold BATCH_SIZE; lia).
  split; [|split].
  - apply (timers_finish _ st final (rounds st) Hheap Hc); [|exact Hrun'].
    intros Hne. destruct Hr as [Hr|Hr]; [contradiction|].
    pose proof (Nat.div_mod_eq (rounds (initial object)) BATCH_SIZE) as Hdiv.
    pose proof (Nat.mod_upper_bound (rounds (initial object)) BATCH_SIZE) as Hmod.
    nia.
  - destruct (run_steps _ _ _ Hrun') as [k Hk].
    apply (steps_output k st final Hk).
  - intros Hle. unfold effect_of. destruct Hr as [Hr|Hr].
    + rewrite Hr. rewrite (run_empty _ st Hr) in Hrun'. injection Hrun' as <-. reflexivity.
    + destruct (stack st) as [|f fs] eqn:Hs.
      * rewrite (run_empty _ st Hs) in Hrun'. injection Hrun' as <-. reflexivity.
      * assert (stack st <> []) as Hne by (rewrite Hs; discriminate).
        pose proof (rounds_positive st Hne). lia.
Qed.
(** ** A size limit that is not reached *)

Section unreached.

Variable h : gmap loc object.
Variable d s : limit.
Variable gt : string -> Z -> bool.

(** The call with the limit [s] on the size, and the call with none. *)
Let limited : closure := Closure h d s gt.
Let free : closure := Closure h d Infinity gt.

Lemma set_size_free (x : counter) (st : state) :
  sizeLimitReached (@set_size limited x st) = false ->
  @set_size free x st = @set_size limited x st.
Proof.
  unfold set_size. cbn [sizeLimitReached]. intros H.
  apply orb_false_iff in H as [-> ->]. reflexivity.
Qed.

Lemma addSize_free (n : Z) (st : state) :
  sizeLimitReached (@addSize limited n st) = false ->
  @addSize free n st = @addSize limited n st.
Proof. apply set_size_free. Qed.

Lemma measureSize_free (v : value) (st : state) :
  sizeLimitReached (@measureSize limited v st) = false ->
  @measureSize free v st = @measureSize limited v st.
Proof. apply set_size_free. Qed.

Lemma pushed_flag (fs : list frame) (st st' : state) :
  pushed fs st st' -> sizeLimitReached st' = false -> sizeLimitReached st = false.
Proof.
  intros (_ & _ & _ & _ & Hf & _) H'.
  destruct (sizeLimitReached st); [|reflexivity].
  destruct (Hf eq_refl) as [H _]. congruence.
Qed.

Lemma push_elements_free (elems : list value) (i depth : nat) (st : state) :
  sizeLimitReached (@push_elements limited elems i depth st) = false ->
  @push_elements free elems i depth st = @push_elements limited elems i depth st.
Proof.
  revert i st. induction elems as [|v elems IH]; intros i st Hflag; [reflexivity|].
  cbn [push_elements] in *.
  set (st2 := if sizeLimitReached (@measureSize limited v st)
              then @measureSize limited v st
              else push (Frame None (Val v) (Some i) (S depth)) (@measureSize limited v st))
    in *.
  destruct (@push_elements_pushed limited elems (S i) depth st2) as (fs & Hp & _).
  pose proof (pushed_flag _ _ _ Hp Hflag) as H2.
  assert (sizeLimitReached (@measureSize limited v st) = false) as H1.
  { destruct (sizeLimitReached (@measureSize limited v st)) eqn:E; [|reflexivity].
    subst st2. rewrite E in H2. congruence. }
  rewrite (measureSize_free v st H1). fold st2. apply IH, Hflag.
Qed.

Lemma push_props_free (props : list (string * value)) (i depth : nat) (st : state) :
  sizeLimitReached (@push_props limited props i depth st) = false ->
  @push_props free props i depth st = @push_props limited props i depth st.
Proof.
  revert i st. induction props as [|[k v] props IH]; intros i st Hflag; [reflexivity|].
  cbn [push_props] in *.
  set (n := (Z.of_nat (String.length k) + 3)%Z) in *.
  set (st1 := @addSize limited n st) in *.
  set (st2 := if sizeLimitReached st1 then st1 else @measureSize limited v st1) in *.
  set (st3 := if sizeLimitReached st2 then st2
              else push (Frame (Some k) (Val v) (Some i) (S depth)) st2) in *.
  destruct (@push_props_pushed limited props (S i) depth st3) as (fs & Hp & _).
  pose proof (pushed_flag _ _ _ Hp Hflag) as H3.
  assert (sizeLimitReached st2 = false) as H2.
  { destruct (sizeLimitReached st2) eqn:E; [|reflexivity].
    subst st3. rewrite E in H3. congruence. }
  assert (sizeLimitReached st1 = false) as H1.
  { destruct (sizeLimitReached st1) eqn:E; [|reflexivity].
    subst st2. rewrite E in H2. congruence. }
  rewrite (addSize_free n st H1). fold st1. rewrite H1.
  assert (st2 = @measureSize limited v st1) as E2 by (subst st2; rewrite H1; reflexivity).
  rewrite (measureSize_free v st1) by (rewrite <- E2; exact H2).
  rewrite <- E2. fold st3. apply IH, Hflag.
Qed.

Lemma visit_free (key : option string) (o : object) (index : option nat)
    (depth : nat) (st : state) :
  sizeLimitReached (@visit limited key o index depth st) = false ->
  @visit free key o index depth st = @visit limited key o index depth st.
Proof.
  destruct o as [elems|[|p props]|iso|str|str]; try reflexivity; unfold visit.
  2: remember (p :: props) as ps eqn:Hps.
  all: change (@below free depth) with (@below limited depth).
  all: destruct (sizeLimitReached (@addSize limited 2 st)) eqn:H2;
    [intros H; cbn [negb andb render sizeLimitReached] in H; congruence|].
  all: rewrite (addSize_free 2 st H2), H2.
  all: destruct (@below limited depth); cbn [negb andb]; [|reflexivity].
  all: cbn [push set_stack sizeLimitReached]; intros H.
  - rewrite push_elements_free by exact H. reflexivity.
  - rewrite push_props_free by exact H. reflexivity.
Qed.

Lemma leaf_free (key : option string) (t : token) (index : option nat) (st : state) :
  sizeLimitReached (@leaf limited key t index st) = false ->
  @leaf free key t index st = @leaf limited key t index st.
Proof.
  unfold leaf. destruct (truthy_index index); [|reflexivity]. apply addSize_free.
Qed.

(** A round that leaves the flag unset is the same round with no limit. *)
Lemma iterateStack_free (st st' : state) :
  @iterateStack limited st = Some st' ->
  sizeLimitReached st' = false ->
  @iterateStack free st = Some st'.
Proof.
  unfold iterateStack. destruct (stack st) as [|[key p index depth] rest]; [discriminate|].
  destruct p as [[|b|text|str|name|l| |big]|e]; intros H Hflag;
    try (injection H as <-; rewrite leaf_free by exact Hflag; reflexivity);
    try exact H.
  case_decide as Hseen.
  - cbv zeta in H |- *.
    remember (@addSize limited 20 (set_stack rest st)) as st1 eqn:E1.
    assert (sizeLimitReached st1 = false) as H20.
    { destruct (sizeLimitReached st1) eqn:E; [|reflexivity].
      injection H as <-. congruence. }
    rewrite addSize_free by (rewrite <- E1; exact H20).
    rewrite <- E1. exact H.
  - change (@heap free) with (@heap limited).
    destruct (@heap limited !! l) as [o|]; [|discriminate].
    injection H as <-. rewrite visit_free by exact Hflag. reflexivity.
Qed.

Lemma run_free (fuel : nat) (st st' : state) :
  @run limited fuel st = Some st' ->
  sizeLimitReached st' = false ->
  @run free fuel st = Some st'.
Proof.
  revert st. induction fuel as [|fuel IH]; intros st Hrun Hflag; simpl in *.
  - exact Hrun.
  - destruct (stack st) as [|f fs]; [exact Hrun|].
    destruct (@iterateStack limited st) as [st1|] eqn:Hit; [|discriminate].
    assert (sizeLimitReached st1 = false) as H1.
    { destruct (sizeLimitReached st1) eqn:H1; [|reflexivity].
      destruct (@run_steps limited _ _ _ Hrun) as [k Hk].
      rewrite (@steps_sticky limited k st1 st' Hk H1) in Hflag. discriminate. }
    rewrite (iterateStack_free st st1 Hit H1). apply IH; assumption.
Qed.

End unreached.

(** X3.  A size limit that is not reached changes nothing: when the call
    ends with [sizeLimitReached] unset, it returns what the call with
    [maxSize = Infinity] returns on the same input. *)
Theorem unreached_maxSize_changes_nothing (h : gmap loc object) (d s : limit)
    (gt : string -> Z -> bool) (object : value) (st : state) :
  @run (Closure h d s gt) (@rounds (Closure h d s gt) (initial object)) (initial object)
  = Some st ->
  sizeLimitReached st = false ->
  @smartSerialize (Closure h d s gt) object = Some (Text (output st))
  /\ @smartSerialize (Closure h d Infinity gt) object = Some (Text (output st)).
Proof.
  intros Hrun Hflag. split.
  - unfold smartSerialize. rewrite Hrun. reflexivity.
  - unfold smartSerialize.
    change (@rounds (Closure h d Infinity gt) (initial object))
      with (@rounds (Closure h d s gt) (initial object)).
    rewrite (run_free h d s gt _ _ _ Hrun Hflag). reflexivity.
Qed.
(** ** The output on an input without sharing *)

Lemma rendering_sequence (key : option string) (l : loc) (ts : list tree)
    (index : option nat) :
  rendering key (ASequence l ts) index
  = comma index +:+ key_prefix key +:+ "[" +:+ elements_rendering ts 0 +:+ "]".
Proof.
  cbn [rendering]. do 3 f_equal. generalize 0.
  induction ts as [|t ts IH]; intros i; [reflexivity|].
  rewrite IH. cbn [elements_rendering]. rewrite append_assoc. reflexivity.
Qed.

Lemma rendering_mapping (key : option string) (l : loc) (p : string * tree)
    (ps : list (string * tree)) (index : option nat) :
  rendering key (AMapping l (p :: ps)) index
  = comma index +:+ key_prefix key +:+ "{" +:+ members_rendering (p :: ps) 0 +:+ "}".
Proof.
  destruct p as [k t]. cbn [rendering members_rendering].
  rewrite append_assoc. do 4 f_equal. generalize 1.
  induction ps as [|[k' t'] ps IH]; intros i; [reflexivity|].
  rewrite IH. cbn [members_rendering]. rewrite append_assoc. reflexivity.
Qed.

Section no_size_limit.

Context {c : closure}.

Hypothesis unlimited_size : maxSize = Infinity.

Lemma fits_below (d : nat) (t : tree) : fits d t -> 0 < height t -> below d = true.
Proof.
  unfold fits, below. destruct maxDepth as [m|]; [|reflexivity].
  intros Hf Hh. apply Z.ltb_lt. lia.
Qed.

Lemma fits_child (d : nat) (t t' : tree) :
  fits d t -> height t' < height t -> fits (S d) t'.
Proof. unfold fits. destruct maxDepth as [m|]; [|trivial]. lia. Qed.

Lemma fits_elements (d : nat) (l : loc) (ts : list tree) :
  fits d (ASequence l ts) -> Forall (fits (S d)) ts.
Proof.
  intros Hf.
  pose proof (list_max_lt_each tree height ts (height (ASequence l ts)) (Nat.lt_succ_diag_r _))
    as Hall.
  eapply Forall_impl; [exact Hall|]. intros t' Ht'. apply (fits_child d _ _ Hf Ht').
Qed.

Lemma fits_members (d : nat) (l : loc) (ps : list (string * tree)) :
  fits d (AMapping l ps) -> Forall (fun q => fits (S d) q.2) ps.
Proof.
  intros Hf.
  pose proof (list_max_lt_each _ (fun q : string * tree => height q.2) ps
                (height (AMapping l ps)) (Nat.lt_succ_diag_r _)) as Hall.
  eapply Forall_impl; [exact Hall|]. intros t' Ht'. apply (fits_child d _ _ Hf Ht').
Qed.

Lemma visit_sequence_below (key : option string) (vs : list value)
    (index : option nat) (d : nat) (st : state) :
  sizeLimitReached st = false ->
  below d = true ->
  visit key (Sequence vs) index d st
  = push (Frame None (Enc RIGHT_BRACKET) None d)
      (push_elements vs 0 d (push (Frame key (Enc LEFT_BRACKET) index d) (addSize 2 st))).
Proof.
  intros Hf Hd. unfold visit. rewrite (addSize_flag unlimited_size), Hf, Hd. reflexivity.
Qed.

Lemma visit_mapping_below (key : option string) (p : string * value)
    (ps : list (string * value)) (index : option nat) (d : nat) (st : state) :
  sizeLimitReached st = false ->
  below d = true ->
  visit key (Mapping (p :: ps)) index d st
  = push (Frame None (Enc RIGHT_BRACE) None d)
      (push_props (p :: ps) 0 d (push (Frame key (Enc LEFT_BRACE) index d) (addSize 2 st))).
Proof.
  intros Hf Hd. unfold visit. rewrite (addSize_flag unlimited_size), Hf, Hd. reflexivity.
Qed.

(** The first round of a sequence that is below [maxDepth]. *)
Lemma sequence_expands (key : option string) (l : loc) (index : option nat)
    (d : nat) (rest : list frame) (vs : list value) (st : state) :
  stack st = Frame key (Val (Ref l)) index d :: rest ->
  l ∉ seen st ->
  sizeLimitReached st = false ->
  below d = true ->
  heap !! l = Some (Sequence vs) ->
  exists st',
    prepends "" [l]
      (Frame None (Enc RIGHT_BRACKET) None d
         :: rev (element_frames vs 0 d) ++ Frame key (Enc LEFT_BRACKET) index d :: rest)
      st st'.
Proof.
  intros Hs Hl Hf Hd Ho. eexists.
  destruct (addSize_unlimited unlimited_size 2 (seen_add l (set_stack rest st))) as [x Hx].
  destruct (push_elements_unlimited unlimited_size vs 0 d
              (push (Frame key (Enc LEFT_BRACKET) index d)
                 (addSize 2 (seen_add l (set_stack rest st)))))
    as (Hst & Hseen & Hout & Hflag).
  { rewrite Hx. exact Hf. }
  apply prepends_step.
  - apply (iterateStack_unseen st key l index d rest _ Hs Hl Ho).
  - rewrite visit_sequence_below by assumption.
    cbn [push set_stack stack]. rewrite Hst, Hx. reflexivity.
  - rewrite visit_sequence_below by assumption.
    cbn [push set_stack output]. rewrite Hout, Hx. reflexivity.
  - intros y. rewrite <- seen_add_iff.
    rewrite visit_sequence_below by assumption.
    cbn [push set_stack seen]. rewrite Hseen, Hx. reflexivity.
  - rewrite visit_sequence_below by assumption. exact Hflag.
Qed.

Lemma mapping_expands (key : option string) (l : loc) (index : option nat)
    (d : nat) (rest : list frame) (p : string * value) (ps : list (string * value))
    (st : state) :
  stack st = Frame key (Val (Ref l)) index d :: rest ->
  l ∉ seen st ->
  sizeLimitReached st = false ->
  below d = true ->
  heap !! l = Some (Mapping (p :: ps)) ->
  exists st',
    prepends "" [l]
      (Frame None (Enc RIGHT_BRACE) None d
         :: rev (member_frames (p :: ps) 0 d) ++ Frame key (Enc LEFT_BRACE) index d :: rest)
      st st'.
Proof.
  intros Hs Hl Hf Hd Ho. eexists.
  destruct (addSize_unlimited unlimited_size 2 (seen_add l (set_stack rest st))) as [x Hx].
  destruct (push_props_unlimited unlimited_size (p :: ps) 0 d
              (push (Frame key (Enc LEFT_BRACE) index d)
                 (addSize 2 (seen_add l (set_stack rest st)))))
    as (Hst & Hseen & Hout & Hflag).
  { rewrite Hx. exact Hf. }
  apply prepends_step.
  - apply (iterateStack_unseen st key l index d rest _ Hs Hl Ho).
  - rewrite visit_mapping_below by assumption.
    cbn [push set_stack stack]. rewrite Hst, Hx. reflexivity.
  - rewrite visit_mapping_below by assumption.
    cbn [push set_stack output]. rewrite Hout, Hx. reflexivity.
  - intros y. rewrite <- seen_add_iff.
    rewrite visit_mapping_below by assumption.
    cbn [push set_stack seen]. rewrite Hseen, Hx. reflexivity.
  - rewrite visit_mapping_below by assumption. exact Hflag.
Qed.

(** The round of a mapping with no key: it enters [seen], and that is all. *)
Lemma mapping_without_keys (key : option string) (l : loc) (index : option nat)
    (d : nat) (rest : list frame) (st : state) :
  stack st = Frame key (Val (Ref l)) index d :: rest ->
  l ∉ seen st ->
  sizeLimitReached st = false ->
  heap !! l = Some (Mapping []) ->
  exists st', prepends "" [l] rest st st'.
Proof.
  intros Hs Hl Hf Ho. eexists. apply prepends_step.
  - apply (iterateStack_unseen st key l index d rest _ Hs Hl Ho).
  - reflexivity.
  - reflexivity.
  - intros y. rewrite <- seen_add_iff. reflexivity.
  - exact Hf.
Qed.

Lemma elements_render (ts : list tree) :
  Forall entry_renders ts ->
  forall vs i d rest st,
    Forall2 unfolds vs ts ->
    NoDup (flat_map locs ts) ->
    Forall (fits (S d)) ts ->
    (forall x, x ∈ flat_map locs ts -> x ∉ seen st) ->
    stack st = rev (element_frames vs i d) ++ rest ->
    sizeLimitReached st = false ->
    exists st', prepends (elements_rendering ts i) (flat_map locs ts) rest st st'.
Proof.
  induction 1 as [|t ts Ht _ IH]; intros vs i d rest st Hvs Hnodup Hfits Hfresh Hs Hf.
  - apply Forall2_nil_inv_r in Hvs as ->.
    exists st. apply prepends_nothing; assumption.
  - apply Forall2_cons_inv_r in Hvs as (v & vs' & Hv & Hvs' & ->).
    apply Forall_cons in Hfits as [Hfit Hfits].
    cbn [flat_map] in *. apply NoDup_app in Hnodup as (Hnt & Hdisj & Hnts).
    cbn [element_frames rev] in Hs. rewrite <- app_assoc in Hs.
    destruct (IH vs' (S i) d (Frame None (Val v) (Some i) (S d) :: rest) st
                Hvs' Hnts Hfits) as (st1 & H1); try assumption.
    { intros x Hx. apply Hfresh, elem_of_app. right. exact Hx. }
    pose proof H1 as (_ & Hst1 & _ & Hseen1 & Hf1).
    destruct (Ht None v (Some i) (S d) rest st1 Hv Hnt Hfit) as (st2 & H2).
    { split; [exact Hst1|]. split; [|exact Hf1].
      intros x Hx. rewrite Hseen1. intros [Hin|Hin].
      - apply (Hdisj x Hx Hin).
      - apply (Hfresh x); [apply elem_of_app; left; exact Hx|exact Hin]. }
    exists st2. eapply prepends_ext; [| |eapply prepends_trans; eassumption].
    + reflexivity.
    + intros x. rewrite !elem_of_app. tauto.
Qed.

Lemma members_render (ts : list (string * tree)) :
  Forall (fun q => entry_renders q.2) ts ->
  forall ps i d rest st,
    Forall2 (fun p q => p.1 = q.1 /\ unfolds p.2 q.2) ps ts ->
    NoDup (flat_map (fun q => locs q.2) ts) ->
    Forall (fun q => fits (S d) q.2) ts ->
    (forall x, x ∈ flat_map (fun q => locs q.2) ts -> x ∉ seen st) ->
    stack st = rev (member_frames ps i d) ++ rest ->
    sizeLimitReached st = false ->
    exists st',
      prepends (members_rendering ts i) (flat_map (fun q => locs q.2) ts) rest st st'.
Proof.
  induction 1 as [|[k t] ts Ht _ IH]; intros ps i d rest st Hps Hnodup Hfits Hfresh Hs Hf.
  - apply Forall2_nil_inv_r in Hps as ->.
    exists st. apply prepends_nothing; assumption.
  - apply Forall2_cons_inv_r in Hps as ([k' v] & ps' & [Hk Hv] & Hps' & ->).
    simpl in Hk, Hv, Ht. subst k'.
    apply Forall_cons in Hfits as [Hfit Hfits]. simpl in Hfit.
    cbn [flat_map] in *. simpl in Hnodup.
    apply NoDup_app in Hnodup as (Hnt & Hdisj & Hnts).
    cbn [member_frames rev] in Hs. rewrite <- app_assoc in Hs.
    destruct (IH ps' (S i) d (Frame (Some k) (Val v) (Some i) (S d) :: rest) st
                Hps' Hnts Hfits) as (st1 & H1); try assumption.
    { intros x Hx. apply Hfresh, elem_of_app. right. exact Hx. }
    pose proof H1 as (_ & Hst1 & _ & Hseen1 & Hf1).
    destruct (Ht (Some k) v (Some i) (S d) rest st1 Hv Hnt Hfit) as (st2 & H2).
    { split; [exact Hst1|]. split; [|exact Hf1].
      intros x Hx. rewrite Hseen1. intros [Hin|Hin].
      - apply (Hdisj x Hx Hin).
      - apply (Hfresh x); [apply elem_of_app; left; exact Hx|exact Hin]. }
    exists st2. eapply prepends_ext; [| |eapply prepends_trans; eassumption].
    + reflexivity.
    + intros x. simpl. rewrite !elem_of_app. tauto.
Qed.

Lemma scalar_renders (t : tree) (tok : token) :
  locs t = [] ->
  (forall v, unfolds v t -> token_of (Val v) = Some tok) ->
  fragment None tok None = value_text t ->
  (forall key index, rendering key t index = comma index +:+ key_prefix key +:+ value_text t) ->
  entry_renders t.
Proof.
  intros Hlocs Htok Htext Hr key v index d rest st Hu _ _ (Hs & _ & Hf).
  eexists. rewrite Hlocs.
  eapply prepends_ext;
    [| |apply (prepends_leaf unlimited_size key (Val v) tok index d rest st Hs Hf)].
  - rewrite Hr, <- Htext. unfold fragment, comma, key_prefix. simpl.
    reflexivity.
  - reflexivity.
  - apply Htok, Hu.
Qed.

Lemma every_entry_renders (t : tree) : entry_renders t.
Proof.
  induction t as [|b|text|s|name|l s|l ts IH|l ps IH] using tree_induction.
  - apply (scalar_renders _ TNull); [reflexivity| |reflexivity|reflexivity].
    intros v Hu. inversion Hu. reflexivity.
  - apply (scalar_renders _ (TBool b)); [reflexivity| |destruct b; reflexivity|reflexivity].
    intros v Hu. inversion Hu. reflexivity.
  - apply (scalar_renders _ (TNum text)); [reflexivity| |reflexivity|reflexivity].
    intros v Hu. inversion Hu. reflexivity.
  - apply (scalar_renders _ (TStr s)); [reflexivity| |reflexivity|reflexivity].
    intros v Hu. inversion Hu. reflexivity.
  - intros key v index d rest st Hu _ _ (Hs & _ & Hf). inversion Hu; subst.
    apply (function_round key name index d rest st Hs Hf).
  - intros key v index d rest st Hu _ _ (Hs & Hfresh & Hf). inversion Hu; subst.
    eapply (text_round key l index d rest _ s st Hs); try eassumption.
    apply Hfresh. simpl. apply list_elem_of_here.
  - intros key v index d rest st Hu Hnodup Hfit (Hs & Hfresh & Hf).
    inversion Hu as [| | | | | |l' vs ts' Ho Hvs|]; subst.
    cbn [locs] in Hnodup, Hfresh.
    apply NoDup_cons in Hnodup as [Hl Hnodup].
    destruct (sequence_expands key l index d rest vs st Hs) as (st1 & H1);
      [apply Hfresh, list_elem_of_here|exact Hf
      |apply (fits_below d _ Hfit); simpl; lia|exact Ho|].
    pose proof H1 as (_ & Hst1 & _ & Hseen1 & Hf1).
    destruct (ex_intro (fun s2 => prepends _ _ _ st1 s2) _
                (prepends_leaf unlimited_size None (Enc RIGHT_BRACKET) (TEnc RIGHT_BRACKET)
                   None d _ st1 Hst1 Hf1 eq_refl)) as [st2 H2].
    pose proof H2 as (_ & Hst2 & _ & Hseen2 & Hf2).
    destruct (elements_render ts IH vs 0 d (Frame key (Enc LEFT_BRACKET) index d :: rest) st2
                Hvs Hnodup (fits_elements d l ts Hfit)) as (st3 & H3);
      [|exact Hst2|exact Hf2|].
    { intros x Hx. rewrite Hseen2, Hseen1, elem_of_nil, list_elem_of_singleton.
      intros [[]|[->|Hin]]; [contradiction|].
      apply (Hfresh x); [apply list_elem_of_further, Hx|exact Hin]. }
    pose proof H3 as (_ & Hst3 & _ & Hseen3 & Hf3).
    pose proof (prepends_leaf unlimited_size key (Enc LEFT_BRACKET) (TEnc LEFT_BRACKET)
                  index d rest st3 Hst3 Hf3 eq_refl) as H4.
    eexists. eapply prepends_ext;
      [| |exact (prepends_trans _ _ _ _ _ _ _ _ _
                  (prepends_trans _ _ _ _ _ _ _ _ _
                     (prepends_trans _ _ _ _ _ _ _ _ _ H1 H2) H3) H4)].
    + rewrite rendering_sequence. unfold fragment, comma, key_prefix.
      rewrite !append_assoc, !append_empty_r. reflexivity.
    + intros x. cbn [locs]. rewrite !elem_of_app, !elem_of_cons, !elem_of_nil. tauto.
  - intros key v index d rest st Hu Hnodup Hfit (Hs & Hfresh & Hf).
    inversion Hu as [| | | | | | |l' qs ts' Ho Hqs]; subst.
    cbn [locs] in Hnodup, Hfresh.
    apply NoDup_cons in Hnodup as [Hl Hnodup].
    destruct qs as [|q qs].
    { apply Forall2_nil_inv_l in Hqs as ->.
      apply (mapping_without_keys key l index d rest st Hs);
        [apply Hfresh, list_elem_of_here|exact Hf|exact Ho]. }
    destruct ps as [|p ps]; [apply Forall2_nil_inv_r in Hqs; discriminate|].
    destruct (mapping_expands key l index d rest q qs st Hs) as (st1 & H1);
      [apply Hfresh, list_elem_of_here|exact Hf
      |apply (fits_below d _ Hfit); simpl; lia|exact Ho|].
    pose proof H1 as (_ & Hst1 & _ & Hseen1 & Hf1).
    destruct (ex_intro (fun s2 => prepends _ _ _ st1 s2) _
                (prepends_leaf unlimited_size None (Enc RIGHT_BRACE) (TEnc RIGHT_BRACE)
                   None d _ st1 Hst1 Hf1 eq_refl)) as [st2 H2].
    pose proof H2 as (_ & Hst2 & _ & Hseen2 & Hf2).
    destruct (members_render (p :: ps) IH (q :: qs) 0 d
                (Frame key (Enc LEFT_BRACE) index d :: rest) st2
                Hqs Hnodup (fits_members d l (p :: ps) Hfit)) as (st3 & H3);
      [|exact Hst2|exact Hf2|].
    { intros x Hx. rewrite Hseen2, Hseen1, elem_of_nil, list_elem_of_singleton.
      intros [[]|[->|Hin]]; [contradiction|].
      apply (Hfresh x); [apply list_elem_of_further, Hx|exact Hin]. }
    pose proof H3 as (_ & Hst3 & _ & Hseen3 & Hf3).
    pose proof (prepends_leaf unlimited_size key (Enc LEFT_BRACE) (TEnc LEFT_BRACE)
                  index d rest st3 Hst3 Hf3 eq_refl) as H4.
    eexists. eapply prepends_ext;
      [| |exact (prepends_trans _ _ _ _ _ _ _ _ _
                  (prepends_trans _ _ _ _ _ _ _ _ _
                     (prepends_trans _ _ _ _ _ _ _ _ _ H1 H2) H3) H4)].
    + rewrite rendering_mapping. unfold fragment, comma, key_prefix.
      rewrite !append_assoc, !append_empty_r. reflexivity.
    + intros x. cbn [locs]. rewrite !elem_of_app, !elem_of_cons, !elem_of_nil. tauto.
Qed.

End no_size_limit.

(** The loop on such an input ends with the rendering in [output]. *)
Lemma rendering_run {c : closure} (object : value) (t : tree) :
  maxSize = Infinity ->
  fits 0 t ->
  unfolds object t ->
  NoDup (locs t) ->
  exists st',
    runs_to (initial object) st'
    /\ stack st' = []
    /\ output st' = rendering None t None.
Proof.
  intros Hsize Hfit Hu Hnodup.
  destruct (every_entry_renders Hsize t None object None 0 [] (initial object) Hu Hnodup Hfit)
    as (st' & Hruns & Hstack & Hout & _).
  { split; [reflexivity|]. split; [|reflexivity].
    intros x _. apply not_elem_of_empty. }
  exists st'. split; [exact Hruns|]. split; [exact Hstack|].
  rewrite Hout. simpl. apply append_empty_r.
Qed.

(** The call returns the [output] that the loop ends with. *)
Lemma smartSerialize_runs_to {c : closure} (object : value) (st' : state) :
  closed object = true ->
  runs_to (initial object) st' ->
  stack st' = [] ->
  smartSerialize object = Some (Text (output st')).
Proof.
  intros Hclosed [n Hn] Hstack.
  destruct (smartSerialize_returns object Hclosed) as (st'' & Hrun & _ & ->).
  specialize (Hn 0). rewrite Nat.add_0_r in Hn. simpl in Hn. rewrite Hstack in Hn.
  pose proof (run_more_fuel _ (n + rounds (initial object)) _ _ Hn ltac:(lia)) as H1.
  pose proof (run_more_fuel _ (n + rounds (initial object)) _ _ Hrun ltac:(lia)) as H2.
  rewrite H1 in H2. injection H2 as <-. reflexivity.
Qed.

(** X1.  With no limit on the size and a [maxDepth] no less than the
    nesting of the input, the call on an input in which no object is
    reached twice returns the rendering of its tree: the elements of a
    sequence in their order between brackets, the entries of a mapping
    in the order of [Object.keys] between braces, each with a comma
    when its index is above 0 and the entries with their keys, and
    nothing for a mapping with no key, not its key or comma either. *)
Theorem output_is_the_rendering {c : closure} (object : value) (t : tree) :
  maxSize = Infinity ->
  fits 0 t ->
  closed object = true ->
  unfolds object t ->
  NoDup (locs t) ->
  smartSerialize object = Some (Text (rendering None t None)).
Proof.
  intros Hsize Hfit Hclosed Hu Hnodup.
  destruct (rendering_run object t Hsize Hfit Hu Hnodup) as (st' & Hruns & Hstack & Hout).
  rewrite (smartSerialize_runs_to object st' Hclosed Hruns Hstack), Hout. reflexivity.
Qed.
(** ** The estimate of [measureSize] and the text that is rendered *)

Lemma test_append (s t : string) : test (s +:+ t) = test s || test t.
Proof.
  induction s as [|a s IH]; [reflexivity|].
  rewrite append_cons. cbn [test]. rewrite IH, orb_assoc. reflexivity.
Qed.

(** X13.  For a value that is no object, [measureSize] adds at most the
    length of the text that [render] writes for it, and exactly that
    length when the text needs no escape and, for a function, when the
    function has a name: the estimate leaves out what [escape] adds
    and the eleven characters of [(anonymous)]. *)
Theorem estimate_of_a_primitive {c : closure} (v : value) (t : tree) (n : Z) (st : state) :
  unfolds v t ->
  (forall l, v <> Ref l) ->
  size st = CNum n ->
  exists k,
    size (measureSize v st) = CNum (n + k)
    /\ (k <= Z.of_nat (String.length (value_text t)))%Z
    /\ (match v with
        | Str s => test s = false
        | Function name => name <> "" /\ test name = false
        | _ => True
        end -> k = Z.of_nat (String.length (value_text t))).
Proof.
  intros Hu Hprim Hn.
  rewrite (measureSize_charges v n st Hn).
  destruct Hu as [|b|text|s|name|l o s Ho Hform|l vs ts Ho _|l ps ts Ho _];
    try (exfalso; apply (Hprim l); reflexivity).
  - exists 4%Z. simpl. split_and!; auto with lia.
  - destruct b; [exists 4%Z|exists 5%Z]; simpl; split_and!; auto with lia.
  - eexists. split; [reflexivity|]. simpl. split; [lia|reflexivity].
  - eexists. split; [reflexivity|].
    cbn [value_text]. unfold quote. rewrite !length_append. cbn [String.length].
    destruct (escape_length s) as [[Hle _] Hiff]. split; [lia|].
    intros Ht. apply Hiff in Ht. rewrite Ht. lia.
  - eexists. split; [reflexivity|].
    cbn [value_text]. unfold quote. rewrite !length_append. cbn [String.length].
    set (text := "[function " +:+ name_or_anonymous name +:+ "]").
    destruct (escape_length text) as [[Hle _] Hiff].
    assert (String.length text = 11 + String.length (name_or_anonymous name)) as Hlen.
    { unfold text. rewrite !length_append. simpl. lia. }
    assert (String.length name <= String.length (name_or_anonymous name)) as Hname
      by (destruct name; simpl; lia).
    split; [lia|]. intros [Hne Ht].
    assert (name_or_anonymous name = name) as E by (destruct name; [congruence|reflexivity]).
    rewrite E in *.
    assert (test text = false) as Htext.
    { unfold text. rewrite ?E, !test_append, Ht. reflexivity. }
    apply Hiff in Htext. rewrite Htext. lia.
Qed.

(** ** The examples of the specification and of the tests *)

Example wraps_a_string_in_quotes :
  @smartSerialize (unlimited ∅) (Str "a") = Some (Text (dq "'a'")).
Proof. vm_compute. reflexivity. Qed.

Example serializes_a_nested_object :
  @smartSerialize (unlimited nested_object) (Ref 1)
  = Some (Text (dq "{'foo':{'bar':{'baz':'qux'}}}")).
Proof. vm_compute. reflexivity. Qed.

Example handles_circular_references :
  @smartSerialize (unlimited circular_object) (Ref 1)
  = Some (Text (dq "{'foo':{'bar':'[circular reference]'}}")).
Proof. vm_compute. reflexivity. Qed.

Example shared_reference_is_circular :
  @smartSerialize (unlimited shared_array) (Ref 1)
  = Some (Text (dq "['[circular reference]',[]]")).
Proof. vm_compute. reflexivity. Qed.

Example callback_gets_the_output :
  exists st,
    @smartSerialize_callback (unlimited one_two_three) (Ref 1)
    = Some (Text "[1,2,3]", Callback "[1,2,3]", st)
    /\ @timers (unlimited one_two_three) 0 (Callback "[1,2,3]") st = Some "[1,2,3]".
Proof. eexists. split; vm_compute; reflexivity. Qed.

(** ** Inputs at which a sentence of the specification fails *)

(** C2 as stated fails: [{ a: {} }] has no cycle, and the call returns
    [{}], which reads back as the empty object.  [{ b: {} }] gives the
    same text, so no reader can give both inputs back. *)
Lemma empty_mapping_is_lost :
  @unfolds (unlimited a_empty) (Ref 1) a_empty_tree
  /\ NoDup (locs a_empty_tree)
  /\ @smartSerialize (unlimited a_empty) (Ref 1) = Some (Text "{}")
  /\ JSON_parse "{}" = Some (JObject [])
  /\ json_of a_empty_tree = JObject [("a", JObject [])]
  /\ JSON_parse "{}" <> Some (json_of a_empty_tree)
  /\ @smartSerialize (unlimited b_empty) (Ref 1) = Some (Text "{}").
Proof.
  split_and!.
  - eapply (unfolds_mapping 1); [reflexivity|].
    constructor; [|constructor]. split; [reflexivity|].
    eapply (unfolds_mapping 2); [reflexivity|constructor].
  - apply NoDup_cons. split; [|apply NoDup_singleton].
    intros H. apply list_elem_of_singleton in H. discriminate.
  - vm_compute. reflexivity.
  - vm_compute. reflexivity.
  - reflexivity.
  - vm_compute. discriminate.
  - vm_compute. reflexivity.
Qed.

(** Why the round trip is stated for the values of the data model:
    an [undefined], which no branch names, is written by
    [str += value] as the text [undefined], which no reader takes; and
    a BigInt is written by its digits and reads back as a number. *)
Example undefined_is_written_as_it_is :
  @smartSerialize (unlimited undefined_one) (Ref 1) = Some (Text "[undefined,1]")
  /\ JSON_parse "[undefined,1]" = None
  /\ @smartSerialize (unlimited a_undefined) (Ref 1)
     = Some (Text (dq "{'a':undefined}"))
  /\ JSON_parse (dq "{'a':undefined}") = None
  /\ @smartSerialize (unlimited big_ten) (Ref 1) = Some (Text "[10]")
  /\ JSON_parse "[10]" = Some (JArray [JNumber "10"]).
Proof. split_and!; vm_compute; reflexivity. Qed.


(** C6 as stated fails: with [maxSize = 10] the second frame of the
    shared array is popped when [seen] has it, the charge of 20 sets
    the flag, and no token is rendered. *)
Lemma seen_reference_renders_nothing :
  exists st st',
    @steps size_ten 5 (initial (Ref 1)) = Some st
    /\ stack st = [Frame None (Val (Ref 2)) (Some 0) 1;
                   Frame None (Enc LEFT_BRACKET) None 0]
    /\ (2 ∈ seen st)
    /\ @iterateStack size_ten st = Some st'
    /\ rendered st' = rendered st
    /\ output st' = output st
    /\ @smartSerialize size_ten (Ref 1) = Some (Text "[,[]]").
Proof.
  eexists. eexists. split; [vm_compute; reflexivity|].
  split; [reflexivity|].
  split; [vm_compute; reflexivity|].
  split; [vm_compute; reflexivity|].
  split; [reflexivity|]. split; [reflexivity|].
  vm_compute. reflexivity.
Qed.

(** C7 as stated fails: a date that occurs twice renders its text once
    and the token [[circular reference]] the other time. *)
Lemma second_date_renders_token :
  @smartSerialize (unlimited shared_date) (Ref 1)
  = Some (Text (dq "['[circular reference]','2022-01-01T00:00:00.000Z']")).
Proof. vm_compute. reflexivity. Qed.

(** ** The theorems at concrete inputs *)

Lemma smartSerialize_balanced_witness :
  exists st,
    @run depth_two (@rounds depth_two (initial (Ref 1))) (initial (Ref 1)) = Some st
    /\ @smartSerialize depth_two (Ref 1) = Some (Text (output st))
    /\ output st = rendered_text (rendered st)
    /\ emitted LEFT_BRACKET st = emitted RIGHT_BRACKET st
    /\ emitted LEFT_BRACE st = emitted RIGHT_BRACE st.
Proof.
  apply (@smartSerialize_balanced depth_two (Ref 1)).
  vm_compute. reflexivity.
Defined.


Lemma depth_limit_collapses_witness :
  exists st',
    @iterateStack depth_two (after depth_two 4 (Ref 1)) = Some st'
    /\ stack st' = [Frame (Some "foo") (Enc LEFT_BRACE) (Some 0) 1;
                    Frame None (Enc LEFT_BRACE) None 0]
    /\ output st' = dq "'bar':{}}}".
Proof.
  destruct (proj1 depth_limit_collapses depth_two (after depth_two 4 (Ref 1))
              (Some "bar") 3 (Some 0) 2
              [Frame (Some "foo") (Enc LEFT_BRACE) (Some 0) 1;
               Frame None (Enc LEFT_BRACE) None 0]
              (Mapping [("baz", Str "qux")]) 2%Z BRACES)
    as (st' & Hit & Hst & _ & Hout & _).
  - reflexivity.
  - vm_compute. discriminate.
  - vm_compute. reflexivity.
  - intros H. vm_compute in H. discriminate.
  - vm_compute. reflexivity.
  - reflexivity.
  - exists st'. auto.
Defined.

Lemma measureSize_concatenates_error_text_witness :
  size (@measureSize (unlimited an_error) (Ref 1) size_is_two) = CStr "2Error: x"
  /\ size (@measureSize (unlimited an_error) (Ref 1) size_is_two) <> CNum 10.
Proof.
  apply (@measureSize_concatenates_error_text (unlimited an_error) 1 "Error: x" 2 size_is_two).
  - left. vm_compute. reflexivity.
  - reflexivity.
Defined.

Lemma seen_reference_renders_token_witness :
  exists st',
    @iterateStack (unlimited circular_object) (after (unlimited circular_object) 4 (Ref 1))
    = Some st'
    /\ output st' = dq "'bar':'[circular reference]'}}".
Proof.
  destruct (proj1 (@seen_reference_renders_token (unlimited circular_object))
              (after (unlimited circular_object) 4 (Ref 1))
              (Some "bar") 1 (Some 0) 2
              [Frame (Some "foo") (Enc LEFT_BRACE) (Some 0) 1;
               Frame None (Enc LEFT_BRACE) None 0])
    as (st' & Hit & _ & _ & Hr & _).
  - vm_compute. reflexivity.
  - vm_compute. reflexivity.
  - exists st'. split; [exact Hit|].
    assert (sizeLimitReached st' = false) as Hf
      by (vm_compute in Hit; injection Hit as <-; reflexivity).
    destruct (Hr Hf) as [_ ->]. reflexivity.
Defined.

Lemma every_object_enters_seen_witness :
  exists st',
    @iterateStack (unlimited shared_date) (after (unlimited shared_date) 2 (Ref 1)) = Some st'
    /\ seen st' = {[2]} ∪ seen (after (unlimited shared_date) 2 (Ref 1))
    /\ rendered st'
       = (None, TStr "2022-01-01T00:00:00.000Z", Some 1)
           :: rendered (after (unlimited shared_date) 2 (Ref 1)).
Proof.
  apply (proj1 (proj1 (@every_object_enters_seen (unlimited shared_date))
                  (after (unlimited shared_date) 2 (Ref 1))
                  None 2 (Some 1) 1
                  [Frame None (Val (Ref 2)) (Some 0) 1;
                   Frame None (Enc LEFT_BRACKET) None 0]
                  (Date "2022-01-01T00:00:00.000Z") "2022-01-01T00:00:00.000Z"
                  eq_refl eq_refl eq_refl)).
  intros H. vm_compute in H. discriminate.
Defined.

Lemma callback_call_returns_output_witness :
  exists st,
    @smartSerialize_callback (unlimited one_two_three) (Ref 1)
    = Some (Text "[1,2,3]", Callback "[1,2,3]", st)
    /\ Text "[1,2,3]" = Text (output st)
    /\ Text "[1,2,3]" <> Undefined
    /\ "[1,2,3]" = output st
    /\ stack st = [].
Proof.
  eexists. split; [vm_compute; reflexivity|].
  apply (@callback_call_returns_output (unlimited one_two_three) (Ref 1)
           (Text "[1,2,3]") (Callback "[1,2,3]")).
  vm_compute. reflexivity.
Defined.

Lemma keys_are_not_escaped_witness :
  @smartSerialize (Closure {[1 := Mapping [(odd_key, Null)]]} Infinity Infinity not_numeric)
    (Ref 1)
  = Some (Text ("{" +:+ quote +:+ odd_key +:+ quote +:+ ":null}")).
Proof.
  apply (proj2 keys_are_not_escaped odd_key not_numeric). discriminate.
Defined.

Lemma round_trip_witness :
  exists s,
    @smartSerialize (unlimited odd_nodes) (Ref 1) = Some (Text s)
    /\ JSON_parse s
       = Some (JArray
                 [ JString "2022-01-01T00:00:00.000Z";
                   JString ("Error: " +:+ quote +:+ "hello" +:+ quote);
                   JString "[function (anonymous)]";
                   JString "[function foo]";
                   JString "/[a-z]+/gi";
                   JString ("line1" +:+ String (ascii_of_nat 10) "line2");
                   JString (String (ascii_of_nat 9) "");
                   JString "[" ]).
Proof.
  apply (@round_trip (unlimited odd_nodes) (Ref 1) odd_nodes_tree).
  - reflexivity.
  - reflexivity.
  - vm_compute. reflexivity.
  - eapply (unfolds_sequence 1); [reflexivity|].
    repeat (apply Forall2_cons_2; [first [apply unfolds_function | apply unfolds_string
      | eapply unfolds_text; reflexivity]|]).
    apply Forall2_nil_2.
  - apply (bool_decide_unpack (NoDup (locs odd_nodes_tree))). vm_compute. exact I.
  - reflexivity.
Defined.
(** ** Inputs without sharing, under any limits *)

Section apart.

Context {c : closure}.

Lemma vals_app (fs gs : list frame) : vals (fs ++ gs) = vals fs ++ vals gs.
Proof. apply omap_app. Qed.

Lemma vals_element_frames (vs : list value) (i d : nat) :
  vals (element_frames vs i d) = vs.
Proof. revert i. induction vs as [|v vs IH]; intros i; simpl; [|rewrite IH]; reflexivity. Qed.

Lemma vals_member_frames (ps : list (string * value)) (i d : nat) :
  vals (member_frames ps i d) = map snd ps.
Proof.
  revert i. induction ps as [|[k v] ps IH]; intros i; simpl; [|rewrite IH]; reflexivity.
Qed.

Lemma vals_rev (fs : list frame) : vals (rev fs) = rev (vals fs).
Proof.
  induction fs as [|f fs IH]; [reflexivity|].
  simpl. rewrite vals_app, IH. unfold vals at 2 3. simpl.
  destruct (payload f); simpl; rewrite ?app_nil_r; reflexivity.
Qed.

Lemma vals_take (k : nat) (fs : list frame) :
  Forall (fun f => exists v, payload f = Val v) fs ->
  vals (take k fs) = take k (vals fs).
Proof.
  intros H. revert k. induction H as [|f fs [v Hv] _ IH]; intros [|k]; try reflexivity.
  unfold vals in *. simpl. rewrite Hv. simpl. rewrite IH. reflexivity.
Qed.

Lemma child_frames_vals (o : object) (d : nat) :
  Forall (fun f => exists v, payload f = Val v) (child_frames o d)
  /\ vals (child_frames o d) = children o.
Proof.
  destruct o as [elems|props| | |]; simpl; try (split; [constructor|reflexivity]).
  - split; [|apply vals_element_frames].
    generalize 0. induction elems; intros i; constructor; eauto.
  - split; [|apply vals_member_frames].
    generalize 0. induction props as [|[k v] props IH]; intros i; constructor; eauto.
Qed.

(** The children of the object of a tree unfold to its subtrees. *)
Lemma unfolds_children (l : loc) (o : object) (t : tree) :
  unfolds (Ref l) t ->
  heap !! l = Some o ->
  Forall2 unfolds (children o) (subtrees t)
  /\ locs t = l :: flat_map locs (subtrees t).
Proof.
  intros Hu Ho. inversion Hu as [| | | | |l' o' s Ho' Hform|l' vs ts Ho' Hvs|l' ps ts Ho' Hps];
    subst; rewrite Ho in Ho'; injection Ho' as ->.
  - destruct o'; try discriminate; simpl; (split; [constructor|reflexivity]).
  - split; [exact Hvs|reflexivity].
  - simpl. split.
    + clear -Hps. induction Hps as [|[k v] [k' t] ps ts [_ H] _ IH]; constructor; assumption.
    + f_equal. clear. induction ts as [|[k t] ts IH]; [reflexivity|].
      simpl. rewrite IH. reflexivity.
Qed.

Lemma flat_map_rev_take (k : nat) (ts : list tree) (x : loc) :
  x ∈ flat_map locs (rev (take k ts)) -> x ∈ flat_map locs ts.
Proof.
  rewrite !list_elem_of_In, !in_flat_map. intros (t & Ht & Hx). exists t. split; [|exact Hx].
  apply in_rev in Ht. apply list_elem_of_In in Ht. apply list_elem_of_In.
  apply (subseteq_take k ts). exact Ht.
Qed.

Lemma NoDup_flat_map_rev_take (k : nat) (ts : list tree) :
  NoDup (flat_map locs ts) -> NoDup (flat_map locs (rev (take k ts))).
Proof.
  revert k. induction ts as [|t ts IH]; intros k Hn.
  - rewrite take_nil. constructor.
  - destruct k as [|k]; [constructor|].
    simpl in *. apply NoDup_app in Hn as (Ht & Hdisj & Hts).
    rewrite flat_map_app. simpl. rewrite app_nil_r.
    apply NoDup_app. split_and!; [apply IH, Hts| |exact Ht].
    intros x Hx Hxt. apply (Hdisj x Hxt). apply (flat_map_rev_take k ts x Hx).
Qed.

Lemma Forall2_rev_take (k : nat) (vs : list value) (ts : list tree) :
  Forall2 unfolds vs ts -> Forall2 unfolds (rev (take k vs)) (rev (take k ts)).
Proof.
  intros H. apply (Forall2_take _ _ _ k) in H.
  induction H as [|v t vs' ts' Hv _ IH]; [constructor|].
  simpl. apply Forall2_app; [exact IH|]. constructor; [exact Hv|constructor].
Qed.

Lemma unfolds_ref_loc (l : loc) (t : tree) : unfolds (Ref l) t -> exists ls, locs t = l :: ls.
Proof. intros Hu. inversion Hu; subst; simpl; eauto. Qed.

(** A reference on top of the stack is new to [seen]. *)
Lemma apart_top_unseen (st : state) (ts : list tree) (key : option string) (l : loc)
    (index : option nat) (d : nat) (rest : list frame) :
  apart st ts ->
  stack st = Frame key (Val (Ref l)) index d :: rest ->
  l ∉ seen st.
Proof.
  intros (Hu & _ & Hfresh) Hs. rewrite Hs in Hu. unfold vals in Hu. simpl in Hu.
  apply Forall2_cons_inv_l in Hu as (t & ts' & Ht & _ & ->).
  destruct (unfolds_ref_loc l t Ht) as [ls Hls].
  apply Hfresh. simpl. rewrite Hls. apply elem_of_cons. left. reflexivity.
Qed.

Lemma apart_pop (st st' : state) (ts : list tree) (f : frame) (rest : list frame) :
  apart st ts ->
  stack st = f :: rest ->
  stack st' = rest ->
  seen st' = seen st ->
  exists ts', apart st' ts' /\ (forall x, x ∈ ts' -> x ∈ ts).
Proof.
  intros (Hu & Hn & Hfresh) Hs Hs' Hseen. rewrite Hs in Hu. unfold vals in Hu. simpl in Hu.
  destruct (payload f) as [v|e]; simpl in Hu.
  - apply Forall2_cons_inv_l in Hu as (t & ts' & Ht & Hu & ->).
    exists ts'. split; [|intros x Hx; apply elem_of_cons; right; exact Hx].
    unfold apart. rewrite Hs', Hseen. simpl in Hn. apply NoDup_app in Hn as (_ & _ & Hn).
    split; [exact Hu|]. split; [exact Hn|].
    intros x Hx. apply Hfresh. simpl. apply elem_of_app. right. exact Hx.
  - exists ts. split; [|auto]. unfold apart. rewrite Hs', Hseen. auto.
Qed.

(** One round keeps the values on the stack apart: it pops the top,
    and for a value that it expands it pushes the first [k] of its
    children, whose trees are the first [k] subtrees. *)
Lemma iterateStack_trees (st st' : state) (ts : list tree) (key : option string)
    (p : node) (index : option nat) (d : nat) (rest : list frame) :
  iterateStack st = Some st' ->
  apart st ts ->
  stack st = Frame key p index d :: rest ->
  (exists e, p = Enc e /\ stack st' = rest /\ apart st' ts)
  \/ (exists v t ts0,
        p = Val v /\ ts = t :: ts0 /\ unfolds v t
        /\ ((stack st' = rest /\ apart st' ts0)
            \/ (exists l o k,
                  v = Ref l /\ heap !! l = Some o
                  /\ stack st'
                     = Frame None (Enc (closing o)) None d
                         :: rev (take k (child_frames o d))
                         ++ Frame key (Enc (opening o)) index d :: rest
                  /\ (k < length (subtrees t) -> sizeLimitReached st' = true)
                  /\ apart st' (rev (take k (subtrees t)) ++ ts0)))).
Proof.
  intros Hit Hap Hst.
  assert (forall st1, stack st1 = rest -> seen st1 = seen st ->
            match p with
            | Enc _ => apart st1 ts
            | Val v => exists t ts0, ts = t :: ts0 /\ unfolds v t /\ apart st1 ts0
            end) as Hpop.
  { intros st1 Hs1 Hseen1. destruct Hap as (Hu & Hn & Hfresh).
    rewrite Hst in Hu. unfold vals in Hu. simpl in Hu. destruct p as [v|e]; simpl in Hu.
    - apply Forall2_cons_inv_l in Hu as (t & ts0 & Ht & Hu & ->).
      exists t, ts0. split; [reflexivity|]. split; [exact Ht|].
      unfold apart. rewrite Hs1, Hseen1. simpl in Hn.
      apply NoDup_app in Hn as (_ & _ & Hn).
      split; [exact Hu|]. split; [exact Hn|].
      intros x Hx. apply Hfresh. simpl. apply elem_of_app. right. exact Hx.
    - unfold apart. rewrite Hs1, Hseen1. auto. }
  pose proof Hit as Hcases. apply iterateStack_cases in Hcases
    as (key' & p' & index' & d' & rest' & Hst'
        & [(t & Ht & ->)|[(name & Hp & ->)|[(l & Hp & Hl & ->)|(l & o & Hp & Hl & Ho & ->)]]]).
  all: rewrite Hst in Hst'; injection Hst' as <- <- <- <- <-; try subst p.
  - destruct (leaf_stack key t index (set_stack rest st)) as [Hs' Hseen'].
    specialize (Hpop _ Hs' Hseen'). destruct p as [v|e].
    + destruct Hpop as (t0 & ts0 & -> & Hu & Hap'). right.
      exists v, t0, ts0. split_and!; auto.
    + left. exists e. auto.
  - specialize (Hpop (render key (function_token name) index (set_stack rest st))
                  eq_refl eq_refl).
    destruct Hpop as (t0 & ts0 & -> & Hu & Hap'). right.
    exists (Function name), t0, ts0. split_and!; auto.
  - exfalso. apply (apart_top_unseen st ts key l index d rest Hap Hst Hl).
  - right. destruct Hap as (Hu & Hn & Hfresh). rewrite Hst in Hu. unfold vals in Hu.
    simpl in Hu. apply Forall2_cons_inv_l in Hu as (t & ts0 & Ht & Hu & ->).
    exists (Ref l), t, ts0. split; [reflexivity|]. split; [reflexivity|]. split; [exact Ht|].
    destruct (unfolds_children l o t Ht Ho) as [Hch Hlocs].
    simpl in Hn. rewrite Hlocs in Hn. simpl in Hn.
    apply NoDup_cons in Hn as [Hl' Hn]. apply NoDup_app in Hn as (Hnsub & Hdisj & Hnrest).
    destruct (visit_stack key o index d (seen_add l (set_stack rest st)))
      as (_ & _ & Hseen' & _ & _).
    assert (forall x, x ∈ flat_map locs ts0 -> x ∉ seen (visit key o index d
              (seen_add l (set_stack rest st)))) as Hfresh_rest.
    { intros x Hx. rewrite Hseen'. simpl. intros Hin.
      apply elem_of_union in Hin as [Hin|Hin].
      - apply elem_of_singleton in Hin as ->. apply Hl', elem_of_app. right. exact Hx.
      - apply (Hfresh x); [|exact Hin]. simpl. apply elem_of_app. right. exact Hx. }
    destruct (visit_frames key o index d (seen_add l (set_stack rest st)))
      as [Hs'|(_ & _ & k & _ & Hs' & Hflag)].
    + left. split; [exact Hs'|]. unfold apart. rewrite Hs'. simpl. auto.
    + right. exists l, o, k. split; [reflexivity|]. split; [exact Ho|].
      split; [exact Hs'|]. split.
      { intros Hk. apply Hflag.
        destruct (child_frames_vals o d) as [_ Hvs].
        rewrite <- (length_map (fun f => f) (child_frames o d)), list_fmap_id.
        assert (length (child_frames o d) = length (children o)) as ->.
        { destruct o; simpl; rewrite ?length_element_frames, ?length_member_frames,
            ?length_map; reflexivity. }
        rewrite (Forall2_length _ _ _ Hch). exact Hk. }
      unfold apart. rewrite Hs'. unfold vals at 1. simpl.
      fold (vals (rev (take k (child_frames o d)) ++ Frame key (Enc (opening o)) index d :: rest)).
      rewrite vals_app, vals_rev. unfold vals at 2. simpl. fold (vals rest).
      destruct (child_frames_vals o d) as [Hval Hvs].
      rewrite (vals_take k _ Hval), Hvs.
      split; [apply Forall2_app; [apply Forall2_rev_take, Hch|exact Hu]|].
      rewrite flat_map_app. split.
      * apply NoDup_app. split_and!;
          [apply NoDup_flat_map_rev_take, Hnsub| |exact Hnrest].
        intros x Hx. apply Hdisj, (flat_map_rev_take k _ x Hx).
      * intros x Hx. apply elem_of_app in Hx as [Hx|Hx]; [|apply Hfresh_rest, Hx].
        apply flat_map_rev_take in Hx. rewrite Hseen'. simpl. intros Hin.
        apply elem_of_union in Hin as [Hin|Hin].
        -- apply elem_of_singleton in Hin as ->. apply Hl', elem_of_app. left. exact Hx.
        -- apply (Hfresh x); [|exact Hin]. simpl. rewrite Hlocs.
           apply elem_of_cons. right. apply elem_of_app. left. exact Hx.
Qed.

Lemma iterateStack_apart (P : tree -> Prop) (st st' : state) (ts : list tree) :
  hereditary P ->
  iterateStack st = Some st' ->
  apart st ts ->
  Forall P ts ->
  exists ts', apart st' ts' /\ Forall P ts'.
Proof.
  intros HP Hit Hap HPts.
  destruct (stack st) as [|[key p index d] rest] eqn:Hst.
  { unfold iterateStack in Hit. rewrite Hst in Hit. discriminate. }
  destruct (iterateStack_trees st st' ts key p index d rest Hit Hap Hst)
    as [(e & _ & _ & Hap')
       |(v & t & ts0 & _ & -> & _ & [[_ Hap']|(l & o & k & _ & _ & _ & _ & Hap')])].
  - eauto.
  - apply Forall_cons in HPts as [_ HPts]. eauto.
  - apply Forall_cons in HPts as [HPt HPts]. eexists. split; [exact Hap'|].
    apply Forall_app. split; [|exact HPts]. apply Forall_rev, Forall_take, HP, HPt.
Qed.

End apart.

Lemma steps_apart {c : closure} (P : tree -> Prop) (n : nat) (st st' : state)
    (ts : list tree) :
  hereditary P ->
  steps n st = Some st' ->
  apart st ts ->
  Forall P ts ->
  exists ts', apart st' ts' /\ Forall P ts'.
Proof.
  intros HP. revert st ts. induction n as [|n IH]; intros st ts Hn Hap HPts; simpl in Hn.
  - injection Hn as <-. eauto.
  - destruct (iterateStack st) as [st1|] eqn:Hit; [|discriminate].
    destruct (iterateStack_apart P st st1 ts HP Hit Hap HPts) as (ts1 & Hap1 & HP1).
    apply (IH st1 ts1 Hn Hap1 HP1).
Qed.

Lemma apart_initial {c : closure} (object : value) (t : tree) :
  unfolds object t -> NoDup (locs t) -> apart (initial object) [t].
Proof.
  intros Hu Hn. unfold apart. simpl. rewrite app_nil_r. split_and!.
  - constructor; [exact Hu|constructor].
  - exact Hn.
  - intros x _. apply not_elem_of_empty.
Qed.

(** X4.  On an input in which no object is reached twice, no round pops
    a reference that [seen] has, whatever the limits: the branch of
    [[circular reference]] is never taken. *)
Theorem without_sharing_nothing_is_seen_twice {c : closure} (n : nat) (object : value)
    (t : tree) (st : state) (key : option string) (l : loc) (index : option nat)
    (d : nat) (rest : list frame) :
  unfolds object t ->
  NoDup (locs t) ->
  steps n (initial object) = Some st ->
  stack st = Frame key (Val (Ref l)) index d :: rest ->
  l ∉ seen st.
Proof.
  intros Hu Hn Hsteps Hs.
  destruct (steps_apart (fun _ => True) n (initial object) st [t]) as (ts & Hap & _).
  - intros t' _. apply Forall_forall. auto.
  - exact Hsteps.
  - apply apart_initial; assumption.
  - constructor; [exact I|constructor].
  - apply (apart_top_unseen st ts key l index d rest Hap Hs).
Qed.
(** ** The first version and the later one *)

Section versions.

Context {c : closure} {h : Legacy.conversion}.

(** No error and no pattern in the store. *)
Hypothesis no_error :
  forall l o, heap !! l = Some o -> forall s, o <> ErrorLike s /\ o <> Pattern s.

Lemma sim_addSize (n : Z) (st : state) (lst : Legacy.state) :
  sim st lst -> sim (addSize n st) (Legacy.addSize n lst).
Proof.
  intros (Hs & Hn & Hz & Hf & Ho). unfold sim, addSize, set_size, Legacy.addSize, exceeds.
  simpl. rewrite Hz, Hf. simpl. split_and!; auto.
Qed.

Lemma sim_measureSize (v : value) (st : state) (lst : Legacy.state) :
  no_function v -> sim st lst -> sim (measureSize v st) (Legacy.measureSize v lst).
Proof.
  intros Hv Hsim. unfold Legacy.measureSize.
  assert (forall n, measureSize v st = addSize n st ->
            sim (measureSize v st) (Legacy.addSize n lst)) as Hadd
    by (intros n ->; apply sim_addSize, Hsim).
  destruct Hsim as (Hs & Hn & Hz & Hf & Ho).
  assert (measureSize v st = addSize 0 st ->
          sim (measureSize v st) (Legacy.addSize 0 lst)) as H0 by apply Hadd.
  assert (set_size (size st) st = addSize 0 st) as Hsame.
  { unfold addSize. rewrite Hz. simpl. rewrite Z.add_0_r. reflexivity. }
  destruct v as [|[]|text|s|name|l| |big]; try (apply Hadd; reflexivity).
  - exfalso. apply (Hv name). reflexivity.
  - destruct (heap !! l) as [[elems|props|iso|s|s]|] eqn:Hl.
    + apply H0. unfold measureSize. rewrite Hl. exact Hsame.
    + apply H0. unfold measureSize. rewrite Hl. exact Hsame.
    + apply Hadd. unfold measureSize. rewrite Hl. reflexivity.
    + destruct (no_error l _ Hl s) as [H _]. congruence.
    + destruct (no_error l _ Hl s) as [_ H]. congruence.
    + apply H0. unfold measureSize. rewrite Hl. exact Hsame.
  - apply H0. exact Hsame.
  - apply H0. exact Hsame.
Qed.

Lemma sim_push (f : frame) (st : state) (lst : Legacy.state) :
  sim st lst -> sim (push f st) (Legacy.push (legacy_frame f) lst).
Proof.
  intros (Hs & Hn & Hz & Hf & Ho). unfold sim. simpl. rewrite Hs. auto.
Qed.

Lemma sim_flag (st : state) (lst : Legacy.state) :
  sim st lst -> Legacy.sizeLimitReached lst = sizeLimitReached st.
Proof. intros (_ & _ & _ & Hf & _). exact Hf. Qed.

Lemma sim_push_elements (vs : list value) (i d : nat) (st : state) (lst : Legacy.state) :
  Forall no_function vs ->
  sim st lst ->
  sim (push_elements vs i d st) (Legacy.push_elements vs i d lst).
Proof.
  intros Hvs. revert i st lst. induction Hvs as [|v vs Hv _ IH]; intros i st lst Hsim.
  - exact Hsim.
  - cbn [push_elements Legacy.push_elements].
    pose proof (sim_measureSize v st lst Hv Hsim) as H1.
    rewrite (sim_flag _ _ H1). apply IH.
    destruct (sizeLimitReached (measureSize v st)); [exact H1|].
    apply (sim_push (Frame None (Val v) (Some i) (S d))), H1.
Qed.

Lemma sim_push_props (ps : list (string * value)) (i d : nat) (st : state)
    (lst : Legacy.state) :
  Forall no_function (map snd ps) ->
  sim st lst ->
  sim (push_props ps i d st) (Legacy.push_props ps i d lst).
Proof.
  revert i st lst. induction ps as [|[k v] ps IH]; intros i st lst Hps Hsim.
  - exact Hsim.
  - simpl in Hps. apply Forall_cons in Hps as [Hv Hps].
    cbn [push_props Legacy.push_props].
    pose proof (sim_addSize (Z.of_nat (String.length k) + 3) st lst Hsim) as H1.
    rewrite (sim_flag _ _ H1).
    set (st1 := addSize _ st) in *. set (lst1 := Legacy.addSize _ lst) in *.
    assert (sim (if sizeLimitReached st1 then st1 else measureSize v st1)
                (if sizeLimitReached st1 then lst1 else Legacy.measureSize v lst1)) as H2
      by (destruct (sizeLimitReached st1); [exact H1|apply sim_measureSize; assumption]).
    rewrite (sim_flag _ _ H2). apply IH; [exact Hps|].
    destruct (sizeLimitReached (if sizeLimitReached st1 then st1 else measureSize v st1));
      [exact H2|].
    apply (sim_push (Frame (Some k) (Val v) (Some i) (S d))), H2.
Qed.

Lemma sim_render (key : option string) (t : token) (v : value) (index : option nat)
    (st : state) (lst : Legacy.state) :
  Legacy.value_string v = token_text t ->
  sim st lst ->
  sim (render key t index st) (Legacy.render key v index lst).
Proof.
  intros Ht (Hs & Hn & Hz & Hf & Ho). unfold sim, render, Legacy.render, fragment. simpl.
  rewrite Ht, Ho, !append_assoc. auto.
Qed.

Lemma value_string_plain (s : string) :
  plain_string s = true -> Legacy.value_string (Str s) = token_text (TStr s).
Proof.
  unfold plain_string. intros H. apply andb_true_iff in H as [Ht Hb].
  apply negb_true_iff in Ht, Hb. unfold Legacy.value_string. rewrite Hb.
  cbn [token_text]. unfold escape. rewrite Ht. reflexivity.
Qed.

Lemma value_string_enclosure (e : enclosure) :
  Legacy.value_string (Str (getEnclosure e)) = token_text (TEnc e).
Proof. destruct e; reflexivity. Qed.

Lemma sim_visit (key : option string) (o : object) (index : option nat) (d : nat)
    (st : state) (lst : Legacy.state) :
  (forall s, o <> ErrorLike s /\ o <> Pattern s) ->
  Forall no_function (children o) ->
  (forall iso, o = Date iso -> plain_string iso = true) ->
  sim st lst ->
  sim (visit key o index d st) (Legacy.visit key o index d lst).
Proof.
  intros Hno Hch Hdate Hsim.
  pose proof (sim_addSize 2 st lst Hsim) as H2.
  destruct o as [elems|[|p props]|iso|s|s]; unfold visit, Legacy.visit.
  - rewrite (sim_flag _ _ H2).
    destruct (negb (sizeLimitReached (addSize 2 st)) && below d).
    + apply (sim_push (Frame None (Enc RIGHT_BRACKET) None d)).
      apply sim_push_elements; [exact Hch|].
      apply (sim_push (Frame key (Enc LEFT_BRACKET) index d)), H2.
    + apply sim_render; [reflexivity|exact H2].
  - exact Hsim.
  - cbn [Legacy.keys]. rewrite (sim_flag _ _ H2).
    destruct (negb (sizeLimitReached (addSize 2 st)) && below d).
    + apply (sim_push (Frame None (Enc RIGHT_BRACE) None d)).
      apply sim_push_props; [exact Hch|].
      apply (sim_push (Frame key (Enc LEFT_BRACE) index d)), H2.
    + apply sim_render; [reflexivity|exact H2].
  - apply sim_render; [|exact Hsim]. apply value_string_plain, (Hdate iso eq_refl).
  - destruct (Hno s) as [H _]. congruence.
  - destruct (Hno s) as [_ H]. congruence.
Qed.

Lemma sim_leaf (key : option string) (t : token) (v : value) (index : option nat)
    (st : state) (lst : Legacy.state) :
  Legacy.value_string v = token_text t ->
  sim st lst ->
  sim (leaf key t index st)
      (let lst1 := Legacy.render key v index lst in
       if truthy_index index then Legacy.addSize 1 lst1 else lst1).
Proof.
  intros Ht Hsim. unfold leaf. cbv zeta.
  pose proof (sim_render key t v index st lst Ht Hsim) as H1.
  destruct (truthy_index index); [apply sim_addSize|]; exact H1.
Qed.

Lemma common_hereditary : hereditary (fun t => common t = true).
Proof.
  intros [| | | | | |l ts|l ps] Hc; simpl; try constructor.
  - apply Forall_forall. intros t Ht. cbn [common] in Hc.
    rewrite forallb_forall in Hc. apply Hc, list_elem_of_In, Ht.
  - apply Forall_forall. intros t Ht. cbn [common] in Hc.
    rewrite forallb_forall in Hc.
    apply list_elem_of_In, in_map_iff in Ht as ([k t'] & <- & Hin). apply (Hc _ Hin).
Qed.

Lemma common_no_function (v : value) (t : tree) :
  unfolds v t -> common t = true -> no_function v.
Proof. intros Hu Hc name ->. inversion Hu; subst. discriminate. Qed.

Lemma without_null_hereditary : hereditary common_without_null.
Proof.
  intros t [Hc Hn]. pose proof (common_hereditary t Hc) as Hall.
  destruct t as [| | | | | |l ts|l ps]; simpl in *; try constructor.
  - apply Forall_forall. intros t Ht. split.
    + rewrite Forall_forall in Hall. apply Hall, Ht.
    + destruct (has_null t) eqn:E; [|reflexivity].
      rewrite <- Hn. symmetry. apply existsb_exists. exists t.
      split; [apply list_elem_of_In, Ht|exact E].
  - apply Forall_forall. intros t Ht. split.
    + rewrite Forall_forall in Hall. apply Hall, Ht.
    + destruct (has_null t) eqn:E; [|reflexivity].
      rewrite <- Hn. symmetry. apply existsb_exists.
      apply list_elem_of_In, in_map_iff in Ht as ([k t'] & <- & Hin).
      exists (k, t'). split; [exact Hin|exact E].
Qed.

Lemma common_children (vs : list value) (ts : list tree) :
  Forall2 unfolds vs ts -> Forall (fun t => common t = true) ts -> Forall no_function vs.
Proof.
  induction 1 as [|v t vs ts Hv _ IH]; intros Hc; [constructor|].
  apply Forall_cons in Hc as [Hc Hcs].
  constructor; [apply (common_no_function v t Hv Hc)|apply IH, Hcs].
Qed.

Lemma unfolds_date (l : loc) (iso : string) (t : tree) :
  unfolds (Ref l) t -> heap !! l = Some (Date iso) -> t = AText l iso.
Proof.
  intros Hu Ho. inversion Hu as [| | | | |l' o' s Ho' Hform|l' vs ts Ho' _|l' ps ts Ho' _];
    subst; rewrite Ho in Ho'; try discriminate.
  injection Ho' as <-. injection Hform as <-. reflexivity.
Qed.

(** A round of the later version on a common input is the round of
    the first version. *)
Lemma sim_iteration (st st' : state) (lst : Legacy.state) (ts : list tree) :
  sim st lst ->
  apart st ts ->
  Forall (fun t => common t = true) ts ->
  iterateStack st = Some st' ->
  (exists lst', Legacy.iteration lst = Some (Legacy.Normal lst') /\ sim st' lst')
  \/ ((exists f rest, stack st = f :: rest /\ payload f = Val Null)
      /\ Legacy.iteration lst = Some Legacy.TypeError).
Proof.
  intros Hsim Hap Hc Hit.
  destruct (stack st) as [|[k p i d] rest] eqn:Hst.
  { unfold iterateStack in Hit. rewrite Hst in Hit. discriminate. }
  pose proof Hsim as (Hs & Hn & Hz & Hf & Ho). rewrite Hst in Hs. simpl in Hs.
  set (lst0 := Legacy.State (map legacy_frame rest) (Legacy.seen lst) (Legacy.size lst)
                 (Legacy.sizeLimitReached lst) (Legacy.output lst)).
  assert (sim (set_stack rest st) lst0) as H0 by (unfold sim; simpl; auto).
  unfold iterateStack in Hit. rewrite Hst in Hit.
  unfold Legacy.iteration. rewrite Hs. unfold legacy_frame at 1. cbn [key payload index depth].
  fold lst0.
  destruct p as [v|e].
  2: { injection Hit as <-. left. eexists. split; [reflexivity|].
       apply (sim_leaf k (TEnc e) _ i _ _ (value_string_enclosure e) H0). }
  pose proof Hap as (Hu & _ & _). rewrite Hst in Hu. unfold vals in Hu. simpl in Hu.
  apply Forall2_cons_inv_l in Hu as (t & ts0 & Ht & _ & ->).
  apply Forall_cons in Hc as [Hct _].
  destruct v as [|b|text|s|name|l| |big].
  - right. split; [|reflexivity]. eexists _, _. split; reflexivity.
  - injection Hit as <-. left. eexists. split; [reflexivity|].
    apply (sim_leaf k (TBool b) (Bool b) i); [destruct b; reflexivity|exact H0].
  - injection Hit as <-. left. eexists. split; [reflexivity|].
    apply (sim_leaf k (TNum text) (Number text) i); [reflexivity|exact H0].
  - injection Hit as <-. left. eexists. split; [reflexivity|].
    apply (sim_leaf k (TStr s) (Str s) i); [|exact H0].
    apply value_string_plain. inversion Ht; subst. exact Hct.
  - inversion Ht; subst. discriminate.
  - pose proof (apart_top_unseen st _ k l i d rest Hap Hst) as Hl.
    cbn [set_stack seen] in Hit. rewrite decide_False in Hit by exact Hl.
    cbn [Legacy.seen lst0]. rewrite decide_False by (rewrite Hn; exact Hl).
    destruct (heap !! l) as [o|] eqn:Hheap; [|discriminate].
    injection Hit as <-. left. eexists. split; [reflexivity|].
    destruct (unfolds_children l o t Ht Hheap) as [Hch _].
    apply sim_visit.
    + apply (no_error l o Hheap).
    + apply (common_children _ _ Hch). apply common_hereditary, Hct.
    + intros iso ->. rewrite (unfolds_date l iso t Ht Hheap) in Hct. exact Hct.
    + unfold sim. simpl. rewrite Hn. auto.
  - inversion Ht.
  - inversion Ht.
Qed.

Lemma sim_run (fuel : nat) (st st' : state) (lst : Legacy.state) (ts : list tree) :
  sim st lst ->
  apart st ts ->
  Forall common_without_null ts ->
  run fuel st = Some st' ->
  exists lst', Legacy.run fuel lst = Some (Legacy.Normal lst') /\ sim st' lst'.
Proof.
  revert st lst ts. induction fuel as [|fuel IH]; intros st lst ts Hsim Hap Hc Hrun.
  - simpl in *. pose proof Hsim as (Hs & _).
    destruct (stack st); [|discriminate]. injection Hrun as <-.
    rewrite Hs. simpl. eauto.
  - simpl in *. pose proof Hsim as (Hs & _).
    destruct (stack st) as [|f fs] eqn:Hst.
    { injection Hrun as <-. rewrite Hs. simpl. eauto. }
    rewrite Hs. simpl.
    destruct (iterateStack st) as [st1|] eqn:Hit; [|discriminate].
    destruct (sim_iteration st st1 lst ts Hsim Hap) as [(lst1 & Hl1 & Hsim1)|[Hnull _]];
      [eapply Forall_impl; [exact Hc|intros t [H _]; exact H]|exact Hit| |].
    + rewrite Hl1.
      destruct (iterateStack_apart _ st st1 ts without_null_hereditary Hit Hap Hc)
        as (ts1 & Hap1 & Hc1).
      apply (IH st1 lst1 ts1 Hsim1 Hap1 Hc1 Hrun).
    + exfalso. destruct Hnull as (f' & rest' & Hst' & Hp).
      rewrite Hst in Hst'. injection Hst' as <- <-.
      destruct Hap as (Hu & _). rewrite Hst in Hu. unfold vals in Hu. simpl in Hu.
      rewrite Hp in Hu. simpl in Hu.
      apply Forall2_cons_inv_l in Hu as (t & ts0 & Ht & _ & ->).
      apply Forall_cons in Hc as [[_ Hn] _]. inversion Ht; subst. discriminate.
Qed.

Section no_limits.

Hypothesis unlimited_depth : maxDepth = Infinity.
Hypothesis unlimited_size : maxSize = Infinity.

Lemma iterateStack_flag_unlimited (st st' : state) :
  iterateStack st = Some st' -> sizeLimitReached st = false -> sizeLimitReached st' = false.
Proof.
  apply (iterateStack_preserves (fun s => sizeLimitReached s = false)); auto.
  - intros s n _ Hf. rewrite (addSize_flag unlimited_size). exact Hf.
  - intros s v Hf. destruct (measureSize_unlimited unlimited_size v s) as [x ->]. exact Hf.
Qed.

(** With no limit, a sequence or a mapping with a key is expanded. *)
Lemma expanded_unlimited (key : option string) (o : object) (index : option nat)
    (d : nat) (st : state) :
  sizeLimitReached st = false ->
  (exists v vs, children o = v :: vs) \/ (exists vs, o = Sequence vs) ->
  length (stack st) < length (stack (visit key o index d st)).
Proof.
  intros Hf Ho.
  destruct o as [elems|[|p props]|iso|s|s];
    try (destruct Ho as [(v & vs & H)|(vs & H)]; discriminate).
  - rewrite (visit_sequence_below unlimited_size) by
      (try exact Hf; apply (below_unlimited unlimited_depth)).
    destruct (push_elements_pushed elems 0 d
                (push (Frame key (Enc LEFT_BRACKET) index d) (addSize 2 st)))
      as (fs & (Hs & _) & _).
    cbn [push set_stack stack]. rewrite Hs. cbn [push set_stack stack].
    rewrite length_cons, length_app, length_cons.
    destruct (addSize_unlimited unlimited_size 2 st) as [x ->]. simpl. lia.
  - rewrite (visit_mapping_below unlimited_size) by
      (try exact Hf; apply (below_unlimited unlimited_depth)).
    destruct (push_props_pushed (p :: props) 0 d
                (push (Frame key (Enc LEFT_BRACE) index d) (addSize 2 st)))
      as (fs & (Hs & _) & _).
    cbn [push set_stack stack]. rewrite Hs. cbn [push set_stack stack].
    rewrite length_cons, length_app, length_cons.
    destruct (addSize_unlimited unlimited_size 2 st) as [x ->]. simpl. lia.
Qed.

Lemma has_null_subtrees (t : tree) :
  has_null t = true -> t = ANull \/ Exists (fun t' => has_null t' = true) (subtrees t).
Proof.
  destruct t as [| | | | | |l ts|l ps]; simpl; try discriminate; auto.
  - intros H. right. apply existsb_exists in H as (t & Ht & H).
    apply Exists_exists. exists t. split; [apply list_elem_of_In, Ht|exact H].
  - intros H. right. apply existsb_exists in H as ([k t] & Ht & H).
    apply Exists_exists. exists t. split; [|exact H].
    apply list_elem_of_In, in_map_iff. exists (k, t). auto.
Qed.

(** With no limit, the first version throws when the later one makes
    its way through an input with a [null]. *)
Lemma legacy_run_null (fuel : nat) (st st' : state) (lst : Legacy.state) (ts : list tree) :
  sim st lst ->
  apart st ts ->
  Forall (fun t => common t = true) ts ->
  Exists (fun t => has_null t = true) ts ->
  sizeLimitReached st = false ->
  run fuel st = Some st' ->
  Legacy.run fuel lst = Some Legacy.TypeError.
Proof.
  revert st lst ts. induction fuel as [|fuel IH]; intros st lst ts Hsim Hap Hc Hnull Hf Hrun.
  all: assert (stack st <> []) as Hne
    by (intros Hs; destruct Hap as (Hu & _); rewrite Hs in Hu; simpl in Hu;
        apply Forall2_nil_inv_l in Hu as ->; apply Exists_nil in Hnull; exact Hnull).
  - simpl in Hrun. destruct (stack st); [congruence|discriminate].
  - simpl in Hrun. pose proof Hsim as (Hs & _).
    destruct (stack st) as [|[k p i d] rest] eqn:Hst; [congruence|].
    destruct (iterateStack st) as [st1|] eqn:Hit; [|discriminate].
    cbn [Legacy.run]. rewrite Hs. cbn [map].
    destruct (sim_iteration st st1 lst ts Hsim Hap Hc Hit) as [(lst1 & Hl1 & Hsim1)|[_ ->]];
      [|reflexivity].
    rewrite Hl1.
    pose proof (iterateStack_flag_unlimited st st1 Hit Hf) as Hf1.
    destruct (iterateStack_trees st st1 ts k p i d rest Hit Hap Hst)
      as [(e & _ & _ & Hap1)
         |(v & t & ts0 & -> & -> & Hu & [[Hs1 Hap1]|(l & o & n & -> & Ho & Hs1 & Hk & Hap1)])].
    + apply (IH st1 lst1 ts Hsim1 Hap1 Hc Hnull Hf1 Hrun).
    + apply Forall_cons in Hc as [Hct Hc0].
      apply (IH st1 lst1 ts0 Hsim1 Hap1 Hc0); [|exact Hf1|exact Hrun].
      apply Exists_cons in Hnull as [Hnt|Hn0]; [exfalso|exact Hn0].
      destruct (has_null_subtrees t Hnt) as [->|Hsub].
      * inversion Hu; subst. unfold Legacy.iteration in Hl1. rewrite Hs in Hl1.
        discriminate Hl1.
      * assert (exists l o, v = Ref l /\ heap !! l = Some o
                  /\ ((exists w ws, children o = w :: ws) \/ (exists ws, o = Sequence ws)))
          as (l & o & -> & Ho & Hexp).
        { inversion Hu as [| | | | |l' o' s' Ho' Hform|l' vs ts' Ho' Hvs|l' ps ts' Ho' Hps];
            subst; simpl in Hsub; try (apply Exists_nil in Hsub; contradiction).
          - exists l', (Sequence vs). eauto.
          - exists l', (Mapping ps). split; [reflexivity|]. split; [exact Ho'|]. left.
            destruct Hps as [|[k1 v1] q ps ts' _ _]; [apply Exists_nil in Hsub; contradiction|].
            simpl. eauto. }
        pose proof (apart_top_unseen st _ k l i d rest Hap Hst) as Hl.
        rewrite (iterateStack_unseen st k l i d rest o Hst Hl Ho) in Hit.
        injection Hit as <-.
        pose proof (expanded_unlimited k o i d (seen_add l (set_stack rest st)) Hf Hexp) as Hlen.
        rewrite Hs1 in Hlen. simpl in Hlen. lia.
    + apply Forall_cons in Hc as [Hct Hc0].
      assert (take n (subtrees t) = subtrees t) as Htake.
      { apply take_ge. destruct (decide (n < length (subtrees t))) as [Hlt|Hge]; [|lia].
        rewrite (Hk Hlt) in Hf1. discriminate. }
      rewrite Htake in Hap1.
      apply (IH st1 lst1 _ Hsim1 Hap1); [| |exact Hf1|exact Hrun].
      * apply Forall_app. split; [|exact Hc0]. apply Forall_rev, common_hereditary, Hct.
      * apply Exists_app. apply Exists_cons in Hnull as [Hnt|Hn0]; [left|right; exact Hn0].
        destruct (has_null_subtrees t Hnt) as [->|Hsub]; [inversion Hu|].
        apply Exists_exists in Hsub as (t' & Ht' & Hn'). apply Exists_exists.
        exists t'. split; [|exact Hn'].
        apply list_elem_of_In, in_rev. rewrite rev_involutive. apply list_elem_of_In, Ht'.
Qed.

End no_limits.

End versions.

Lemma sim_initial (object : value) : sim (initial object) (Legacy.initial object).
Proof. unfold sim. simpl. auto. Qed.

(** X18.  On an input of booleans, numbers, plain strings, dates, sequences
    and mappings in which no object is reached twice, the first
    version returns what the later version returns, whatever the
    limits: what was changed after it shows on no such input. *)
Theorem versions_agree_on_common_inputs {c : closure} {h : Legacy.conversion}
    (object : value) (t : tree) :
  (forall l o, heap !! l = Some o -> forall s, o <> ErrorLike s /\ o <> Pattern s) ->
  closed object = true ->
  unfolds object t ->
  NoDup (locs t) ->
  common t = true ->
  has_null t = false ->
  exists s,
    smartSerialize object = Some (Text s)
    /\ Legacy.smartSerialize object = Some (Legacy.Normal s).
Proof.
  intros Hheap Hclosed Hu Hn Hc Hnull.
  destruct (smartSerialize_returns object Hclosed) as (st & Hrun & _ & Hret).
  destruct (sim_run Hheap _ _ _ _ [t] (sim_initial object) (apart_initial object t Hu Hn)
              ltac:(constructor; [split; assumption|constructor]) Hrun)
    as (lst & Hlrun & (_ & _ & _ & _ & Hout)).
  exists (output st). split; [exact Hret|].
  unfold Legacy.smartSerialize.
  change (Legacy.rounds (Legacy.initial object)) with (rounds (initial object)).
  rewrite Hlrun, Hout. reflexivity.
Qed.

(** X19.  With no limit, the first version throws a [TypeError] on
    every input of [null], booleans, numbers, plain strings, dates,
    sequences and mappings in which no object is reached twice and
    which holds a [null] anywhere: [typeof null] is ['object'], and
    [seen.add(null)] throws.  The later version returns a string
    there. *)
Theorem first_version_throws_on_null {c : closure} {h : Legacy.conversion}
    (object : value) (t : tree) :
  (forall l o, heap !! l = Some o -> forall s, o <> ErrorLike s /\ o <> Pattern s) ->
  maxDepth = Infinity ->
  maxSize = Infinity ->
  closed object = true ->
  unfolds object t ->
  NoDup (locs t) ->
  common t = true ->
  has_null t = true ->
  Legacy.smartSerialize object = Some Legacy.TypeError
  /\ exists s, smartSerialize object = Some (Text s).
Proof.
  intros Hheap Hdepth Hsize Hclosed Hu Hn Hc Hnull.
  destruct (smartSerialize_returns object Hclosed) as (st & Hrun & _ & Hret).
  split; [|eauto].
  unfold Legacy.smartSerialize.
  change (Legacy.rounds (Legacy.initial object)) with (rounds (initial object)).
  rewrite (legacy_run_null Hheap Hdepth Hsize _ _ _ _ [t] (sim_initial object)
             (apart_initial object t Hu Hn)
             ltac:(constructor; [assumption|constructor])
             ltac:(constructor; assumption) eq_refl Hrun).
  reflexivity.
Qed.

(** X20.  The first version writes a root string between two quotes as it
    is, with no escape, and one of the six strings of brackets and
    braces with no quotes at all, whatever the limits; the later
    version escapes and quotes them all. *)
Theorem first_version_writes_strings_raw {c : closure} {h : Legacy.conversion} (s : string) :
  Legacy.smartSerialize (Str s)
  = Some (Legacy.Normal (if Legacy.isBraceOrBracket (Str s) then s
                         else quote +:+ s +:+ quote))
  /\ smartSerialize (Str s) = Some (Text (quote +:+ escape s +:+ quote)).
Proof.
  split.
  - unfold Legacy.smartSerialize, Legacy.rounds. cbn [Legacy.initial Legacy.stack length Nat.add].
    cbn [Legacy.run Legacy.stack Legacy.iteration Legacy.initial].
    cbn [truthy_index Legacy.render Legacy.output truthy_key].
    destruct (Legacy.isBraceOrBracket (Str s)) eqn:E;
      destruct (pending _); simpl; rewrite ?append_empty_l, ?append_empty_r;
      unfold Legacy.value_string; rewrite E; reflexivity.
  - rewrite (smartSerialize_one_round (Str s) _ eq_refl eq_refl). simpl.
    rewrite append_empty_r. reflexivity.
Qed.
(** ** [createObject] and the serialization of what it makes *)

Lemma lookup_unlimited (h : gmap loc object) (l : loc) :
  @heap (unlimited h) !! l = h !! l.
Proof. reflexivity. Qed.

Lemma unfolds_stable (h h' : gmap loc object) (v : value) (t : tree) :
  (forall x, x ∈ locs t -> h' !! x = h !! x) ->
  @unfolds (unlimited h) v t ->
  @unfolds (unlimited h') v t.
Proof.
  revert v. induction t as [|b|text|s|name|l s|l ts IH|l ps IH] using tree_induction;
    intros v Hsame Hu;
    inversion Hu as [| | | | |l' o s' Ho Hform|l' vs ts' Ho Hvs|l' qs ts' Ho Hqs];
    subst; try constructor.
  - eapply unfolds_text; [|exact Hform].
    rewrite lookup_unlimited in *. rewrite Hsame by (simpl; apply list_elem_of_here).
    exact Ho.
  - eapply unfolds_sequence.
    + rewrite lookup_unlimited in *. rewrite Hsame by (simpl; apply list_elem_of_here).
      exact Ho.
    + assert (forall x, x ∈ flat_map locs ts -> h' !! x = h !! x) as Hsub
        by (intros x Hx; apply Hsame; simpl; apply list_elem_of_further, Hx).
      clear Hsame Hu Ho. revert IH Hsub.
      induction Hvs as [|v t vs ts Hv _ IHF]; intros IH Hsub; [constructor|].
      apply Forall_cons in IH as [IHt IHts]. constructor.
      * apply IHt; [|exact Hv]. intros x Hx. apply Hsub. simpl. apply elem_of_app. auto.
      * apply IHF; [exact IHts|]. intros x Hx. apply Hsub. simpl. apply elem_of_app. auto.
  - eapply unfolds_mapping.
    + rewrite lookup_unlimited in *. rewrite Hsame by (simpl; apply list_elem_of_here).
      exact Ho.
    + assert (forall x, x ∈ flat_map (fun p => locs p.2) ps -> h' !! x = h !! x) as Hsub
        by (intros x Hx; apply Hsame; simpl; apply list_elem_of_further, Hx).
      clear Hsame Hu Ho. revert IH Hsub.
      induction Hqs as [|[k v] [k' t] vs ts [Hk Hv] _ IHF]; intros IH Hsub; [constructor|].
      apply Forall_cons in IH as [IHt IHts]. constructor.
      * split; [exact Hk|]. simpl in *. apply IHt; [|exact Hv].
        intros x Hx. apply Hsub. simpl. apply elem_of_app. auto.
      * apply IHF; [exact IHts|]. intros x Hx. apply Hsub. simpl. apply elem_of_app. auto.
Qed.

Lemma closed_value_mono (h h' : gmap loc object) (v : value) :
  (forall x, is_Some (h !! x) -> is_Some (h' !! x)) ->
  @closed_value (unlimited h) v = true ->
  @closed_value (unlimited h') v = true.
Proof.
  intros Hsub. destruct v as [| | | | |l| | ]; simpl; auto.
  rewrite ?lookup_unlimited. intros H. destruct (h !! l) as [o1|] eqn:E; [|discriminate].
  destruct (Hsub l ltac:(rewrite E; eauto)) as [o'' ->]. reflexivity.
Qed.

Lemma closed_object_mono (h h' : gmap loc object) (o : object) :
  (forall x, is_Some (h !! x) -> is_Some (h' !! x)) ->
  @closed_object (unlimited h) o = true ->
  @closed_object (unlimited h') o = true.
Proof.
  intros Hsub. pose proof (closed_value_mono h h') as Hv.
  destruct o as [elems|props| | |]; simpl; auto.
  - rewrite !forallb_forall. intros H v Hin. apply Hv; [exact Hsub|apply H, Hin].
  - rewrite !forallb_forall. intros H p Hin. apply Hv; [exact Hsub|apply (H p Hin)].
Qed.

Lemma unfolds_closed_value (h : gmap loc object) (v : value) (t : tree) :
  @unfolds (unlimited h) v t -> @closed_value (unlimited h) v = true.
Proof.
  intros Hu.
  inversion Hu as [| | | | |l' o s' Ho Hform|l' vs ts' Ho Hvs|l' qs ts' Ho Hqs];
    subst; try reflexivity; unfold closed_value; rewrite Ho; reflexivity.
Qed.

Lemma members_stable (h h' : gmap loc object) (ps : list (string * value))
    (qs : list (string * tree)) :
  (forall x, x ∈ flat_map (fun q => locs q.2) qs -> h' !! x = h !! x) ->
  Forall2 (fun p q => p.1 = q.1 /\ @unfolds (unlimited h) p.2 q.2) ps qs ->
  Forall2 (fun p q => p.1 = q.1 /\ @unfolds (unlimited h') p.2 q.2) ps qs.
Proof.
  intros Hsame Hu. induction Hu as [|p q ps qs [Hk Hv] _ IH]; [constructor|].
  constructor.
  - split; [exact Hk|]. apply (unfolds_stable h); [|exact Hv].
    intros x Hx. apply Hsame. simpl. apply elem_of_app. auto.
  - apply IH. intros x Hx. apply Hsame. simpl. apply elem_of_app. auto.
Qed.

Lemma assign_new (key : string) (v : value) (props : list (string * value)) :
  Forall (fun p => p.1 <> key) props -> assign key v props = props ++ [(key, v)].
Proof.
  induction 1 as [|[k w] props Hk _ IH]; [reflexivity|].
  simpl in *. apply String.eqb_neq in Hk. rewrite Hk, IH. reflexivity.
Qed.

Lemma created_unfold (breadth depth : nat) (l : loc) (ps : list (string * tree)) :
  created breadth depth (AMapping l ps)
  = (length ps = breadth
     /\ Forall (fun p =>
                 is_uuid p.1
                 /\ match depth with
                    | S (S _ as depth') => created breadth depth' p.2
                    | _ => exists u, p.2 = AString u /\ is_uuid u
                    end) ps).
Proof. destruct depth; reflexivity. Qed.

Section creation.

Variable UUIDs : nat -> string.

(** The first [K] UUIDs are all different, and UUIDs. *)
Variable K : nat.
Hypothesis distinct : NoDup (map UUIDs (seq 0 K)).
Hypothesis well_formed : Forall is_uuid (map UUIDs (seq 0 K)).

Lemma UUIDs_differ (i j : nat) : i < j -> j < K -> UUIDs i <> UUIDs j.
Proof.
  intros Hij Hj Heq.
  assert (map UUIDs (seq 0 K) !! i = Some (UUIDs i)) as Hi.
  { change (map UUIDs (seq 0 K)) with (UUIDs <$> seq 0 K).
    rewrite list_lookup_fmap, lookup_seq_lt by lia. reflexivity. }
  assert (map UUIDs (seq 0 K) !! j = Some (UUIDs i)) as Hj'.
  { rewrite Heq. change (map UUIDs (seq 0 K)) with (UUIDs <$> seq 0 K).
    rewrite list_lookup_fmap, lookup_seq_lt by lia. reflexivity. }
  pose proof (NoDup_lookup _ _ _ _ distinct Hi Hj'). lia.
Qed.

Lemma UUIDs_well_formed (i : nat) : i < K -> is_uuid (UUIDs i).
Proof.
  intros Hi. rewrite Forall_forall in well_formed. apply well_formed.
  apply list_elem_of_In, in_map, in_seq. lia.
Qed.

Lemma set_property_drawn (obj : loc) (key : string) (v : value) (w : world) :
  drawn (set_property obj key v w) = drawn w /\ next (set_property obj key v w) = next w.
Proof.
  unfold set_property. destruct (objects w !! obj) as [[]|]; split; reflexivity.
Qed.

Lemma fill_drawn (make : world -> value * world) (obj : loc) (n : nat) (w : world) :
  (forall w0, drawn w0 <= drawn (make w0).2) ->
  drawn w <= drawn (fill UUIDs make obj n w).
Proof.
  intros Hmake. revert w. induction n as [|n IH]; intros w; [reflexivity|].
  cbn [fill randomUUID].
  destruct (make (World (objects w) (next w) (S (drawn w)))) as [v w2] eqn:E.
  etransitivity; [|apply IH].
  rewrite (proj1 (set_property_drawn obj _ v w2)).
  specialize (Hmake (World (objects w) (next w) (S (drawn w)))). rewrite E in Hmake.
  simpl in Hmake. lia.
Qed.

(** The right-hand side of the assignment in the loop of
    [createObject breadth depth]. *)
Lemma createObject_unfold (breadth depth : nat) (w : world) :
  createObject UUIDs breadth depth w
  = (next w,
     fill UUIDs
       (fun w =>
          match depth with
          | S (S _ as depth') =>
              let (child, w) := createObject UUIDs breadth depth' w in (Ref child, w)
          | _ => let (uuid, w) := randomUUID UUIDs w in (Str uuid, w)
          end)
       (next w) breadth (new_object w).2).
Proof. destruct depth; reflexivity. Qed.

Lemma createObject_drawn (breadth depth : nat) (w : world) :
  drawn w <= drawn (createObject UUIDs breadth depth w).2.
Proof.
  revert w. induction depth as [depth IH] using lt_wf_ind. intros w.
  rewrite createObject_unfold. cbn [snd].
  etransitivity; [|apply fill_drawn]; [reflexivity|].
  intros w0. destruct depth as [|[|d]]; cbv iota beta; try (simpl; lia).
  specialize (IH (S d) ltac:(lia) w0).
  destruct (createObject UUIDs breadth (S d) w0). exact IH.
Qed.

Lemma tidy_insert (w : world) (l : loc) (o : object) (n' : loc) (k : nat) :
  tidy w ->
  l < n' ->
  next w <= n' ->
  @closed_object (unlimited (<[l := o]> (objects w))) o = true ->
  tidy (World (<[l := o]> (objects w)) n' k).
Proof.
  intros [Hfresh Hclosed] Hl Hn Ho. split; simpl.
  - intros x Hx. rewrite lookup_insert_ne by lia. apply Hfresh. lia.
  - apply map_Forall_insert_2; [exact Ho|].
    intros x o' Hx. apply (closed_object_mono (objects w)); [|apply (Hclosed x o' Hx)].
    intros y [oy Hy]. destruct (decide (l = y)) as [->|Hne].
    + rewrite lookup_insert_eq. eauto.
    + rewrite lookup_insert_ne by exact Hne. eauto.
Qed.

Lemma entries_keys (w : world) (obj : loc) (ps : list (string * value))
    (qs : list (string * tree)) (key : string) :
  entries UUIDs w obj ps qs ->
  (forall j, j < drawn w -> UUIDs j <> key) ->
  Forall (fun p => p.1 <> key) ps.
Proof.
  intros (Hu & Hk & _) Hnew. clear -Hu Hk Hnew.
  induction Hu as [|p q ps qs [Hpq _] _ IH]; [constructor|].
  apply Forall_cons in Hk as [(j & Hj & Hq) Hk].
  constructor; [|apply IH, Hk]. rewrite Hpq, Hq. apply Hnew, Hj.
Qed.

(** The loop adds [n] entries to the object, one after the last. *)
Lemma fill_ok (Q : tree -> Prop) (make : world -> value * world) (obj : loc) (n : nat) :
  makes Q K make ->
  (forall w0, drawn w0 <= drawn (make w0).2) ->
  forall w ps qs,
    tidy w ->
    obj < next w ->
    objects w !! obj = Some (Mapping ps) ->
    entries UUIDs w obj ps qs ->
    Forall (fun q => Q q.2) qs ->
    drawn (fill UUIDs make obj n w) <= K ->
    tidy (fill UUIDs make obj n w)
    /\ later (Some obj) w (fill UUIDs make obj n w)
    /\ exists ps' qs',
        objects (fill UUIDs make obj n w) !! obj = Some (Mapping ps')
        /\ entries UUIDs (fill UUIDs make obj n w) obj ps' qs'
        /\ Forall (fun q => Q q.2) qs'
        /\ length qs' = length qs + n.
Proof.
  intros Hmake Hmono. induction n as [|n IH]; intros w ps qs Htidy Hobj Hps Hent HQ HK.
  - simpl. split; [exact Htidy|]. split; [unfold later; auto|].
    exists ps, qs. auto.
  - cbn [fill randomUUID] in *.
    set (w1 := World (objects w) (next w) (S (drawn w))) in *.
    assert (tidy w1) as Htidy1 by exact Htidy.
    pose proof (Hmono w1) as Hmono1. pose proof (Hmake w1 Htidy1) as Hmake1.
    destruct (make w1) as [v w2] eqn:E. cbn [fst snd] in *.
    set (key := UUIDs (drawn w)) in *.
    pose proof (fill_drawn make obj n (set_property obj key v w2) Hmono) as Hd3.
    rewrite (proj1 (set_property_drawn obj key v w2)) in Hd3.
    destruct Hmake1 as (Htidy2 & (Hn12 & Hd12 & Hsame12) & t & (Hut & Hnt & Hrt) & HQt);
      [lia|].
    simpl in Hn12, Hd12, Hsame12, Hrt.
    assert (objects w2 !! obj = Some (Mapping ps)) as Hps2
      by (rewrite Hsame12 by (auto; discriminate); exact Hps).
    assert (assign key v ps = ps ++ [(key, v)]) as Hassign.
    { apply assign_new, (entries_keys w obj ps qs key Hent).
      intros j Hj. apply UUIDs_differ; [exact Hj|simpl in Hmono1; lia]. }
    assert (set_property obj key v w2
            = World (<[obj := Mapping (ps ++ [(key, v)])]> (objects w2)) (next w2) (drawn w2))
      as Hset by (unfold set_property; rewrite Hps2, Hassign; reflexivity).
    rewrite Hset in *. clear Hset.
    set (w3 := World (<[obj := Mapping (ps ++ [(key, v)])]> (objects w2)) (next w2) (drawn w2))
      in *.
    destruct Hent as (Hu & Hk & Hnd & Hrange).
    assert (forall x, obj < x -> objects w3 !! x = objects w2 !! x) as Hsame23
      by (intros x Hx; simpl; rewrite lookup_insert_ne by lia; reflexivity).
    assert (tidy w3) as Htidy3.
    { apply tidy_insert; [exact Htidy2|lia|lia|].
      destruct Htidy2 as [_ Hclosed2]. pose proof (Hclosed2 obj _ Hps2) as Hcps.
      assert (forall y, is_Some (objects w2 !! y) ->
                is_Some (<[obj := Mapping (ps ++ [(key, v)])]> (objects w2) !! y)) as Hdom.
      { intros y [oy Hy]. destruct (decide (obj = y)) as [->|Hne].
        - rewrite lookup_insert_eq. eauto.
        - rewrite lookup_insert_ne by exact Hne. eauto. }
      simpl. rewrite forallb_app. apply andb_true_iff. split.
      - apply (closed_object_mono _ _ (Mapping ps) Hdom) in Hcps. exact Hcps.
      - simpl. rewrite andb_true_r.
        apply (closed_value_mono _ _ v Hdom), (unfolds_closed_value _ _ _ Hut). }
    destruct (IH w3 (ps ++ [(key, v)]) (qs ++ [(key, t)]) Htidy3)
      as (Htidy' & (Hn' & Hd' & Hsame') & ps' & qs' & Hps' & Hent' & HQ' & Hlen').
    + simpl. lia.
    + simpl. apply lookup_insert_eq.
    + split_and!.
      * apply Forall2_app.
        -- apply (members_stable (objects w)); [|exact Hu].
           intros x Hx. specialize (Hrange x Hx). rewrite Hsame23 by lia.
           apply Hsame12; [lia|discriminate].
        -- constructor; [|constructor]. split; [reflexivity|]. simpl.
           apply (unfolds_stable (objects w2)); [|exact Hut].
           intros x Hx. apply Hsame23. specialize (Hrt x Hx). lia.
      * apply Forall_app. split.
        -- eapply Forall_impl; [exact Hk|]. intros q (j & Hj & Hq). exists j.
           split; [simpl; lia|exact Hq].
        -- constructor; [|constructor]. exists (drawn w). split; [simpl; lia|reflexivity].
      * rewrite flat_map_app. simpl. rewrite app_nil_r. apply NoDup_app.
        split_and!; [exact Hnd| |exact Hnt].
        intros x Hx Hxt. specialize (Hrange x Hx). specialize (Hrt x Hxt). lia.
      * intros x Hx. rewrite flat_map_app in Hx. simpl in Hx. rewrite app_nil_r in Hx.
        apply elem_of_app in Hx as [Hx|Hx].
        -- specialize (Hrange x Hx). simpl. lia.
        -- specialize (Hrt x Hx). simpl. lia.
    + apply Forall_app. split; [exact HQ|]. constructor; [exact HQt|constructor].
    + exact HK.
    + split; [exact Htidy'|]. split.
      * unfold later. simpl in Hn', Hd'. split_and!; [lia|lia|].
        intros x Hx Hne. rewrite Hsame' by (simpl; auto; lia).
        simpl. rewrite lookup_insert_ne by (intros ->; apply Hne; reflexivity).
        apply Hsame12; [lia|discriminate].
      * exists ps', qs'. split_and!; auto. rewrite Hlen', length_app. simpl. lia.
Qed.

Lemma randomUUID_makes :
  makes (fun t => exists u, t = AString u /\ is_uuid u) K
    (fun w => let (uuid, w) := randomUUID UUIDs w in (Str uuid, w)).
Proof.
  intros w Htidy HK. simpl in *. split; [exact Htidy|]. split; [unfold later; simpl; auto|].
  exists (AString (UUIDs (drawn w))). split.
  - split; [constructor|]. split; [constructor|]. simpl. intros x Hx.
    apply elem_of_nil in Hx. contradiction.
  - eexists. split; [reflexivity|]. apply UUIDs_well_formed. lia.
Qed.

(** [createObject] returns a new object that unfolds to a tree of its
    kind, and leaves the objects that were there as they were. *)
Lemma createObject_makes (breadth depth : nat) :
  makes (created breadth depth) K
    (fun w => let (child, w) := createObject UUIDs breadth depth w in (Ref child, w)).
Proof.
  induction depth as [depth IH] using lt_wf_ind. intros w Htidy HK.
  rewrite createObject_unfold in *. cbn [fst snd] in *.
  set (make := fun w0 : world =>
                 match depth with
                 | S (S _ as depth') =>
                     let (child, w1) := createObject UUIDs breadth depth' w0 in (Ref child, w1)
                 | _ => let (uuid, w1) := randomUUID UUIDs w0 in (Str uuid, w1)
                 end) in *.
  set (Q := fun t : tree =>
              match depth with
              | S (S _ as depth') => created breadth depth' t
              | _ => exists u, t = AString u /\ is_uuid u
              end).
  assert (makes Q K make) as Hmake.
  { unfold Q, make. destruct depth as [|[|d]]; try apply randomUUID_makes.
    apply (IH (S d)). lia. }
  assert (forall w0, drawn w0 <= drawn (make w0).2) as Hmono.
  { intros w0. unfold make. destruct depth as [|[|d]]; try (simpl; lia).
    pose proof (createObject_drawn breadth (S d) w0) as H.
    destruct (createObject UUIDs breadth (S d) w0). exact H. }
  set (obj := next w) in *.
  set (w0 := (new_object w).2) in *.
  assert (tidy w0) as Htidy0 by (apply tidy_insert; [exact Htidy|unfold obj; lia..|reflexivity]).
  destruct (fill_ok Q make obj breadth Hmake Hmono w0 [] [] Htidy0)
    as (Htidy' & (Hn' & Hd' & Hsame') & ps' & qs' & Hps' & (Hu & Hk & Hnd & Hrange) & HQ & Hlen).
  { simpl. unfold obj. lia. }
  { simpl. apply lookup_insert_eq. }
  { unfold entries. simpl. split_and!; [constructor|constructor|constructor|].
    intros x Hx. apply elem_of_nil in Hx. contradiction. }
  { constructor. }
  { exact HK. }
  set (w' := fill UUIDs make obj breadth w0) in *. simpl in Hn', Hd'.
  split; [exact Htidy'|]. split.
  - unfold later. split_and!; [unfold obj in *; lia|lia|].
    intros x Hx _.
    rewrite Hsame';
      [|simpl; unfold obj; lia|intros Heq; injection Heq as Heq; unfold obj in *; lia].
    simpl. apply lookup_insert_ne. unfold obj. lia.
  - exists (AMapping obj qs'). split; [split; [|split]|].
    + eapply unfolds_mapping; [exact Hps'|exact Hu].
    + simpl. apply NoDup_cons. split; [|exact Hnd].
      intros Hin. specialize (Hrange obj Hin). lia.
    + simpl. intros x Hx. apply elem_of_cons in Hx as [->|Hx].
      * unfold obj in *. lia.
      * specialize (Hrange x Hx). unfold obj in *. lia.
    + rewrite created_unfold. split; [rewrite Hlen; reflexivity|].
      rewrite Forall_forall in Hk, HQ. apply Forall_forall. intros q Hq. split.
      * destruct (Hk q Hq) as (j & Hj & ->). apply UUIDs_well_formed. lia.
      * specialize (HQ q Hq). unfold Q in HQ. destruct depth as [|[|d]]; exact HQ.
Qed.

End creation.

(** *** The length of the serialization *)

Lemma serialized_length_unfold (breadth : N) (depth : nat) :
  breadth <> 0%N ->
  serialized_length breadth depth
  = (2 + breadth * 39 + (breadth - 1)
     + breadth * match depth with
                 | S (S _ as depth') => serialized_length breadth depth'
                 | _ => 38
                 end)%N.
Proof. intros Hb. destruct depth as [|[|d]]; destruct breadth; try reflexivity; congruence. Qed.

Lemma key_prefix_uuid (k : string) :
  is_uuid k -> String.length (key_prefix (Some k)) = 39.
Proof.
  intros [Hlen _]. destruct k as [|a k]; [discriminate|].
  unfold key_prefix, truthy_key. cbn [default]. unfold quote.
  rewrite !length_append. simpl in *. lia.
Qed.

Lemma value_text_uuid (u : string) :
  is_uuid u -> String.length (value_text (AString u)) = 38.
Proof.
  intros [Hlen Ht]. cbn [value_text]. unfold escape. rewrite Ht. unfold quote.
  rewrite !length_append. simpl. lia.
Qed.

Lemma length_comma (i : nat) :
  String.length (comma (Some i)) = if (i =? 0)%nat then 0 else 1.
Proof. destruct i; reflexivity. Qed.

(** The entries of a created object, from index [i] on: each takes
    its comma, 39 characters for its key and [c] for its value. *)
Lemma members_length (c : N) (ps : list (string * tree)) (i : nat) :
  Forall (fun p =>
            forall index,
              N.of_nat (String.length (rendering (Some p.1) p.2 index))
              = (N.of_nat (String.length (comma index)) + 39 + c)%N) ps ->
  N.of_nat (String.length (members_rendering ps i))
  = (N.of_nat (length ps) * (39 + c)
     + N.of_nat (if (i =? 0)%nat then length ps - 1 else length ps))%N.
Proof.
  intros Hps. revert i. induction Hps as [|[k t] ps Hp _ IH]; intros i;
    [simpl; destruct (i =? 0)%nat; reflexivity|].
  cbn [members_rendering length]. rewrite length_append, Nat2N.inj_add.
  simpl in Hp. rewrite (Hp (Some i)), IH, length_comma.
  cbn [Nat.eqb]. rewrite Nat2N.inj_succ, N.mul_succ_l.
  destruct (i =? 0)%nat; lia.
Qed.

Lemma rendering_created (breadth depth : nat) (t : tree) (key : option string)
    (index : option nat) :
  created breadth depth t ->
  breadth <> 0 ->
  N.of_nat (String.length (rendering key t index))
  = (N.of_nat (String.length (comma index) + String.length (key_prefix key))
     + serialized_length (N.of_nat breadth) depth)%N.
Proof.
  revert t key index. induction depth as [depth IH] using lt_wf_ind.
  intros t key index Ht Hb. destruct t as [| | | | | | |l ps]; try (destruct depth; contradiction).
  rewrite created_unfold in Ht. destruct Ht as [Hlen Hall].
  destruct ps as [|p ps]; [simpl in Hlen; congruence|].
  rewrite rendering_mapping, serialized_length_unfold by lia.
  set (c := match depth with
            | S (S _ as depth') => serialized_length (N.of_nat breadth) depth'
            | _ => 38%N
            end).
  rewrite !length_append, !Nat2N.inj_add.
  rewrite (members_length c (p :: ps) 0).
  - rewrite Hlen. simpl String.length. cbn [Nat.eqb]. lia.
  - eapply Forall_impl; [exact Hall|]. intros [k t] [Hk Hv] index'. simpl in *.
    unfold c. destruct depth as [|[|d]].
    + destruct Hv as (u & -> & Hu). cbn [rendering].
      rewrite !length_append, (key_prefix_uuid k Hk), (value_text_uuid u Hu). lia.
    + destruct Hv as (u & -> & Hu). cbn [rendering].
      rewrite !length_append, (key_prefix_uuid k Hk), (value_text_uuid u Hu). lia.
    + rewrite (IH (S d) ltac:(lia) t (Some k) index' Hv Hb), (key_prefix_uuid k Hk). lia.
Qed.

Lemma tidy_empty_world : tidy empty_world.
Proof. split; [intros l _; apply lookup_empty|apply map_Forall_empty]. Qed.

(** What [createObject] returns in a fresh store. *)
Lemma createObject_tree (UUIDs : nat -> string) (breadth depth : nat) (obj : loc)
    (w : world) :
  createObject UUIDs breadth depth empty_world = (obj, w) ->
  NoDup (map UUIDs (seq 0 (drawn w))) ->
  Forall is_uuid (map UUIDs (seq 0 (drawn w))) ->
  exists t,
    @unfolds (unlimited (objects w)) (Ref obj) t
    /\ NoDup (locs t)
    /\ created breadth depth t
    /\ @closed (unlimited (objects w)) (Ref obj) = true.
Proof.
  intros Hcreate Hdistinct Huuid.
  pose proof (createObject_makes UUIDs (drawn w) Hdistinct Huuid breadth depth
                empty_world tidy_empty_world) as H.
  cbv beta in H. rewrite Hcreate in H. cbn [fst snd] in H.
  destruct (H (le_n _)) as ([_ Hclosed] & _ & t & (Hu & Hn & _) & Ht).
  exists t. split_and!; try assumption.
  unfold closed. rewrite (unfolds_closed_value _ _ _ Hu). simpl.
  apply bool_decide_eq_true. exact Hclosed.
Qed.

(** X21.  In a fresh store and with UUIDs that are all different,
    [createObject(breadth, depth)] returns an object of [breadth]
    keys, each a UUID, whose values are UUIDs when [depth] is at most
    1 and objects made the same way with [depth - 1] otherwise; no
    object in it is reached twice.  A [depth] of 0 gives what a
    [depth] of 1 gives. *)
Theorem createObject_makes_a_tree (UUIDs : nat -> string) (breadth depth : nat)
    (obj : loc) (w : world) :
  createObject UUIDs breadth depth empty_world = (obj, w) ->
  NoDup (map UUIDs (seq 0 (drawn w))) ->
  Forall is_uuid (map UUIDs (seq 0 (drawn w))) ->
  (exists t,
      @unfolds (unlimited (objects w)) (Ref obj) t
      /\ NoDup (locs t)
      /\ created breadth depth t)
  /\ createObject UUIDs breadth 0 empty_world = createObject UUIDs breadth 1 empty_world.
Proof.
  intros Hcreate Hdistinct Huuid. split; [|reflexivity].
  destruct (createObject_tree UUIDs breadth depth obj w Hcreate Hdistinct Huuid)
    as (t & Hu & Hn & Ht & _).
  eauto.
Qed.

(** X22.  The serialization of [createObject(breadth, depth)] with no
    limits has [serialized_length breadth depth] characters, for UUIDs
    of 36 characters: 69863851 for [createObject(7, 7)], the figure in
    the example. *)
Theorem createObject_serialized_length (UUIDs : nat -> string) (breadth depth : nat)
    (obj : loc) (w : world) :
  createObject UUIDs breadth depth empty_world = (obj, w) ->
  NoDup (map UUIDs (seq 0 (drawn w))) ->
  Forall is_uuid (map UUIDs (seq 0 (drawn w))) ->
  (exists s,
      @smartSerialize (unlimited (objects w)) (Ref obj) = Some (Text s)
      /\ N.of_nat (String.length s) = serialized_length (N.of_nat breadth) depth)
  /\ serialized_length 7 7 = 69863851%N.
Proof.
  intros Hcreate Hdistinct Huuid. split; [|vm_compute; reflexivity].
  destruct (createObject_tree UUIDs breadth depth obj w Hcreate Hdistinct Huuid)
    as (t & Hu & Hn & Ht & Hclosed).
  exists (rendering None t None). split.
  - destruct (@rendering_run (unlimited (objects w)) (Ref obj) t eq_refl I Hu Hn)
      as (st' & Hruns & Hstack & Hout).
    rewrite (smartSerialize_runs_to (Ref obj) st' Hclosed Hruns Hstack), Hout. reflexivity.
  - destruct (decide (breadth = 0)) as [->|Hb].
    + destruct t as [| | | | | | |l ps]; try (destruct depth; contradiction).
      rewrite created_unfold in Ht. destruct Ht as [Hlen _].
      destruct ps; [|discriminate]. destruct depth; reflexivity.
    + rewrite (rendering_created breadth depth t None None Ht Hb). reflexivity.
Qed.
(** ** The further theorems at concrete inputs *)

Lemma no_errors_spec (h : gmap loc object) :
  no_errors h = true ->
  forall l o, h !! l = Some o -> forall s, o <> ErrorLike s /\ o <> Pattern s.
Proof.
  intros H l o Hl s. apply bool_decide_eq_true in H. specialize (H l o Hl).
  split; intros ->; discriminate.
Qed.

Lemma escape_injective_witness : odd_key = odd_key.
Proof. apply (escape_injective odd_key odd_key). reflexivity. Defined.

Lemma root_scalar_ignores_limits_witness :
  @smartSerialize size_five (Str "aaaaaaaaaa")
  = Some (Text (value_text (AString "aaaaaaaaaa"))).
Proof.
  apply (@root_scalar_ignores_limits size_five (Str "aaaaaaaaaa") (AString "aaaaaaaaaa")).
  - constructor.
  - reflexivity.
Defined.

Lemma root_container_collapses_witness :
  @smartSerialize (Closure nested_object (Finite 0) Infinity not_numeric) (Ref 1)
  = Some (Text "{}").
Proof.
  apply (@root_container_collapses (Closure nested_object (Finite 0) Infinity not_numeric)
           1 (Mapping [("foo", Ref 2)]) BRACES).
  - reflexivity.
  - reflexivity.
  - left. exists 0%Z. split; [reflexivity|lia].
Defined.

Lemma root_without_keys_is_empty_text_witness :
  @smartSerialize (Closure a_empty (Finite 4) (Finite 70) not_numeric) (Ref 2)
  = Some (Text "").
Proof.
  apply (@root_without_keys_is_empty_text
           (Closure a_empty (Finite 4) (Finite 70) not_numeric) 2).
  reflexivity.
Defined.

Lemma expansion_pushes_a_prefix_witness :
  exists st',
    @iterateStack size_five (initial (Ref 1)) = Some st'
    /\ (stack st' = []
        \/ exists k,
            k <= 2
            /\ stack st'
               = Frame None (Enc RIGHT_BRACKET) None 0
                   :: rev (take k [Frame None (Val (Ref 2)) (Some 0) 1;
                                   Frame None (Val (Str "aaaaaaaaaa")) (Some 1) 1])
                   ++ [Frame None (Enc LEFT_BRACKET) None 0]
            /\ (sizeLimitReached st' = false -> k = 2)).
Proof.
  apply (@expansion_pushes_a_prefix size_five (initial (Ref 1)) None 1 None 0 []
           (Sequence [Ref 2; Str "aaaaaaaaaa"])).
  - reflexivity.
  - apply not_elem_of_empty.
  - reflexivity.
Defined.

Lemma stack_within_maxDepth_witness :
  Forall (fun f => @within depth_two (depth f)) (stack (after depth_two 4 (Ref 1))).
Proof.
  apply (@stack_within_maxDepth depth_two 4 (Ref 1)). vm_compute. reflexivity.
Defined.

Lemma size_stays_a_number_witness :
  exists k, size (after (unlimited one_two_three) 3 (Ref 1)) = CNum k /\ (0 <= k)%Z.
Proof.
  apply (@size_stays_a_number (unlimited one_two_three) 3 (Ref 1)).
  - apply no_errors_spec. vm_compute. reflexivity.
  - vm_compute. reflexivity.
Defined.

Lemma flag_is_set_in_time_witness :
  @exceeds size_ten (size (after size_ten 2 (Ref 1))) = false.
Proof.
  apply (@flag_is_set_in_time size_ten 2 (Ref 1)).
  - reflexivity.
  - vm_compute. reflexivity.
  - vm_compute. reflexivity.
Defined.

Lemma output_grows_in_front_witness :
  exists rs,
    rendered (after (unlimited one_two_three) 4 (Ref 1))
    = rs ++ rendered (after (unlimited one_two_three) 2 (Ref 1))
    /\ output (after (unlimited one_two_three) 4 (Ref 1))
       = rendered_text rs +:+ output (after (unlimited one_two_three) 2 (Ref 1)).
Proof.
  apply (@output_grows_in_front (unlimited one_two_three) 2).
  vm_compute. reflexivity.
Defined.

Lemma callback_gets_the_result_witness :
  exists s s0 e st,
    @smartSerialize (unlimited one_two_three) (Ref 1) = Some (Text s)
    /\ @smartSerialize_callback (unlimited one_two_three) (Ref 1) = Some (Text s0, e, st)
    /\ @timers (unlimited one_two_three)
         (@rounds (unlimited one_two_three) (initial (Ref 1)) / BATCH_SIZE) e st
       = Some s
    /\ (exists text, s = text +:+ s0)
    /\ (@rounds (unlimited one_two_three) (initial (Ref 1)) <= BATCH_SIZE -> e = Callback s).
Proof.
  apply (@callback_gets_the_result (unlimited one_two_three) (Ref 1)).
  vm_compute. reflexivity.
Defined.

Lemma unreached_maxSize_changes_nothing_witness :
  @smartSerialize (Closure one_two_three Infinity (Finite 70) not_numeric) (Ref 1)
  = Some (Text (output (after (Closure one_two_three Infinity (Finite 70) not_numeric)
                          6 (Ref 1))))
  /\ @smartSerialize (Closure one_two_three Infinity Infinity not_numeric) (Ref 1)
     = Some (Text (output (after (Closure one_two_three Infinity (Finite 70) not_numeric)
                             6 (Ref 1)))).
Proof.
  apply (unreached_maxSize_changes_nothing one_two_three Infinity (Finite 70) not_numeric
           (Ref 1)).
  - vm_compute. reflexivity.
  - vm_compute. reflexivity.
Defined.

Lemma output_is_the_rendering_witness :
  @smartSerialize (unlimited a_empty) (Ref 1)
  = Some (Text (rendering None a_empty_tree None)).
Proof.
  apply (@output_is_the_rendering (unlimited a_empty) (Ref 1) a_empty_tree).
  - reflexivity.
  - exact I.
  - vm_compute. reflexivity.
  - eapply (unfolds_mapping 1); [reflexivity|].
    constructor; [|constructor]. split; [reflexivity|].
    eapply (unfolds_mapping 2); [reflexivity|constructor].
  - apply (bool_decide_unpack (NoDup (locs a_empty_tree))). vm_compute. exact I.
Defined.

Lemma estimate_of_a_primitive_witness :
  exists k,
    size (@measureSize (unlimited ∅) (Str "abc") size_is_two) = CNum (2 + k)
    /\ (k <= Z.of_nat (String.length (value_text (AString "abc"))))%Z
    /\ (test "abc" = false -> k = Z.of_nat (String.length (value_text (AString "abc")))).
Proof.
  apply (@estimate_of_a_primitive (unlimited ∅) (Str "abc") (AString "abc") 2 size_is_two).
  - constructor.
  - intros l. discriminate.
  - reflexivity.
Defined.

Lemma without_sharing_nothing_is_seen_twice_witness :
  bool_decide (2 ∈ seen (after (unlimited nested_object) 2 (Ref 1))) = false.
Proof.
  apply bool_decide_eq_false.
  apply (@without_sharing_nothing_is_seen_twice (unlimited nested_object) 2 (Ref 1)
           nested_object_tree (after (unlimited nested_object) 2 (Ref 1))
           (Some "foo") 2 (Some 0) 1 [Frame None (Enc LEFT_BRACE) None 0]).
  - eapply (unfolds_mapping 1); [reflexivity|].
    constructor; [|constructor]. split; [reflexivity|].
    eapply (unfolds_mapping 2); [reflexivity|].
    constructor; [|constructor]. split; [reflexivity|].
    eapply (unfolds_mapping 3); [reflexivity|].
    constructor; [|constructor]. split; [reflexivity|]. constructor.
  - apply (bool_decide_unpack (NoDup (locs nested_object_tree))). vm_compute. exact I.
  - vm_compute. reflexivity.
  - vm_compute. reflexivity.
Defined.

Lemma versions_agree_on_common_inputs_witness :
  exists s,
    @smartSerialize (Closure simple_object (Finite 4) (Finite 10) not_numeric) (Ref 1)
    = Some (Text s)
    /\ @Legacy.smartSerialize (Closure simple_object (Finite 4) (Finite 10) not_numeric)
         object_Object (Ref 1)
       = Some (Legacy.Normal s).
Proof.
  apply (@versions_agree_on_common_inputs
           (Closure simple_object (Finite 4) (Finite 10) not_numeric) object_Object
           (Ref 1) simple_object_tree).
  - apply no_errors_spec. vm_compute. reflexivity.
  - vm_compute. reflexivity.
  - eapply (unfolds_mapping 1); [reflexivity|].
    constructor; [split; [reflexivity|constructor]|].
    constructor; [split; [reflexivity|constructor]|constructor].
  - apply (bool_decide_unpack (NoDup (locs simple_object_tree))). vm_compute. exact I.
  - reflexivity.
  - reflexivity.
Defined.

Lemma first_version_throws_on_null_witness :
  @Legacy.smartSerialize (unlimited null_value) object_Object (Ref 1)
  = Some Legacy.TypeError
  /\ exists s, @smartSerialize (unlimited null_value) (Ref 1) = Some (Text s).
Proof.
  apply (@first_version_throws_on_null (unlimited null_value) object_Object
           (Ref 1) null_value_tree).
  - apply no_errors_spec. vm_compute. reflexivity.
  - reflexivity.
  - reflexivity.
  - vm_compute. reflexivity.
  - eapply (unfolds_mapping 1); [reflexivity|].
    constructor; [split; [reflexivity|constructor]|constructor].
  - apply (bool_decide_unpack (NoDup (locs null_value_tree))). vm_compute. exact I.
  - reflexivity.
  - reflexivity.
Defined.

Lemma createObject_makes_a_tree_witness :
  (exists t,
      @unfolds (unlimited (objects (createObject example_UUIDs 2 2 empty_world).2))
        (Ref (createObject example_UUIDs 2 2 empty_world).1) t
      /\ NoDup (locs t)
      /\ created 2 2 t)
  /\ createObject example_UUIDs 2 0 empty_world = createObject example_UUIDs 2 1 empty_world.
Proof.
  apply (createObject_makes_a_tree example_UUIDs 2 2).
  - apply surjective_pairing.
  - apply (bool_decide_unpack _). vm_compute. exact I.
  - vm_compute. repeat constructor.
Defined.

Lemma createObject_serialized_length_witness :
  (exists s,
      @smartSerialize (unlimited (objects (createObject example_UUIDs 2 2 empty_world).2))
        (Ref (createObject example_UUIDs 2 2 empty_world).1)
      = Some (Text s)
      /\ N.of_nat (String.length s) = serialized_length 2 2)
  /\ serialized_length 7 7 = 69863851%N.
Proof.
  apply (createObject_serialized_length example_UUIDs 2 2).
  - apply surjective_pairing.
  - apply (bool_decide_unpack _). vm_compute. exact I.
  - vm_compute. repeat constructor.
Defined.

Example createObject_two_by_two :
  exists s,
    @smartSerialize (unlimited (objects (createObject example_UUIDs 2 2 empty_world).2))
      (Ref (createObject example_UUIDs 2 2 empty_world).1)
    = Some (Text s)
    /\ String.length s = 395.
Proof. eexists. split; vm_compute; reflexivity. Qed.

(** ** More of the tests of the repository, on both versions *)

Example serializes_with_both_limits :
  exists s s',
    @smartSerialize both_limits (Ref 1) = Some (Text s)
    /\ String.length s = 67
    /\ @Legacy.smartSerialize both_limits object_Object (Ref 1) = Some (Legacy.Normal s')
    /\ String.length s' = 67.
Proof. eexists _, _. split_and!; vm_compute; reflexivity. Qed.

Example serializes_a_simple_object :
  @smartSerialize (unlimited simple_object) (Ref 1)
  = Some (Text (dq "{'foo':1,'bar':'baz'}"))
  /\ @Legacy.smartSerialize (unlimited simple_object) object_Object (Ref 1)
     = Some (Legacy.Normal (dq "{'foo':1,'bar':'baz'}")).
Proof. split; vm_compute; reflexivity. Qed.

Example serializes_a_null_value :
  @smartSerialize (unlimited null_value) (Ref 1) = Some (Text (dq "{'foo':null}")).
Proof. vm_compute. reflexivity. Qed.

Example escapes_special_characters :
  @smartSerialize (unlimited special_characters) (Ref 1)
  = Some (Text ("{" +:+ quote +:+ "tab" +:+ quote +:+ ":" +:+ quote +:+ backslash +:+ "t" +:+ quote
                +:+ "," +:+ quote +:+ "lineFeed" +:+ quote +:+ ":" +:+ quote +:+ backslash +:+ "n" +:+ quote
                +:+ "," +:+ quote +:+ "doubleQuote" +:+ quote +:+ ":" +:+ quote +:+ backslash +:+ quote +:+ quote
                +:+ "," +:+ quote +:+ "singleQuote" +:+ quote +:+ ":" +:+ quote +:+ "'" +:+ quote
                +:+ "," +:+ quote +:+ "backslash" +:+ quote +:+ ":" +:+ quote +:+ backslash +:+ backslash +:+ quote
                +:+ "}")).
Proof. vm_compute. reflexivity. Qed.
